(** * pcs: corosync configuration validators and CIB constraint helpers

    A shallow embedding of [pcs/lib/corosync/config_validators.py] and
    [pcs/lib/cib/constraint/constraint.py], with the properties of their
    validation results.

    Python dictionaries whose iteration order reaches a report are kept
    as insertion-ordered association lists; dictionaries that are only
    looked up, or only turned into a [set], are [gmap]s; Python sets are
    [gset]s.

    [create] looks host names up. The lookup is a parameter with three
    outcomes: it returns, it raises [socket.gaierror], which the code
    catches, or it raises another exception, which the code lets
    through. A call of [create] is therefore a [Run]: it returns its
    reports or is ended by the exception. The properties of the returned
    reports are proved on the completed runs, functions of the names
    that resolve, and carried over to [create] by a refinement proof. *)

From Stdlib Require Import String Ascii ZArith.
From stdpp Require Import base option list gmap strings pretty fin_maps fin_sets.


(** ** Insertion-ordered dictionaries *)

Abbreviation dict V := (list (string * V)) (only parsing).

(** [d.get(k)] *)
Fixpoint dict_get {V} (d : dict V) (k : string) : option V :=
  match d with
  | [] => None
  | (k', v) :: d' => if bool_decide (k' = k) then Some v else dict_get d' k
  end.

(** [k in d] *)
Definition dict_mem {V} (k : string) (d : dict V) : bool :=
  match dict_get d k with Some _ => true | None => false end.

(** [d.keys()] *)
Definition dict_keys {V} (d : dict V) : list string := d.*1.

(** [d[k] += 1] on a [defaultdict(int)]: an existing key keeps its
    position, a new key goes last. *)
Fixpoint dict_incr (k : string) (d : dict nat) : dict nat :=
  match d with
  | [] => [(k, 1)]
  | (k', n) :: d' =>
      if bool_decide (k' = k) then (k', S n) :: d' else (k', n) :: dict_incr k d'
  end.

(** ** Report items *)

Inductive Severity := ERROR | WARNING.

Inductive ForceCode :=
| FORCE_NODE_ADDRESSES_UNRESOLVABLE
| FORCE_QDEVICE_MODEL
| FORCE_OPTIONS.

Inductive ReportCode :=
| REQUIRED_OPTION_IS_MISSING
| INVALID_OPTION_VALUE
| INVALID_OPTIONS
| INVALID_USERDEFINED_OPTIONS
| PREREQUISITE_OPTION_IS_MISSING
| COROSYNC_BAD_NODE_ADDRESSES_COUNT
| NODE_ADDRESSES_UNRESOLVABLE
| COROSYNC_NODE_NAME_DUPLICATION
| COROSYNC_NODE_ADDRESS_DUPLICATION
| COROSYNC_NODE_ADDRESS_COUNT_MISMATCH
| COROSYNC_IP_VERSION_MISMATCH_IN_LINKS
| COROSYNC_LINK_NUMBER_DUPLICATION
| COROSYNC_TOO_MANY_LINKS
| COROSYNC_CRYPTO_CIPHER_REQUIRES_CRYPTO_HASH
| RESOURCE_DOES_NOT_EXIST
| RESOURCE_IS_IN_CLONE
| RESOURCE_IS_IN_MASTER
| DUPLICATE_CONSTRAINTS_EXIST.

Global Instance Severity_eq_dec : EqDecision Severity.
Proof. solve_decision. Defined.
Global Instance ForceCode_eq_dec : EqDecision ForceCode.
Proof. solve_decision. Defined.
Global Instance ReportCode_eq_dec : EqDecision ReportCode.
Proof. solve_decision. Defined.

(** What a value had to be: an enumeration of values or a description. *)
Inductive ValueTypeOrEnum :=
| AllowedValues (values : list string)
| ValueDescription (description : string).

(** A plain structure, as the export functions of the CIB build it:
    strings, lists and dictionaries. *)
#[local] Unset Elimination Schemes.
Inductive Plain :=
| PStr (s : string)
| PList (items : list Plain)
| PDict (items : list (string * Plain)).
#[local] Set Elimination Schemes.

(** The payload of a report, one constructor per report code. *)
Inductive ReportInfo :=
| RequiredOptionIsMissing (option_names : list string) (option_type : string)
| InvalidOptionValue (option_name option_value : string)
    (allowed_values : ValueTypeOrEnum)
| InvalidOptions (option_names allowed : list string) (option_type : string)
    (allowed_patterns : list string)
| InvalidUserdefinedOptions (option_names : list string)
    (allowed_description option_type : string)
| PrerequisiteOptionIsMissing (option_name prerequisite_name : string)
| CorosyncBadNodeAddressesCount (actual_count min_count max_count : nat)
    (node_name : option string) (node_index : nat)
| NodeAddressesUnresolvable (address_list : gset string)
| CorosyncNodeNameDuplication (name_list : gset string)
| CorosyncNodeAddressDuplication (address_list : gset string)
| CorosyncNodeAddressCountMismatch (node_addr_count : gmap string nat)
| CorosyncIpVersionMismatchInLinks (link_numbers : list nat)
| CorosyncLinkNumberDuplication (link_number_list : list string)
| CorosyncTooManyLinks (actual_count max_count : nat) (transport : string)
| CorosyncCryptoCipherRequiresCryptoHash
| ResourceDoesNotExist (resource_id : string)
| ResourceIsInClone (resource_id clone_id : string)
| ResourceIsInMaster (resource_id master_id : string)
| DuplicateConstraintsExist (constraint_type : string)
    (constraint_info_list : list Plain).

Definition code_of (i : ReportInfo) : ReportCode :=
  match i with
  | RequiredOptionIsMissing _ _ => REQUIRED_OPTION_IS_MISSING
  | InvalidOptionValue _ _ _ => INVALID_OPTION_VALUE
  | InvalidOptions _ _ _ _ => INVALID_OPTIONS
  | InvalidUserdefinedOptions _ _ _ => INVALID_USERDEFINED_OPTIONS
  | PrerequisiteOptionIsMissing _ _ => PREREQUISITE_OPTION_IS_MISSING
  | CorosyncBadNodeAddressesCount _ _ _ _ _ => COROSYNC_BAD_NODE_ADDRESSES_COUNT
  | NodeAddressesUnresolvable _ => NODE_ADDRESSES_UNRESOLVABLE
  | CorosyncNodeNameDuplication _ => COROSYNC_NODE_NAME_DUPLICATION
  | CorosyncNodeAddressDuplication _ => COROSYNC_NODE_ADDRESS_DUPLICATION
  | CorosyncNodeAddressCountMismatch _ => COROSYNC_NODE_ADDRESS_COUNT_MISMATCH
  | CorosyncIpVersionMismatchInLinks _ => COROSYNC_IP_VERSION_MISMATCH_IN_LINKS
  | CorosyncLinkNumberDuplication _ => COROSYNC_LINK_NUMBER_DUPLICATION
  | CorosyncTooManyLinks _ _ _ => COROSYNC_TOO_MANY_LINKS
  | CorosyncCryptoCipherRequiresCryptoHash =>
      COROSYNC_CRYPTO_CIPHER_REQUIRES_CRYPTO_HASH
  | ResourceDoesNotExist _ => RESOURCE_DOES_NOT_EXIST
  | ResourceIsInClone _ _ => RESOURCE_IS_IN_CLONE
  | ResourceIsInMaster _ _ => RESOURCE_IS_IN_MASTER
  | DuplicateConstraintsExist _ _ => DUPLICATE_CONSTRAINTS_EXIST
  end.

(** Modelled from the spec: [pcs.lib.errors.ReportItem] is not among the
    sources; the spec gives a report item a kind, a severity, an optional
    force-override token and a structured payload. *)
Record ReportItem := mkReport {
  severity : Severity;
  forceable : option ForceCode;
  info : ReportInfo;
}.

Definition code (r : ReportItem) : ReportCode := code_of (info r).

(** The reports of code [c] in a report sequence, in order. *)
Definition reports_of (c : ReportCode) (l : list ReportItem) : list ReportItem :=
  filter (λ r, code r = c) l.

(** Modelled from the spec: [pcs.lib.reports] is not among the sources.
    Each function builds the report item of its kind. The functions the
    sources call with [severity] and [forceable] take them as arguments
    (their defaults are ERROR and no force code); the others build an
    ERROR without a force code. *)
Module reports.

(** Modelled from the spec: the forceability contract. A violation that
    is already forced is reported as a WARNING without a force code;
    otherwise it is an ERROR, carrying the force code if there is one. *)
Definition get_problem_creator (force_code : option ForceCode)
    (is_forced : bool)
    (report_creator : Severity → option ForceCode → ReportItem) : ReportItem :=
  if is_forced then report_creator WARNING None
  else match force_code with
       | Some c => report_creator ERROR (Some c)
       | None => report_creator ERROR None
       end.

Definition required_option_is_missing names option_type :=
  mkReport ERROR None (RequiredOptionIsMissing names option_type).
Definition invalid_option_value name value allowed
    (severity : Severity) (forceable : option ForceCode) :=
  mkReport severity forceable (InvalidOptionValue name value allowed).
Definition invalid_options names allowed option_type allowed_patterns
    (severity : Severity) (forceable : option ForceCode) :=
  mkReport severity forceable
    (InvalidOptions names allowed option_type allowed_patterns).
Definition invalid_userdefined_options names description option_type
    (severity : Severity) (forceable : option ForceCode) :=
  mkReport severity forceable
    (InvalidUserdefinedOptions names description option_type).
Definition prerequisite_option_is_missing name prerequisite :=
  mkReport ERROR None (PrerequisiteOptionIsMissing name prerequisite).
Definition corosync_bad_node_addresses_count actual min_count max_count
    node_name node_id :=
  mkReport ERROR None
    (CorosyncBadNodeAddressesCount actual min_count max_count
       node_name node_id).
Definition node_addresses_unresolvable address_list
    (severity : Severity) (forceable : option ForceCode) :=
  mkReport severity forceable (NodeAddressesUnresolvable address_list).
Definition corosync_node_name_duplication name_list :=
  mkReport ERROR None (CorosyncNodeNameDuplication name_list).
Definition corosync_node_address_duplication address_list :=
  mkReport ERROR None (CorosyncNodeAddressDuplication address_list).
Definition corosync_node_address_count_mismatch node_addr_count :=
  mkReport ERROR None (CorosyncNodeAddressCountMismatch node_addr_count).
Definition corosync_ip_version_mismatch_in_links link_numbers :=
  mkReport ERROR None (CorosyncIpVersionMismatchInLinks link_numbers).
Definition corosync_link_number_duplication number_list :=
  mkReport ERROR None (CorosyncLinkNumberDuplication number_list).
Definition corosync_too_many_links actual max_count transport :=
  mkReport ERROR None (CorosyncTooManyLinks actual max_count transport).
Definition corosync_crypto_cipher_requires_crypto_hash :=
  mkReport ERROR None CorosyncCryptoCipherRequiresCryptoHash.
Definition resource_does_not_exist resource_id :=
  mkReport ERROR None (ResourceDoesNotExist resource_id).
Definition resource_is_in_clone resource_id clone_id :=
  mkReport ERROR None (ResourceIsInClone resource_id clone_id).
Definition resource_is_in_master resource_id master_id :=
  mkReport ERROR None (ResourceIsInMaster resource_id master_id).
Definition duplicit_constraints_exist constraint_type constraint_info_list :=
  mkReport ERROR None
    (DuplicateConstraintsExist constraint_type constraint_info_list).

End reports.

(** ** Collaborators outside the sources

    Functions and constants the validators call whose code is not among
    the sources. Their results are left open: every property below holds
    for each implementation of them. *)
Class Collaborators := {
  (** [validate.is_ipv4_address]: literal IPv4 syntax check *)
  is_ipv4_address : string → bool;
  (** [validate.is_ipv6_address]: literal IPv6 syntax check *)
  is_ipv6_address : string → bool;
  (** whether a name matches an allowed name pattern, as [names_in] decides it
      (pattern first, name second) *)
  name_matches_pattern : string → string → bool;
  (** [constants.QUORUM_DEVICE_HEURISTICS_EXEC_NAME_RE.match(name) is not None] *)
  QUORUM_DEVICE_HEURISTICS_EXEC_NAME_RE : string → bool;
}.

(** Modelled from the spec: [pcs.lib.corosync.constants] is not among the
    sources. The two transport families are knet and udp/udpu; a udp or
    udpu node has exactly one address; knet links are numbered 0..7, so a
    knet node has one to eight addresses. *)
Module constants.
Definition TRANSPORTS_KNET : list string := ["knet"].
Definition TRANSPORTS_UDP : list string := ["udp"; "udpu"].
Definition TRANSPORTS_ALL : list string := TRANSPORTS_KNET ++ TRANSPORTS_UDP.
Definition LINKS_KNET_MIN : nat := 1.
Definition LINKS_KNET_MAX : nat := 8.
Definition LINKS_UDP_MIN : nat := 1.
Definition LINKS_UDP_MAX : nat := 1.
End constants.

(** ** The option validation framework *)

(** Modelled from the spec: [pcs.lib.validate] is not among the sources.
    A validator takes the whole option dictionary and returns the reports
    of its check; it does nothing when its option is absent. Option values
    are strings (a value and its normalized form coincide). *)
Module validate.

Abbreviation option_dict := (dict string) (only parsing).
Abbreviation validator := (option_dict → list ReportItem) (only parsing).

(** The keyword arguments [code_to_allow_extra_values] /
    [allow_extra_values] (and their [_names] twins): a force code and
    whether the violation is already forced. *)
Abbreviation force_args := (option ForceCode * bool)%type (only parsing).
Definition not_forceable : force_args := (None, false).
Definition allow_extra_values (c : ForceCode) (is_forced : bool) : force_args :=
  (Some c, is_forced).
Definition allow_extra_names (c : ForceCode) (is_forced : bool) : force_args :=
  (Some c, is_forced).

Definition is_empty_string (value : string) : bool := bool_decide (value = "").

Definition digit_of (a : ascii) : option Z :=
  let n := Z.of_nat (nat_of_ascii a) in
  if ((48 <=? n) && (n <=? 57))%Z then Some (n - 48)%Z else None.

Fixpoint parse_digits (acc : Z) (s : string) : option Z :=
  match s with
  | EmptyString => Some acc
  | String a s' =>
      match digit_of a with
      | Some d => parse_digits (10 * acc + d)%Z s'
      | None => None
      end
  end.

(** Modelled from the spec: the numeric parse of the integer validators,
    an optional sign and one or more decimal digits. *)
Definition parse_int (s : string) : option Z :=
  match s with
  | EmptyString => None
  | String a s' =>
      if bool_decide (a = "-"%char) then
        if is_empty_string s' then None else Z.opp <$> parse_digits 0 s'
      else if bool_decide (a = "+"%char) then
        if is_empty_string s' then None else parse_digits 0 s'
      else parse_digits 0 s
  end.

Definition is_integer (value : string) (at_least at_most : option Z) : bool :=
  match parse_int value with
  | None => false
  | Some n =>
      match at_least with Some lo => (lo <=? n)%Z | None => true end
      && match at_most with Some hi => (n <=? hi)%Z | None => true end
  end.

(** Modelled from the spec: every validator is applied, in the given
    order, to the whole option dictionary, and the reports are
    concatenated. *)
Definition run_collection_of_option_validators
    (options : option_dict) (validators : list validator) : list ReportItem :=
  flat_map (λ v, v options) validators.

(** Modelled from the spec: the conditional wrapper; the wrapped validator
    is skipped when its option is absent. *)
Definition _if_option_exists (option_name : string) (v : validator) : validator :=
  λ options, if dict_mem option_name options then v options else [].

(** Modelled from the spec: an absent option is reported as missing. *)
Definition is_required (option_name option_type : string) : validator :=
  λ options,
    if dict_mem option_name options then []
    else [reports.required_option_is_missing [option_name] option_type].

(** Modelled from the spec: the value checks. A present value that fails
    the predicate is reported as an invalid option value, under the
    forceability contract; an absent option is not checked. *)
Definition value_cond (option_name : string) (predicate : string → bool)
    (value_type_or_enum : ValueTypeOrEnum)
    (option_name_for_report : option string) (f : force_args) : validator :=
  _if_option_exists option_name (λ options,
    match dict_get options option_name with
    | Some value =>
        if predicate value then []
        else [reports.get_problem_creator f.1 f.2
                (reports.invalid_option_value
                   (default option_name option_name_for_report)
                   value value_type_or_enum)]
    | None => []
    end).

Definition value_not_empty (option_name description : string)
    (option_name_for_report : option string) : validator :=
  value_cond option_name (λ value, negb (is_empty_string value))
    (ValueDescription description) option_name_for_report not_forceable.

(** Modelled from the spec: the value is a member of the allowed set, else
    the report lists the allowed set. *)
Definition value_in (option_name : string) (allowed_values : list string)
    (f : force_args) : validator :=
  value_cond option_name (λ value, bool_decide (value ∈ allowed_values))
    (AllowedValues allowed_values) None f.

Definition value_integer_in_range (option_name : string) (at_least at_most : Z)
    (f : force_args) : validator :=
  value_cond option_name (λ value, is_integer value (Some at_least) (Some at_most))
    (ValueDescription "an integer in the range") None f.

Definition value_nonnegative_integer (option_name : string) (f : force_args)
    : validator :=
  value_cond option_name (λ value, is_integer value (Some 0%Z) None)
    (ValueDescription "a non-negative integer") None f.

Definition value_positive_integer (option_name : string) (f : force_args)
    : validator :=
  value_cond option_name (λ value, is_integer value (Some 1%Z) None)
    (ValueDescription "a positive integer") None f.

Definition value_port_number (option_name : string) (f : force_args)
    : validator :=
  value_cond option_name (λ value, is_integer value (Some 1%Z) (Some 65535%Z))
    (ValueDescription "a port number (1-65535)") None f.

(** Modelled from the spec: a set option whose prerequisite is absent is
    reported. *)
Definition depends_on_option (option_name prerequisite_option : string)
    : validator :=
  λ options,
    if dict_mem option_name options && negb (dict_mem prerequisite_option options)
    then [reports.prerequisite_option_is_missing option_name prerequisite_option]
    else [].

(** Modelled from the spec: an empty value is accepted as the value that
    unsets an option in an update; any other value goes to the inner
    validator. *)
Definition value_empty_or_valid (option_name : string) (inner : validator)
    : validator :=
  _if_option_exists option_name (λ options,
    match dict_get options option_name with
    | Some value => if is_empty_string value then [] else inner options
    | None => []
    end).

(** Modelled from the spec: every given name is an allowed name or
    matches an allowed pattern; the other names are reported as invalid
    option names, in one report, under the forceability contract. *)
Definition names_in `{!Collaborators} (allowed_name_list name_list : list string)
    (option_type : string) (f : force_args)
    (allowed_option_patterns : list string) : list ReportItem :=
  let invalid_names :=
    filter (λ name,
      (name ∉ allowed_name_list)
      ∧ ¬ (Exists (λ p, name_matches_pattern p name = true)
             allowed_option_patterns))
      name_list in
  match invalid_names with
  | [] => []
  | _ => [reports.get_problem_creator f.1 f.2
            (reports.invalid_options invalid_names allowed_name_list
               option_type allowed_option_patterns)]
  end.

(** Modelled from the spec: the value is a literal IPv4 or IPv6 address. *)
Definition value_ip_address `{!Collaborators} (option_name : string)
    (f : force_args) : validator :=
  value_cond option_name
    (λ value, is_ipv4_address value || is_ipv6_address value)
    (ValueDescription "an IP address") None f.

End validate.

(** ** Report kinds beyond [ReportInfo]

    The link list and quorum option validators build two more kinds of
    report. A report of those validators is a [ReportItem] of one of the
    kinds above ([inl]) or a report of one of these kinds ([inr]). *)
Inductive MoreInfo :=
| CorosyncEnabledBroadcastDisallowsMcastaddr
| CorosyncOptionsIncompatibleWithQdevice (options : list string).

Record MoreReport := mkMoreReport {
  more_severity : Severity;
  more_forceable : option ForceCode;
  more_info : MoreInfo;
}.

Abbreviation AnyReport := (ReportItem + MoreReport)%type (only parsing).

Global Instance MoreInfo_eq_dec : EqDecision MoreInfo.
Proof. solve_decision. Defined.
Global Instance MoreReport_eq_dec : EqDecision MoreReport.
Proof. solve_decision. Defined.

(** Modelled from the spec: the two report functions of [pcs.lib.reports]
    for these kinds; both build an ERROR without a force code. *)
Module more_reports.
Definition corosync_enabled_broadcast_disallows_mcastaddr : MoreReport :=
  mkMoreReport ERROR None CorosyncEnabledBroadcastDisallowsMcastaddr.
Definition corosync_options_incompatible_with_qdevice (options : list string)
    : MoreReport :=
  mkMoreReport ERROR None (CorosyncOptionsIncompatibleWithQdevice options).
End more_reports.

(** ** [pcs/lib/corosync/config_validators.py] *)

(** The address types [_get_address_type] returns (Python strings
    ["IPv4"], ["IPv6"], ["FQDN"], ["unresolvable"]). *)
Inductive AddressType := IPv4 | IPv6 | FQDN | unresolvable.

Global Instance AddressType_eq_dec : EqDecision AddressType.
Proof. solve_decision. Defined.

(** What a call of [socket.getaddrinfo(address, None)] does: it returns,
    it raises [socket.gaierror], or it raises an exception of another
    class, such as the [UnicodeError] of a host name with an empty or an
    over-long label. *)
Inductive Lookup :=
| Resolved
| Gaierror
| OtherException (exception : string).

Global Instance Lookup_eq_dec : EqDecision Lookup.
Proof. solve_decision. Defined.

(** What a call of a function that looks addresses up comes to: it
    returns a value, or it is ended by an exception that no [except]
    clause of the function catches. *)
Inductive Run (A : Type) :=
| Returns (a : A)
| Propagates (exception : string).
Arguments Returns {A} a.
Arguments Propagates {A} exception.

(** Sequencing: an exception that propagates ends the run. *)
Global Instance Run_bind : MBind Run := λ A B k r,
  match r with
  | Returns a => k a
  | Propagates exception => Propagates exception
  end.

Global Instance Run_fmap : FMap Run := λ A B f r,
  match r with
  | Returns a => Returns (f a)
  | Propagates exception => Propagates exception
  end.

(** A node of [node_list]: a dictionary with the optional keys ["name"]
    and ["addrs"]. *)
Record Node := mkNode {
  name : option string;
  addrs : option (list string);
}.

(** The state of the node loop of [create]. *)
Record create_state := mkState {
  report_items : list ReportItem;
  all_names_usable : bool;
  all_names_count : gmap string nat;
  all_addrs_count : gmap string nat;
  all_addrs_type : gmap string AddressType;
  addr_types_per_node : list (list AddressType);
}.

(** [itertools.zip_longest] over the lists [ls]: row [k] holds the [k]-th item of every
    list, [None] where a list is too short. *)
Definition zip_longest {A} (ls : list (list A)) : list (list (option A)) :=
  (λ k, (λ l : list A, l !! k) <$> ls) <$> seq 0 (max_list (length <$> ls)).

Module config_validators.
Section create.
Context `{!Collaborators}.

(** [getaddrinfo address] is what [socket.getaddrinfo(address, None)]
    does when [create] calls it: the state of name resolution at the time
    of the call. *)
Variable getaddrinfo : string → Lookup.

(** Only [socket.gaierror] is caught; any other exception of the lookup
    propagates to the caller. *)
Definition _get_address_type (address : string) : Run AddressType :=
  if is_ipv4_address address then Returns IPv4
  else if is_ipv6_address address then Returns IPv6
  else
    match getaddrinfo address with
    | Resolved => Returns FQDN
    | Gaierror => Returns unresolvable
    | OtherException exception => Propagates exception
    end.

(** [d[k] += 1] on a [defaultdict(int)] that is only looked up later. *)
Definition count_incr (k : string) (d : gmap string nat) : gmap string nat :=
  <[k := S (default 0 (d !! k))]> d.

(** The body of [for addr in node.get("addrs", [])]. *)
Definition addr_step
    (acc : gmap string nat * gmap string AddressType * list AddressType)
    (addr : string)
    : Run (gmap string nat * gmap string AddressType * list AddressType) :=
  let '(counts, types, addr_types) := acc in
  let counts := count_incr addr counts in
  types_t ←
    match types !! addr with
    | Some t => Returns (types, t)
    | None => t ← _get_address_type addr; Returns (<[addr := t]> types, t)
    end;
  Returns (counts, types_t.1, addr_types ++ [types_t.2]).

(** [for addr in node.get("addrs", [])] *)
Fixpoint addr_loop
    (acc : gmap string nat * gmap string AddressType * list AddressType)
    (addr_list : list string)
    : Run (gmap string nat * gmap string AddressType * list AddressType) :=
  match addr_list with
  | [] => Returns acc
  | addr :: rest => acc ← addr_step acc addr; addr_loop acc rest
  end.

(** The string-valued part of a node dictionary, as the name validators
    see it. *)
Definition node_options (node : Node) : validate.option_dict :=
  match name node with Some n => [("name", n)] | None => [] end.

Definition node_name_reports (i : nat) (node : Node) : list ReportItem :=
  validate.run_collection_of_option_validators (node_options node)
    [ validate.is_required "name" ("node " +:+ pretty i);
      validate.value_not_empty "name" "a non-empty string"
        (Some ("node " +:+ pretty i +:+ " name")) ].

Definition node_count_reports (transport : string) (i : nat) (node : Node)
    : list ReportItem :=
  let addr_count := length (default [] (addrs node)) in
  if bool_decide (transport ∈ constants.TRANSPORTS_KNET ++ constants.TRANSPORTS_UDP)
  then
    let '(min_addr_count, max_addr_count) :=
      if bool_decide (transport ∈ constants.TRANSPORTS_KNET)
      then (constants.LINKS_KNET_MIN, constants.LINKS_KNET_MAX)
      else (constants.LINKS_UDP_MIN, constants.LINKS_UDP_MAX) in
    if (addr_count <? min_addr_count) || (max_addr_count <? addr_count)
    then [reports.corosync_bad_node_addresses_count addr_count
            min_addr_count max_addr_count (name node) i]
    else []
  else [].

(** [all_names_count] after the name test of one node: missing and
    empty names are not counted. *)
Definition names_count_step (counts : gmap string nat) (node : Node)
    : gmap string nat :=
  match name node with
  | None => counts
  | Some n => if bool_decide (n = "") then counts else count_incr n counts
  end.

(** [not ("name" not in node or not node["name"])] *)
Definition has_usable_name (node : Node) : bool :=
  match name node with
  | None => false
  | Some n => negb (bool_decide (n = ""))
  end.

(** The body of [for i, node in enumerate(node_list, 1)]. An exception
    of an address lookup ends the call, whatever was collected before. *)
Definition node_step (transport : string) (st : create_state) (i : nat)
    (node : Node) : Run create_state :=
  acc ← addr_loop (all_addrs_count st, all_addrs_type st, [])
           (default [] (addrs node));
  Returns
    {| report_items :=
         report_items st ++ node_name_reports i node
           ++ node_count_reports transport i node;
       all_names_usable :=
         if has_usable_name node then all_names_usable st else false;
       all_names_count := names_count_step (all_names_count st) node;
       all_addrs_count := acc.1.1;
       all_addrs_type := acc.1.2;
       addr_types_per_node := addr_types_per_node st ++ [acc.2] |}.

Fixpoint node_loop (transport : string) (i : nat) (st : create_state)
    (node_list : list Node) : Run create_state :=
  match node_list with
  | [] => Returns st
  | node :: rest =>
      st ← node_step transport st i node; node_loop transport (S i) st rest
  end.

(** Cluster name and transport validation. *)
Definition cluster_reports (cluster_name transport : string) : list ReportItem :=
  validate.run_collection_of_option_validators
    [("name", cluster_name); ("transport", transport)]
    [ validate.value_not_empty "name" "a cluster name" (Some "cluster name");
      validate.value_in "transport" constants.TRANSPORTS_ALL
        validate.not_forceable ].

Definition unresolvable_addresses (st : create_state) : gset string :=
  dom (filter (λ kv, kv.2 = unresolvable) (all_addrs_type st)).

Definition unresolvable_reports (force_unresolvable : bool) (st : create_state)
    : list ReportItem :=
  if bool_decide (unresolvable_addresses st ≠ ∅) then
    let '(severity, forceable) :=
      if force_unresolvable then (WARNING, None)
      else (ERROR, Some FORCE_NODE_ADDRESSES_UNRESOLVABLE) in
    [reports.node_addresses_unresolvable (unresolvable_addresses st)
       severity forceable]
  else [].

Definition non_unique_names (st : create_state) : gset string :=
  dom (filter (λ kv, 1 < kv.2) (all_names_count st)).

Definition non_unique_addrs (st : create_state) : gset string :=
  dom (filter (λ kv, 1 < kv.2) (all_addrs_count st)).

Definition name_duplication_reports (st : create_state) : list ReportItem :=
  if bool_decide (non_unique_names st ≠ ∅)
  then [reports.corosync_node_name_duplication (non_unique_names st)]
  else [].

Definition address_duplication_reports (st : create_state) : list ReportItem :=
  if bool_decide (non_unique_addrs st ≠ ∅)
  then [reports.corosync_node_address_duplication (non_unique_addrs st)]
  else [].

(** [all_names_usable] as it stands at the test of line 137. *)
Definition names_usable (st : create_state) : bool :=
  if bool_decide (non_unique_names st ≠ ∅) then false else all_names_usable st.

(** [node_addr_count[node["name"]] = len(node.get("addrs", []))] for
    every node. The loop runs only when every node has a name, so the
    lookup [node["name"]] cannot fail there. *)
Definition node_addr_count (node_list : list Node) : gmap string nat :=
  foldl (λ m node,
           match name node with
           | Some n => <[n := length (default [] (addrs node))]> m
           | None => m
           end) ∅ node_list.

(** The reports built inside [if all_names_usable:]. The source calls
    [reports.corosync_node_address_count_mismatch] and drops its result:
    the report is never appended to [report_items]. *)
Definition count_mismatch_built (transport : string) (node_list : list Node)
    (st : create_state) : list ReportItem :=
  if names_usable st then
    if bool_decide (transport ∉ constants.TRANSPORTS_UDP)
       && bool_decide (1 < size (map_img (node_addr_count node_list) : gset nat))
    then [reports.corosync_node_address_count_mismatch
            (node_addr_count node_list)]
    else []
  else [].

Definition links_ip_mismatch (st : create_state) : list nat :=
  (filter (λ p : nat * list (option AddressType),
             Some IPv6 ∈ p.2 ∧ Some IPv4 ∈ p.2)
     (imap (λ link addr_types, (link, addr_types))
        (zip_longest (addr_types_per_node st)))).*1.

Definition ip_mismatch_reports (st : create_state) : list ReportItem :=
  match links_ip_mismatch st with
  | [] => []
  | links => [reports.corosync_ip_version_mismatch_in_links links]
  end.

Definition initial_state (cluster_name transport : string) : create_state :=
  mkState (cluster_reports cluster_name transport) true ∅ ∅ ∅ [].

(** The run of [create]: the returned [report_items], and the reports
    that were built but not put into [report_items]. *)
Definition create_run (cluster_name : string) (node_list : list Node)
    (transport : string) (force_unresolvable : bool)
    : Run (list ReportItem * list ReportItem) :=
  st ← node_loop transport 1 (initial_state cluster_name transport) node_list;
  let returned :=
    report_items st
      ++ unresolvable_reports force_unresolvable st
      ++ name_duplication_reports st
      ++ address_duplication_reports st
      ++ ip_mismatch_reports st in
  Returns (returned, count_mismatch_built transport node_list st).

Definition create (cluster_name : string) (node_list : list Node)
    (transport : string) (force_unresolvable : bool) : Run (list ReportItem) :=
  fst <$> create_run cluster_name node_list transport force_unresolvable.

End create.

Section links_and_transport.
Context `{!Collaborators}.

Definition knet_link_allowed_options : list string :=
  [ "ip_version"; "linknumber"; "link_priority"; "mcastport"; "ping_interval";
    "ping_precision"; "ping_timeout"; "pong_count"; "transport" ].

Definition knet_link_validators (max_link_number : Z) : list validate.validator :=
  [ validate.value_in "ip_version" ["ipv4"; "ipv6"] validate.not_forceable;
    validate.value_integer_in_range "linknumber" 0 max_link_number
      validate.not_forceable;
    validate.value_integer_in_range "link_priority" 0 255 validate.not_forceable;
    validate.value_port_number "mcastport" validate.not_forceable;
    validate.value_nonnegative_integer "ping_interval" validate.not_forceable;
    validate.value_nonnegative_integer "ping_precision" validate.not_forceable;
    validate.value_nonnegative_integer "ping_timeout" validate.not_forceable;
    validate.depends_on_option "ping_interval" "ping_timeout";
    validate.depends_on_option "ping_timeout" "ping_interval";
    validate.value_nonnegative_integer "pong_count" validate.not_forceable;
    validate.value_in "transport" ["sctp"; "udp"] validate.not_forceable ].

(** The body of [for options in link_list], on the pair
    ([report_items], [used_link_number]). *)
Definition knet_link_step (max_link_number : Z)
    (acc : list ReportItem * dict nat) (options : validate.option_dict)
    : list ReportItem * dict nat :=
  ( acc.1
      ++ validate.run_collection_of_option_validators options
           (knet_link_validators max_link_number)
      ++ validate.names_in knet_link_allowed_options (dict_keys options) "link"
           validate.not_forceable [],
    match dict_get options "linknumber" with
    | Some number => dict_incr number acc.2
    | None => acc.2
    end ).

Definition create_link_list_knet (link_list : list validate.option_dict)
    (max_link_number : Z) : list ReportItem :=
  match link_list with
  | [] => []
  | _ =>
      let max_link_number :=
        Z.max 0 (Z.min (Z.of_nat constants.LINKS_KNET_MAX - 1) max_link_number) in
      let acc := foldl (knet_link_step max_link_number) ([], []) link_list in
      let non_unique_linknumbers := (filter (λ kv, 1 < kv.2) acc.2).*1 in
      let link_count := length link_list in
      acc.1
        ++ match non_unique_linknumbers with
           | [] => []
           | _ => [reports.corosync_link_number_duplication
                     non_unique_linknumbers]
           end
        ++ (if constants.LINKS_KNET_MAX <? link_count
            then [reports.corosync_too_many_links link_count
                    constants.LINKS_KNET_MAX "knet"]
            else [])
  end.

Definition create_transport_knet
    (generic_options compression_options crypto_options : validate.option_dict)
    : list ReportItem :=
  let generic_allowed := ["ip_version"; "knet_pmtud_interval"; "link_mode"] in
  let generic_validators :=
    [ validate.value_in "ip_version" ["ipv4"; "ipv6"] validate.not_forceable;
      validate.value_nonnegative_integer "knet_pmtud_interval"
        validate.not_forceable;
      validate.value_in "link_mode" ["active"; "passive"; "rr"]
        validate.not_forceable ] in
  let compression_allowed := ["level"; "model"; "threshold"] in
  let compression_validators :=
    [ validate.value_not_empty "level" "a compression level e.g. 0..9" None;
      validate.value_not_empty "model"
        "a compression model e.g. zlib, lz4 or bzip2" None;
      validate.value_nonnegative_integer "threshold" validate.not_forceable ] in
  let crypto_type := "crypto" in
  let crypto_allowed := ["cipher"; "hash"; "model"] in
  let crypto_validators :=
    [ validate.value_in "cipher" ["none"; "aes256"; "aes192"; "aes128"; "3des"]
        validate.not_forceable;
      validate.value_in "hash"
        ["none"; "md5"; "sha1"; "sha256"; "sha384"; "sha512"]
        validate.not_forceable;
      validate.value_in "model" ["nss"; "openssl"] validate.not_forceable ] in
  let report_items :=
    validate.run_collection_of_option_validators generic_options
      generic_validators
    ++ validate.names_in generic_allowed (dict_keys generic_options)
         "transport" validate.not_forceable []
    ++ validate.run_collection_of_option_validators compression_options
         compression_validators
    ++ validate.names_in compression_allowed (dict_keys compression_options)
         "compression" validate.not_forceable []
    ++ validate.run_collection_of_option_validators crypto_options
         crypto_validators
    ++ validate.names_in crypto_allowed (dict_keys crypto_options)
         crypto_type validate.not_forceable [] in
  if bool_decide (default "aes256" (dict_get crypto_options "cipher") ≠ "none")
     && bool_decide (default "sha1" (dict_get crypto_options "hash") = "none")
  then report_items ++ [reports.corosync_crypto_cipher_requires_crypto_hash]
  else report_items.

End links_and_transport.

Section quorum_device.
Context `{!Collaborators}.

Definition _QDEVICE_NET_REQUIRED_OPTIONS : list string := ["algorithm"; "host"].
Definition _QDEVICE_NET_OPTIONAL_OPTIONS : list string :=
  ["connect_timeout"; "force_ip_version"; "port"; "tie_breaker"].

(** [list(validators.values())] *)
Definition validator_values (validators : dict validate.validator)
    : list validate.validator := validators.*2.

(** [[value_empty_or_valid(option_name, validator)
      for option_name, validator in validators.items()]] *)
Definition empty_or_valid (validators : dict validate.validator)
    : list validate.validator :=
  (λ kv, validate.value_empty_or_valid kv.1 kv.2) <$> validators.

Definition _validate_qdevice_net_algorithm (f : validate.force_args)
    : validate.validator :=
  validate._if_option_exists "algorithm" (λ option_dict,
    let allowed_algorithms := ["ffsplit"; "lms"] in
    match dict_get option_dict "algorithm" with
    | Some value =>
        if validate.is_empty_string value then
          [reports.invalid_option_value "algorithm" value
             (AllowedValues allowed_algorithms) ERROR None]
        else validate.value_in "algorithm" allowed_algorithms f option_dict
    | None => []
    end).

Definition _get_qdevice_model_net_options_validators (node_ids : list string)
    (allow_empty_values force_options : bool) : list validate.validator :=
  let allow_extra_values :=
    validate.allow_extra_values FORCE_OPTIONS force_options in
  let validators : dict validate.validator :=
    [ ("connect_timeout",
       validate.value_integer_in_range "connect_timeout" 1000 (2 * 60 * 1000)
         allow_extra_values);
      ("force_ip_version",
       validate.value_in "force_ip_version" ["0"; "4"; "6"] allow_extra_values);
      ("port", validate.value_port_number "port" allow_extra_values);
      ("tie_breaker",
       validate.value_in "tie_breaker" (["lowest"; "highest"] ++ node_ids)
         allow_extra_values) ] in
  if negb allow_empty_values then
    [ validate.value_not_empty "host" "a qdevice host address" None;
      _validate_qdevice_net_algorithm allow_extra_values ]
    ++ validator_values validators
  else
    [ validate.value_not_empty "host" "a qdevice host address" None;
      _validate_qdevice_net_algorithm allow_extra_values ]
    ++ empty_or_valid validators.

Definition _qdevice_add_model_net_options (options : validate.option_dict)
    (node_ids : list string) (force_options : bool) : list ReportItem :=
  let allowed_options :=
    _QDEVICE_NET_REQUIRED_OPTIONS ++ _QDEVICE_NET_OPTIONAL_OPTIONS in
  let option_type := "quorum device model" in
  let validators :=
    ((λ option_name, validate.is_required option_name option_type)
       <$> _QDEVICE_NET_REQUIRED_OPTIONS)
    ++ _get_qdevice_model_net_options_validators node_ids false force_options in
  validate.run_collection_of_option_validators options validators
  ++ validate.names_in allowed_options (dict_keys options) option_type
       (validate.allow_extra_names FORCE_OPTIONS force_options) [].

Definition _qdevice_update_model_net_options (options : validate.option_dict)
    (node_ids : list string) (force_options : bool) : list ReportItem :=
  let allowed_options :=
    _QDEVICE_NET_REQUIRED_OPTIONS ++ _QDEVICE_NET_OPTIONAL_OPTIONS in
  let option_type := "quorum device model" in
  let validators :=
    _get_qdevice_model_net_options_validators node_ids true force_options in
  validate.run_collection_of_option_validators options validators
  ++ validate.names_in allowed_options (dict_keys options) option_type
       (validate.allow_extra_names FORCE_OPTIONS force_options) [].

Definition _get_qdevice_generic_options_validators
    (allow_empty_values force_options : bool) : list validate.validator :=
  let allow_extra_values :=
    validate.allow_extra_values FORCE_OPTIONS force_options in
  let validators : dict validate.validator :=
    [ ("sync_timeout",
       validate.value_positive_integer "sync_timeout" allow_extra_values);
      ("timeout", validate.value_positive_integer "timeout" allow_extra_values) ]
  in
  if negb allow_empty_values then validator_values validators
  else empty_or_valid validators.

(** The body of [for name in options] in
    [_validate_qdevice_generic_options_names], on the pair
    ([model_found], [invalid_options]). *)
Definition generic_name_step (allowed_options : list string)
    (acc : bool * list string) (option_name : string) : bool * list string :=
  if bool_decide (option_name ∉ allowed_options) then
    if bool_decide (option_name = "model") then (true, acc.2)
    else (acc.1, acc.2 ++ [option_name])
  else acc.

Definition _validate_qdevice_generic_options_names
    (options : validate.option_dict) (force_options : bool) : list ReportItem :=
  let option_type := "quorum device" in
  let allowed_options := ["sync_timeout"; "timeout"] in
  let acc :=
    foldl (generic_name_step allowed_options) (false, []) (dict_keys options) in
  (if acc.1
   then [reports.invalid_options ["model"] allowed_options option_type []
           ERROR None]
   else [])
  ++ match acc.2 with
     | [] => []
     | invalid_options =>
         [reports.invalid_options invalid_options allowed_options option_type []
            (if force_options then WARNING else ERROR)
            (if force_options then None else Some FORCE_OPTIONS)]
     end.

Definition _qdevice_add_generic_options (options : validate.option_dict)
    (force_options : bool) : list ReportItem :=
  validate.run_collection_of_option_validators options
    (_get_qdevice_generic_options_validators false force_options)
  ++ _validate_qdevice_generic_options_names options force_options.

Definition _qdevice_update_generic_options (options : validate.option_dict)
    (force_options : bool) : list ReportItem :=
  validate.run_collection_of_option_validators options
    (_get_qdevice_generic_options_validators true force_options)
  ++ _validate_qdevice_generic_options_names options force_options.

(** Returns ([options_nonexec], [options_exec]). *)
Definition _split_heuristics_exec_options (options : validate.option_dict)
    : validate.option_dict * validate.option_dict :=
  ( filter (λ kv, String.prefix "exec_" kv.1 = false) options,
    filter (λ kv, String.prefix "exec_" kv.1 = true) options ).

Definition _get_qdevice_heuristics_options_validators
    (allow_empty_values force_options : bool) : list validate.validator :=
  let allow_extra_values :=
    validate.allow_extra_values FORCE_OPTIONS force_options in
  let validators : dict validate.validator :=
    [ ("mode", validate.value_in "mode" ["off"; "on"; "sync"] allow_extra_values);
      ("interval", validate.value_positive_integer "interval" allow_extra_values);
      ("sync_timeout",
       validate.value_positive_integer "sync_timeout" allow_extra_values);
      ("timeout", validate.value_positive_integer "timeout" allow_extra_values) ]
  in
  if negb allow_empty_values then validator_values validators
  else empty_or_valid validators.

(** The body of [for name in options_exec], on the pair
    ([not_valid_options], [valid_options]). *)
Definition exec_name_step (acc : list string * list string)
    (option_name : string) : list string * list string :=
  if QUORUM_DEVICE_HEURISTICS_EXEC_NAME_RE option_name
  then (acc.1, acc.2 ++ [option_name])
  else (acc.1 ++ [option_name], acc.2).

(** Returns ([report_list], [valid_options]). *)
Definition _validate_heuristics_exec_option_names
    (options_exec : validate.option_dict) : list ReportItem * list string :=
  let acc := foldl exec_name_step ([], []) (dict_keys options_exec) in
  ( match acc.1 with
    | [] => []
    | not_valid_options =>
        [reports.invalid_userdefined_options not_valid_options
           "exec_NAME cannot contain '.:{}#' and whitespace characters"
           "heuristics" ERROR None]
    end,
    acc.2 ).

Definition _validate_heuristics_noexec_option_names
    (options_nonexec : validate.option_dict) (force_options : bool)
    : list ReportItem :=
  let allowed_options := ["interval"; "mode"; "sync_timeout"; "timeout"] in
  validate.names_in allowed_options (dict_keys options_nonexec) "heuristics"
    (Some FORCE_OPTIONS, force_options) ["exec_NAME"].

Definition _qdevice_add_heuristics_options (options : validate.option_dict)
    (force_options : bool) : list ReportItem :=
  let split := _split_heuristics_exec_options options in
  let validators :=
    _get_qdevice_heuristics_options_validators false force_options in
  let checked := _validate_heuristics_exec_option_names split.2 in
  let validators :=
    validators
    ++ ((λ option, validate.value_not_empty option "a command to be run" None)
          <$> checked.2) in
  validate.run_collection_of_option_validators options validators
  ++ _validate_heuristics_noexec_option_names split.1 force_options
  ++ checked.1.

Definition _qdevice_update_heuristics_options (options : validate.option_dict)
    (force_options : bool) : list ReportItem :=
  let split := _split_heuristics_exec_options options in
  let validators :=
    _get_qdevice_heuristics_options_validators true force_options in
  let checked := _validate_heuristics_exec_option_names split.2 in
  validate.run_collection_of_option_validators options validators
  ++ _validate_heuristics_noexec_option_names split.1 force_options
  ++ checked.1.

Definition add_quorum_device (model : string)
    (model_options generic_options heuristics_options : validate.option_dict)
    (node_ids : list string) (force_model force_options : bool)
    : list ReportItem :=
  let model_validators : dict (unit → list ReportItem) :=
    [ ("net", λ _, _qdevice_add_model_net_options model_options node_ids
                     force_options) ] in
  let report_items :=
    match dict_get model_validators model with
    | Some model_validator => model_validator ()
    | None =>
        validate.run_collection_of_option_validators [("model", model)]
          [ validate.value_in "model" (dict_keys model_validators)
              (validate.allow_extra_values FORCE_QDEVICE_MODEL force_model) ]
    end in
  report_items
  ++ _qdevice_add_generic_options generic_options force_options
  ++ _qdevice_add_heuristics_options heuristics_options force_options.

Definition update_quorum_device (model : string)
    (model_options generic_options heuristics_options : validate.option_dict)
    (node_ids : list string) (force_options : bool) : list ReportItem :=
  let model_validators : dict (unit → list ReportItem) :=
    [ ("net", λ _, _qdevice_update_model_net_options model_options node_ids
                     force_options) ] in
  let report_items :=
    match dict_get model_validators model with
    | Some model_validator => model_validator ()
    | None => []
    end in
  report_items
  ++ _qdevice_update_generic_options generic_options force_options
  ++ _qdevice_update_heuristics_options heuristics_options force_options.

End quorum_device.

Section udp_totem_quorum.
Context `{!Collaborators}.

(** [constants.QUORUM_OPTIONS] and
    [constants.QUORUM_OPTIONS_INCOMPATIBLE_WITH_QDEVICE], which are not
    among the sources. *)
Variable QUORUM_OPTIONS : list string.
Variable QUORUM_OPTIONS_INCOMPATIBLE_WITH_QDEVICE : list string.

Definition udp_link_allowed_options : list string :=
  ["bindnetaddr"; "broadcast"; "mcastaddr"; "mcastport"; "ttl"].

Definition udp_link_validators : list validate.validator :=
  [ validate.value_ip_address "bindnetaddr" validate.not_forceable;
    validate.value_in "broadcast" ["0"; "1"] validate.not_forceable;
    validate.value_ip_address "mcastaddr" validate.not_forceable;
    validate.value_port_number "mcastport" validate.not_forceable;
    validate.value_integer_in_range "ttl" 0 255 validate.not_forceable ].

Definition create_link_list_udp (link_list : list validate.option_dict)
    : list AnyReport :=
  match link_list with
  | [] => []
  | options :: _ =>
      let report_items : list AnyReport :=
        inl <$> (validate.run_collection_of_option_validators options
                   udp_link_validators
                 ++ validate.names_in udp_link_allowed_options
                      (dict_keys options) "link" validate.not_forceable []) in
      let report_items :=
        if bool_decide (default "0" (dict_get options "broadcast") = "1")
           && dict_mem "mcastaddr" options
        then report_items
             ++ [inr more_reports.corosync_enabled_broadcast_disallows_mcastaddr]
        else report_items in
      let link_count := length link_list in
      if constants.LINKS_UDP_MAX <? link_count
      then report_items
           ++ [inl (reports.corosync_too_many_links link_count
                      constants.LINKS_UDP_MAX "udp/udpu")]
      else report_items
  end.

Definition create_transport_udp (options : validate.option_dict)
    : list ReportItem :=
  let allowed_options := ["ip_version"; "netmtu"] in
  let validators :=
    [ validate.value_in "ip_version" ["ipv4"; "ipv6"] validate.not_forceable;
      validate.value_positive_integer "netmtu" validate.not_forceable ] in
  validate.run_collection_of_option_validators options validators
  ++ validate.names_in allowed_options (dict_keys options) "udp/udpu transport"
       validate.not_forceable [].

Definition totem_allowed_options : list string :=
  [ "consensus"; "downcheck"; "fail_recv_const"; "heartbeat_failures_allowed";
    "hold"; "join"; "max_messages"; "max_network_delay"; "merge";
    "miss_count_const"; "send_join"; "seqno_unchanged_const"; "token";
    "token_coefficient"; "token_retransmit";
    "token_retransmits_before_loss_const"; "window_size" ].

Definition create_totem (options : validate.option_dict) : list ReportItem :=
  let validators :=
    [ validate.value_nonnegative_integer "consensus" validate.not_forceable;
      validate.value_nonnegative_integer "downcheck" validate.not_forceable;
      validate.value_nonnegative_integer "fail_recv_const" validate.not_forceable;
      validate.value_nonnegative_integer "heartbeat_failures_allowed"
        validate.not_forceable;
      validate.value_nonnegative_integer "hold" validate.not_forceable;
      validate.value_nonnegative_integer "join" validate.not_forceable;
      validate.value_nonnegative_integer "max_messages" validate.not_forceable;
      validate.value_nonnegative_integer "max_network_delay"
        validate.not_forceable;
      validate.value_nonnegative_integer "merge" validate.not_forceable;
      validate.value_nonnegative_integer "miss_count_const"
        validate.not_forceable;
      validate.value_nonnegative_integer "send_join" validate.not_forceable;
      validate.value_nonnegative_integer "seqno_unchanged_const"
        validate.not_forceable;
      validate.value_nonnegative_integer "token" validate.not_forceable;
      validate.value_nonnegative_integer "token_coefficient"
        validate.not_forceable;
      validate.value_nonnegative_integer "token_retransmit"
        validate.not_forceable;
      validate.value_nonnegative_integer "token_retransmits_before_loss_const"
        validate.not_forceable;
      validate.value_nonnegative_integer "window_size" validate.not_forceable ]
  in
  validate.run_collection_of_option_validators options validators
  ++ validate.names_in totem_allowed_options (dict_keys options) "totem"
       validate.not_forceable [].

Definition _get_quorum_options_validators (allow_empty_values : bool)
    : list validate.validator :=
  let allowed_bool := ["0"; "1"] in
  let validators : dict validate.validator :=
    [ ("auto_tie_breaker",
       validate.value_in "auto_tie_breaker" allowed_bool validate.not_forceable);
      ("last_man_standing",
       validate.value_in "last_man_standing" allowed_bool validate.not_forceable);
      ("last_man_standing_window",
       validate.value_positive_integer "last_man_standing_window"
         validate.not_forceable);
      ("wait_for_all",
       validate.value_in "wait_for_all" allowed_bool validate.not_forceable) ]
  in
  if negb allow_empty_values then validator_values validators
  else empty_or_valid validators.

Definition _validate_quorum_options (options : validate.option_dict)
    (has_qdevice allow_empty_values : bool) : list AnyReport :=
  let validators := _get_quorum_options_validators allow_empty_values in
  let report_items : list AnyReport :=
    inl <$> (validate.run_collection_of_option_validators options validators
             ++ validate.names_in QUORUM_OPTIONS (dict_keys options) "quorum"
                  validate.not_forceable []) in
  if has_qdevice then
    let qdevice_incompatible_options :=
      filter (λ option_name,
                option_name ∈ QUORUM_OPTIONS_INCOMPATIBLE_WITH_QDEVICE)
        (dict_keys options) in
    match qdevice_incompatible_options with
    | [] => report_items
    | _ => report_items
           ++ [inr (more_reports.corosync_options_incompatible_with_qdevice
                      qdevice_incompatible_options)]
    end
  else report_items.

Definition create_quorum_options (options : validate.option_dict)
    (has_qdevice : bool) : list AnyReport :=
  let validators :=
    [ validate.depends_on_option "last_man_standing_window"
        "last_man_standing" ] in
  let report_items :=
    validate.run_collection_of_option_validators options validators in
  _validate_quorum_options options has_qdevice false ++ (inl <$> report_items).

Definition update_quorum_options (options : validate.option_dict)
    (has_qdevice : bool) : list AnyReport :=
  _validate_quorum_options options has_qdevice true.

End udp_totem_quorum.
End config_validators.

(** ** The configuration tree

    An element of the tree: its tag, its attributes, its children in
    document order. [oid] is the identity of the element object, which
    Python's [is] compares. *)
#[local] Unset Elimination Schemes.
Inductive Element :=
| mkElement (oid : nat) (tag : string) (attrib : dict string)
    (children : list Element).
#[local] Set Elimination Schemes.

Definition oid (e : Element) : nat := let 'mkElement o _ _ _ := e in o.
Definition tag (e : Element) : string := let 'mkElement _ t _ _ := e in t.
Definition attrib (e : Element) : dict string := let 'mkElement _ _ a _ := e in a.
Definition children (e : Element) : list Element :=
  let 'mkElement _ _ _ c := e in c.

(** The proper descendants of an element, in document order. *)
Fixpoint descendants (e : Element) : list Element :=
  match e with
  | mkElement _ _ _ cs =>
      (fix go (l : list Element) : list Element :=
         match l with
         | [] => []
         | c :: l' => c :: descendants c ++ go l'
         end) cs
  end.

(** [element.findall(".//" + tag_name)] *)
Definition findall (e : Element) (tag_name : string) : list Element :=
  filter (λ d, tag d = tag_name) (descendants e).

(** An element together with the chain of its parents, nearest first:
    what [getparent()] walks through. *)
Record Located := mkLocated {
  element : Element;
  ancestors : list Element;
}.

(** What a call does: it returns a value or raises an exception. *)
Inductive Exception :=
| LibraryError (report : ReportItem)
| KeyError (key : string).

Inductive Outcome (A : Type) :=
| Returned (a : A)
| Raised (e : Exception).
Arguments Returned {A} a.
Arguments Raised {A} e.

(** Sequencing: an exception raised by the first call ends the run. *)
Global Instance Outcome_bind : MBind Outcome := λ A B k o,
  match o with
  | Returned a => k a
  | Raised e => Raised e
  end.

(** [element.attrib[key]] *)
Definition attrib_get (e : Element) (key : string) : Outcome string :=
  match dict_get (attrib e) key with
  | Some v => Returned v
  | None => Raised (KeyError key)
  end.

(** Modelled from the spec: [pcs.lib.cib.resource] is not among the
    sources. The clone wrappers are the elements tagged clone or master;
    find-by-id gives the first element of the tree, in document order,
    whose id is the given one, and nothing when the id is absent from the
    tree. *)
Module resource.

Definition TAGS_CLONE : list string := ["clone"; "master"].

(** Modelled from the spec: the search of find-by-id below an element
    whose chain of parents is [parents]: the element itself if it carries
    the id, else the first hit among its children, in document order. *)
Fixpoint find_under (parents : list Element) (id : string) (e : Element)
    : option Located :=
  if bool_decide (dict_get (attrib e) "id" = Some id)
  then Some (mkLocated e parents)
  else
    match e with
    | mkElement _ _ _ cs =>
        (fix go (l : list Element) : option Located :=
           match l with
           | [] => None
           | c :: l' =>
               match find_under (e :: parents) id c with
               | Some found => Some found
               | None => go l'
               end
           end) cs
    end.

(** Modelled from the spec: find-by-id over the whole tree. *)
Definition find_by_id (tree : Element) (id : string) : option Located :=
  find_under [] id tree.

End resource.

(** Modelled from the spec: [pcs.lib.cib.tools] is not among the
    sources. *)
Module tools.

(** Modelled from the spec: [find_parent] finds the nearest ancestor
    whose tag is in the given tag set. *)
Definition find_parent (e : Located) (tag_names : list string)
    : option Element :=
  List.find (λ a, bool_decide (tag a ∈ tag_names)) (ancestors e).

End tools.

(** The collaborator [resource_set.get_resource_id_set_list], whose code
    is not among the sources: the ordered resource ids of a resource set
    element. *)
Class ResourceSets := {
  get_resource_id_set_list : Element → list string;
}.

(** ** [pcs/lib/cib/constraint/constraint.py] *)
Module constraint.

Definition find_valid_resource_id (cib : Element)
    (can_repair_to_clone in_clone_allowed : bool) (id : string)
    : Outcome string :=
  match resource.find_by_id cib id with
  | None => Raised (LibraryError (reports.resource_does_not_exist id))
  | Some resource_element =>
      if bool_decide (tag (element resource_element) ∈ resource.TAGS_CLONE)
      then attrib_get (element resource_element) "id"
      else
        match tools.find_parent resource_element resource.TAGS_CLONE with
        | None => attrib_get (element resource_element) "id"
        | Some clone =>
            if can_repair_to_clone then attrib_get clone "id"
            else if in_clone_allowed
            then attrib_get (element resource_element) "id"
            else
              let report :=
                if bool_decide (tag clone = "master")
                then reports.resource_is_in_master
                else reports.resource_is_in_clone in
              resource_id ← attrib_get (element resource_element) "id";
              clone_id ← attrib_get clone "id";
              Raised (LibraryError (report resource_id clone_id))
        end
  end.

(** The [get_id_set_list] of [have_duplicit_resource_sets]. *)
Definition get_id_set_list `{!ResourceSets} (e : Element) : list (list string) :=
  get_resource_id_set_list <$> findall e "resource_set".

Definition have_duplicit_resource_sets `{!ResourceSets}
    (e other_element : Element) : bool :=
  bool_decide (get_id_set_list e = get_id_set_list other_element).

(** The [duplicit_element_list] of [check_is_without_duplication]. *)
Definition duplicit_element_list (constraint_section e : Element)
    (are_duplicit : Element → Element → bool) : list Element :=
  filter (λ duplicit_element,
            oid e ≠ oid duplicit_element
            ∧ are_duplicit e duplicit_element = true)
    (findall constraint_section (tag e)).

Definition check_is_without_duplication (constraint_section e : Element)
    (are_duplicit : Element → Element → bool)
    (export_element : Element → Plain) : Outcome unit :=
  match duplicit_element_list constraint_section e are_duplicit with
  | [] => Returned ()
  | duplicits =>
      Raised (LibraryError
                (reports.duplicit_constraints_exist (tag e)
                   (export_element <$> duplicits)))
  end.


(** Modelled from the spec: [reports.invalid_option], which is not among
    the sources: the invalid-option-name report of one name, listing the
    allowed names. *)
Definition invalid_option (allowed_options : list string) (option_name : string)
    : ReportItem :=
  mkReport ERROR None (InvalidOptions [option_name] allowed_options "" []).

(** The [for] loop of [_validate_attrib_names] over the keys of
    [options]: it raises at the first key that is not an attribute
    name. *)
Fixpoint validate_attrib_names_loop (attrib_names : list string)
    (option_names : list string) : Outcome unit :=
  match option_names with
  | [] => Returned ()
  | option_name :: rest =>
      if bool_decide (option_name ∉ attrib_names)
      then Raised (LibraryError (invalid_option attrib_names option_name))
      else validate_attrib_names_loop attrib_names rest
  end.

Definition _validate_attrib_names (attrib_names : list string)
    (options : dict string) : Outcome unit :=
  validate_attrib_names_loop attrib_names (dict_keys options).

(** [create_id] and [validate_id] are the callables the caller passes;
    either may raise. *)
Definition prepare_options (attrib_names : list string) (options : dict string)
    (create_id : unit → Outcome string) (validate_id : string → Outcome unit)
    : Outcome (dict string) :=
  _ ← _validate_attrib_names (attrib_names ++ ["id"]) options;
  match dict_get options "id" with
  | None => new_id ← create_id (); Returned (options ++ [("id", new_id)])
  | Some id => _ ← validate_id id; Returned options
  end.

End constraint.

(** ** A sample of the collaborators

    One implementation of the collaborators, for running the validators
    on concrete inputs. *)

Definition is_decimal_octet (s : string) : bool :=
  bool_decide (String.length s ≤ 3)
  && validate.is_integer s (Some 0%Z) (Some 255%Z)
  && negb (String.prefix "+" s) && negb (String.prefix "-" s).

(** Splits a string at every occurrence of a separator character. *)
Fixpoint split_on (sep : ascii) (s : string) : list string :=
  match s with
  | EmptyString => [EmptyString]
  | String a s' =>
      if bool_decide (a = sep) then EmptyString :: split_on sep s'
      else match split_on sep s' with
           | [] => [String a EmptyString]
           | part :: parts => String a part :: parts
           end
  end.

(** Dotted quad: four decimal octets. *)
Definition sample_is_ipv4_address (s : string) : bool :=
  let parts := split_on "."%char s in
  bool_decide (length parts = 4) && forallb is_decimal_octet parts.

Definition is_hex_digit (a : ascii) : bool :=
  let n := nat_of_ascii a in
  ((48 <=? n) && (n <=? 57)) || ((65 <=? n) && (n <=? 70))
  || ((97 <=? n) && (n <=? 102)).

Definition is_hex_group (s : string) : bool :=
  bool_decide (String.length s ≤ 4) && forallb is_hex_digit (list_ascii_of_string s).

(** Colon-separated groups of hexadecimal digits, at most eight, with at
    most one run of empty groups standing for zeros. *)
Definition sample_is_ipv6_address (s : string) : bool :=
  let parts := split_on ":"%char s in
  bool_decide (3 ≤ length parts ≤ 9) && forallb is_hex_group parts
  && (bool_decide (length parts = 8 ∧ "" ∉ parts)
      || bool_decide ("" ∈ parts)).

(** The pattern exec_NAME stands for the names that begin with exec_. *)
Definition sample_name_matches_pattern (pattern option_name : string) : bool :=
  bool_decide (pattern = "exec_NAME") && String.prefix "exec_" option_name.

Definition is_exec_name_char (a : ascii) : bool :=
  negb (bool_decide (a ∈ list_ascii_of_string ".:{}#"))
  && negb (bool_decide (nat_of_ascii a ∈ [9; 10; 11; 12; 13; 32])).

(** exec_ followed by one or more characters other than [.:{}#] and
    whitespace. *)
Definition sample_exec_name_re (option_name : string) : bool :=
  String.prefix "exec_" option_name
  && bool_decide (5 < String.length option_name)
  && forallb is_exec_name_char (list_ascii_of_string option_name).

Definition sample_collaborators : Collaborators := {|
  is_ipv4_address := sample_is_ipv4_address;
  is_ipv6_address := sample_is_ipv6_address;
  name_matches_pattern := sample_name_matches_pattern;
  QUORUM_DEVICE_HEURISTICS_EXEC_NAME_RE := sample_exec_name_re;
|}.

(** ** Vocabulary of the properties *)

(** Every report of [l] has one of the codes [cs]. *)
Definition codes_in (cs : list ReportCode) (l : list ReportItem) : Prop :=
  Forall (λ r, code r ∈ cs) l.

(** The codes of the option validation framework. *)
Definition option_codes : list ReportCode :=
  [ REQUIRED_OPTION_IS_MISSING; INVALID_OPTION_VALUE; INVALID_OPTIONS;
    PREREQUISITE_OPTION_IS_MISSING ].

(** A validator that only emits reports of the framework's codes. *)
Definition option_validator (v : validate.validator) : Prop :=
  ∀ options, codes_in option_codes (v options).


(** The names of a heuristics option dictionary that begin with exec_
    and fail the exec_NAME check, in dictionary order. *)
Definition invalid_exec_names `{!Collaborators} (options : validate.option_dict)
    : list string :=
  filter (λ option_name, QUORUM_DEVICE_HEURISTICS_EXEC_NAME_RE option_name = false)
    (filter (λ option_name, String.prefix "exec_" option_name = true)
       (dict_keys options)).

(** The invalid-userdefined-options report of the exec_NAME check. *)
Definition exec_names_report (option_names : list string) : ReportItem :=
  mkReport ERROR None
    (InvalidUserdefinedOptions option_names
       "exec_NAME cannot contain '.:{}#' and whitespace characters"
       "heuristics").

(** A report that the value of the option ["model"] is invalid. *)
Definition model_value_report (r : ReportItem) : Prop :=
  ∃ value allowed, info r = InvalidOptionValue "model" value allowed.

(** The report that a quorum device model is not an allowed one. *)
Definition model_not_allowed_report (model : string) (force_model : bool)
    : ReportItem :=
  mkReport (if force_model then WARNING else ERROR)
    (if force_model then None else Some FORCE_QDEVICE_MODEL)
    (InvalidOptionValue "model" model (AllowedValues ["net"])).

(** A validator that never reports the value of the option ["model"]. *)
Definition silent_on_model (v : validate.validator) : Prop :=
  ∀ options, Forall (λ r, ¬ model_value_report r) (v options).

(** The ["linknumber"] values of the entries of a link list, in order. *)
Definition linknumbers (link_list : list validate.option_dict) : list string :=
  omap (λ options, dict_get options "linknumber") link_list.

(** In how many entries of a link list ["linknumber"] has a given value. *)
Definition linknumber_count (number : string)
    (link_list : list validate.option_dict) : nat :=
  length (filter (λ options, dict_get options "linknumber" = Some number)
            link_list).

(** Every address of a node list, in order, with repetitions. *)
Definition all_addrs (node_list : list Node) : list string :=
  node_list ≫= (λ node, default [] (addrs node)).

(** The reports the node loop of [create] appends for the nodes numbered
    from [i]. *)
Fixpoint loop_reports (transport : string) (i : nat) (node_list : list Node)
    : list ReportItem :=
  match node_list with
  | [] => []
  | node :: rest =>
      config_validators.node_name_reports i node
      ++ config_validators.node_count_reports transport i node
      ++ loop_reports transport (S i) rest
  end.

(** *** Runs of [create] that no exception ends

    The state and the reports of a run of [create] in which every
    address lookup returns or raises [socket.gaierror], as functions of
    [resolves], which tells the names that resolve. The properties
    section proves that [create] returns exactly these when no lookup
    raises another exception, and returns nothing otherwise. *)

Section completed_run.
Context `{!Collaborators}.
Variable resolves : string → bool.

(** The type of an address whose lookup, if any, is not ended by an
    exception. *)
Definition classify (address : string) : AddressType :=
  if is_ipv4_address address then IPv4
  else if is_ipv6_address address then IPv6
  else if resolves address then FQDN
  else unresolvable.

Definition completed_addr_step
    (acc : gmap string nat * gmap string AddressType * list AddressType)
    (addr : string)
    : gmap string nat * gmap string AddressType * list AddressType :=
  let '(counts, types, addr_types) := acc in
  let counts := config_validators.count_incr addr counts in
  let '(types, t) :=
    match types !! addr with
    | Some t => (types, t)
    | None => let t := classify addr in (<[addr := t]> types, t)
    end in
  (counts, types, addr_types ++ [t]).

Definition completed_node_step (transport : string) (st : create_state)
    (i : nat) (node : Node) : create_state :=
  let acc :=
    foldl completed_addr_step (all_addrs_count st, all_addrs_type st, [])
      (default [] (addrs node)) in
  {| report_items :=
       report_items st ++ config_validators.node_name_reports i node
         ++ config_validators.node_count_reports transport i node;
     all_names_usable :=
       if config_validators.has_usable_name node then all_names_usable st
       else false;
     all_names_count :=
       config_validators.names_count_step (all_names_count st) node;
     all_addrs_count := acc.1.1;
     all_addrs_type := acc.1.2;
     addr_types_per_node := addr_types_per_node st ++ [acc.2] |}.

Fixpoint completed_node_loop (transport : string) (i : nat)
    (st : create_state) (node_list : list Node) : create_state :=
  match node_list with
  | [] => st
  | node :: rest =>
      completed_node_loop transport (S i)
        (completed_node_step transport st i node) rest
  end.

(** The state when the node loop is over. *)
Definition completed_state (cluster_name : string) (node_list : list Node)
    (transport : string) : create_state :=
  completed_node_loop transport 1
    (config_validators.initial_state cluster_name transport) node_list.

(** The returned reports, and the reports built and not returned. *)
Definition completed_run (cluster_name : string) (node_list : list Node)
    (transport : string) (force_unresolvable : bool)
    : list ReportItem * list ReportItem :=
  let st := completed_state cluster_name node_list transport in
  let returned :=
    report_items st
      ++ config_validators.unresolvable_reports force_unresolvable st
      ++ config_validators.name_duplication_reports st
      ++ config_validators.address_duplication_reports st
      ++ config_validators.ip_mismatch_reports st in
  (returned, config_validators.count_mismatch_built transport node_list st).

Definition completed_create (cluster_name : string) (node_list : list Node)
    (transport : string) (force_unresolvable : bool) : list ReportItem :=
  (completed_run cluster_name node_list transport force_unresolvable).1.

End completed_run.

(** The names that resolve, for a behaviour of the lookup. *)
Definition resolves_of (getaddrinfo : string → Lookup) (address : string)
    : bool :=
  bool_decide (getaddrinfo address = Resolved).

(** The lookup of an address, if [create] makes one, is not ended by an
    exception. *)
Definition lookup_returns `{!Collaborators} (getaddrinfo : string → Lookup)
    (address : string) : Prop :=
  ∀ exception,
    config_validators._get_address_type getaddrinfo address
    ≠ Propagates exception.

(** What one address does to [all_addrs_type]: an address met for the
    first time is classified, a known one is left alone. *)
Definition type_step `{!Collaborators} (resolves : string → bool)
    (types : gmap string AddressType) (addr : string)
    : gmap string AddressType :=
  match types !! addr with
  | Some _ => types
  | None => <[addr := classify resolves addr]> types
  end.

(** The codes of the reports [create] appends before its aggregate
    checks. *)
Definition node_codes : list ReportCode :=
  COROSYNC_BAD_NODE_ADDRESSES_COUNT :: option_codes.

(** How many nodes of a node list carry a given name. *)
Definition name_count (n : string) (node_list : list Node) : nat :=
  length (filter (λ node, name node = Some n) node_list).

(** The number of addresses of a node: [len(node.get("addrs", []))]. *)
Definition addr_count (node : Node) : nat := length (default [] (addrs node)).

(** The node list of the duplicate-name example of the spec. *)
Definition duplicate_name_example : list Node :=
  [ mkNode (Some "n1") (Some ["10.0.0.1"]);
    mkNode (Some "n1") (Some ["10.0.0.2"]) ].

(** A node list whose nodes have unique names and differing numbers of
    addresses. *)
Definition count_mismatch_example : list Node :=
  [ mkNode (Some "n1") (Some ["10.0.0.1"]);
    mkNode (Some "n2") (Some ["10.0.0.2"; "10.0.0.3"]) ].

(** A node list with an address that is a host name. *)
Definition host_name_example : list Node :=
  [ mkNode (Some "n1") (Some ["node1.example.org"]) ].

(** The elements of a tree: its root and the root's descendants. *)
Definition elements (tree : Element) : list Element := tree :: descendants tree.

(** The id attribute of an element, if it has one. *)
Definition element_id (e : Element) : option string := dict_get (attrib e) "id".

(** The error of a resource that sits in a clone or in a master. *)
Definition resource_in_clone_error (clone : Element) (resource_id clone_id : string)
    : Exception :=
  LibraryError
    (if bool_decide (tag clone = "master")
     then reports.resource_is_in_master resource_id clone_id
     else reports.resource_is_in_clone resource_id clone_id).

(** The tree of the example of the spec: resource R inside clone
    C-clone, and a resource P outside every clone. *)
Definition clone_example : Element :=
  mkElement 0 "cib" []
    [ mkElement 1 "resources" []
        [ mkElement 2 "clone" [("id", "C-clone")]
            [ mkElement 3 "primitive" [("id", "R")] [] ];
          mkElement 4 "primitive" [("id", "P")] [] ] ].

(** A sample of [get_resource_id_set_list]: the ids of the children of
    the resource set, which are its resource references. *)
Definition sample_resource_sets : ResourceSets := {|
  get_resource_id_set_list := λ resource_set, omap element_id (children resource_set);
|}.

(** A sample export: the attributes of the element. *)
Definition sample_export (e : Element) : Plain :=
  PDict [("attrib", PDict ((λ kv, (kv.1, PStr kv.2)) <$> attrib e))].

(** A colocation constraint with one resource set. *)
Definition colocation_with_set (o : nat) (id : string) (resource_ids : list string)
    : Element :=
  mkElement o "rsc_colocation" [("id", id)]
    [ mkElement (o + 100) "resource_set" [("id", id +:+ "_set")]
        (imap (λ i resource_id,
                 mkElement (o + 200 + i) "resource_ref" [("id", resource_id)] [])
           resource_ids) ].

(** The constraints of the example of the spec: two colocation
    constraints with the set A, B, one with B, A and one with A, C. *)
Definition constraints_example : Element :=
  mkElement 0 "constraints" []
    [ colocation_with_set 1 "c1" ["A"; "B"];
      colocation_with_set 2 "c2" ["B"; "A"];
      colocation_with_set 3 "c3" ["A"; "C"];
      colocation_with_set 4 "c4" ["A"; "B"] ].

(** A report that is an ERROR and cannot be overridden. *)
Definition plain_error (r : ReportItem) : Prop :=
  severity r = ERROR ∧ forceable r = None.

(** A validator whose reports cannot be overridden. *)
Definition strict_validator (v : validate.validator) : Prop :=
  ∀ options, Forall plain_error (v options).

(** How often an item occurs in a list. *)
Definition occurrences {A} `{!EqDecision A} (x : A) (l : list A) : nat :=
  length (filter (λ y, y = x) l).

(** The address types of a node, address by address. *)
Definition node_addr_types `{!Collaborators} (resolves : string → bool)
    (node : Node) : list AddressType :=
  classify resolves <$> default [] (addrs node).

(** Link [link] mixes IP versions: some node has an IPv4 address there
    and some node an IPv6 address. *)
Definition link_mixes_ip_versions `{!Collaborators} (resolves : string → bool)
    (node_list : list Node) (link : nat) : Prop :=
  (∃ node, node ∈ node_list ∧ node_addr_types resolves node !! link = Some IPv4)
  ∧ (∃ node, node ∈ node_list
             ∧ node_addr_types resolves node !! link = Some IPv6).

(** The address-count bounds [create] applies for a transport, if the
    transport belongs to one of the two families. *)
Definition addr_count_bounds (transport : string) : option (nat * nat) :=
  if bool_decide (transport ∈ constants.TRANSPORTS_KNET)
  then Some (constants.LINKS_KNET_MIN, constants.LINKS_KNET_MAX)
  else if bool_decide (transport ∈ constants.TRANSPORTS_UDP)
  then Some (constants.LINKS_UDP_MIN, constants.LINKS_UDP_MAX)
  else None.

(** A report of either family that is an ERROR and cannot be overridden. *)
Definition any_plain_error (r : ReportItem + MoreReport) : Prop :=
  match r with
  | inl r => plain_error r
  | inr m => more_severity m = ERROR ∧ more_forceable m = None
  end.

(** The reports [create_link_list_knet] builds for one entry of the link
    list, for a link number bound. *)
Definition knet_link_entry_reports `{!Collaborators} (max_link_number : Z)
    (options : validate.option_dict) : list ReportItem :=
  validate.run_collection_of_option_validators options
    (config_validators.knet_link_validators max_link_number)
  ++ validate.names_in config_validators.knet_link_allowed_options
       (dict_keys options) "link" validate.not_forceable [].

(** The bound [create_link_list_knet] puts on link numbers. *)
Definition knet_link_number_bound (max_link_number : Z) : Z :=
  Z.max 0 (Z.min (Z.of_nat constants.LINKS_KNET_MAX - 1) max_link_number).

(** The linknumber values that more than one entry carries, in the order
    of their first occurrence. *)
Definition duplicated_linknumbers (link_list : list validate.option_dict)
    : list string :=
  (filter (λ kv, 1 < kv.2)
     (foldl (λ d n, dict_incr n d) [] (linknumbers link_list))).*1.

(** Every cached address type is the type of its address. *)
Definition cache_consistent `{!Collaborators} (resolves : string → bool)
    (types : gmap string AddressType) : Prop :=
  ∀ a t, types !! a = Some t
         → t = classify resolves a.

(** A report once unresolvable addresses are forced: the report of
    unresolvable addresses is a WARNING without a force code, every
    other report is as it was. *)
Definition with_unresolvable_forced (r : ReportItem) : ReportItem :=
  if bool_decide (code r = NODE_ADDRESSES_UNRESOLVABLE)
  then mkReport WARNING None (info r) else r.

(** The nodes of a node list with their 1-based positions, as
    [enumerate(node_list, 1)] gives them. *)
Definition enumerate_from_1 (node_list : list Node) : list (nat * Node) :=
  imap (λ i node, (S i, node)) node_list.

(** The number of addresses is outside the bounds. *)
Definition addr_count_out_of_bounds (lo hi : nat) (node : Node) : Prop :=
  addr_count node < lo ∨ hi < addr_count node.

(** Some node has an address of type [t] at position [link] of its
    address list. *)
Definition link_has_type `{!Collaborators} (getaddrinfo : string → Lookup)
    (node_list : list Node) (link : nat) (t : AddressType) : Prop :=
  ∃ node address,
    node ∈ node_list
    ∧ default [] (addrs node) !! link = Some address
    ∧ config_validators._get_address_type getaddrinfo address = Returns t.

(** A sample of name resolution: two host names resolve, the lookup of a
    name with an empty label raises [UnicodeError], and every other name
    is unknown. *)
Definition sample_getaddrinfo (address : string) : Lookup :=
  if bool_decide (address ∈ ["node1.example.org"; "node2.example.org"])
  then Resolved
  else if bool_decide (address = "node2..example.org")
  then OtherException "UnicodeError"
  else Gaierror.

(** A second sample of name resolution: only ["node1.example.org"]
    resolves, and no lookup raises anything but [socket.gaierror]. *)
Definition other_getaddrinfo (address : string) : Lookup :=
  if bool_decide (address = "node1.example.org") then Resolved else Gaierror.

(** A node list with an unknown host name and a host name with an empty
    label. *)
Definition unicode_error_example : list Node :=
  [ mkNode (Some "n1") (Some ["no-such-host"]);
    mkNode (Some "n2") (Some ["node2..example.org"]) ].

(** A node list with a host name that resolves, used by two nodes, a
    literal of each IP version on the second link, and a node without
    addresses. *)
Definition looked_up_example : list Node :=
  [ mkNode (Some "n1") (Some ["node1.example.org"; "10.0.0.1"]);
    mkNode (Some "n2") (Some ["node1.example.org"; "fe80::2"]);
    mkNode (Some "n3") None ].

(** A node list with an unknown host name beside a literal address. *)
Definition unknown_host_example : list Node :=
  [ mkNode (Some "n1") (Some ["10.0.0.1"]);
    mkNode (Some "n2") (Some ["no-such-host"]) ].

(** A node list that [create] accepts for knet, with host names. *)
Definition accepted_host_example : list Node :=
  [ mkNode (Some "n1") (Some ["node1.example.org"; "fe80::1"]);
    mkNode (Some "n2") (Some ["node2.example.org"; "fe80::2"]) ].

(** Following the spec's words: a constraint is built with one child
    resource set per entry, and a resource set is an ordered group of
    resource references. The ordered sequence of ordered resource-id sets
    of a constraint is the ordered id set of each of its child resource
    sets, in the order of the children. *)
Definition ordered_id_sets `{!ResourceSets} (c : Element) : list (list string) :=
  get_resource_id_set_list
  <$> filter (λ child, tag child = "resource_set") (children c).

(** The resource sets of an element are children of it: none lies
    deeper. *)
Definition resource_sets_are_children (c : Element) : Prop :=
  ∀ child, child ∈ children c → findall child "resource_set" = [].

(** The siblings of an element in a section that have its tag: the other
    children of the section with that tag. *)
Definition siblings_of_tag (constraint_section e : Element) : list Element :=
  filter (λ c, tag c = tag e ∧ oid c ≠ oid e) (children constraint_section).

(** A colocation constraint with one child resource set per entry. *)
Definition colocation_with_sets (o : nat) (id : string)
    (resource_id_sets : list (list string)) : Element :=
  mkElement o "rsc_colocation" [("id", id)]
    (imap (λ k resource_ids,
             mkElement (o + 100 * S k) "resource_set"
               [("id", id +:+ "_set" +:+ pretty k)]
               (imap (λ i resource_id,
                        mkElement (o + 100 * S k + 10 * S i) "resource_ref"
                          [("id", resource_id)] [])
                  resource_ids))
       resource_id_sets).

(** Constraints with two resource sets each: the first and the last
    carry A, B then C, the second carries A, B then D, the third C then
    A, B, and the fourth A, B alone. *)
Definition two_set_constraints_example : Element :=
  mkElement 0 "constraints" []
    [ colocation_with_sets 1 "c1" [["A"; "B"]; ["C"]];
      colocation_with_sets 2 "c2" [["A"; "B"]; ["D"]];
      colocation_with_sets 3 "c3" [["C"]; ["A"; "B"]];
      colocation_with_sets 4 "c4" [["A"; "B"]];
      colocation_with_sets 5 "c5" [["A"; "B"]; ["C"]] ].

(** A section in which a colocation constraint lies inside an element
    that is not a constraint: the constraint with the set A, B has no
    sibling with its tag, and a constraint with the same set lies one
    level deeper. *)
Definition nested_constraints_example : Element :=
  mkElement 0 "constraints" []
    [ colocation_with_sets 1 "c1" [["A"; "B"]];
      mkElement 9 "group" [("id", "g")]
        [ colocation_with_sets 2 "c2" [["A"; "B"]] ] ].

(** * Properties *)

(** ** Report codes of a report sequence *)

Lemma reports_of_app c l1 l2 :
  reports_of c (l1 ++ l2) = reports_of c l1 ++ reports_of c l2.
Proof. apply filter_app. Qed.

Lemma reports_of_nil c : reports_of c [] = [].
Proof. done. Qed.

Lemma codes_in_nil cs : codes_in cs [].
Proof. constructor. Qed.

Lemma codes_in_app cs l1 l2 :
  codes_in cs l1 → codes_in cs l2 → codes_in cs (l1 ++ l2).
Proof. intros. by apply Forall_app. Qed.

Lemma codes_in_singleton cs r : code r ∈ cs → codes_in cs [r].
Proof. intros. by repeat constructor. Qed.

Lemma codes_in_mono cs cs' l : cs ⊆ cs' → codes_in cs l → codes_in cs' l.
Proof.
  intros Hsub Hl. eapply Forall_impl; [exact Hl|].
  intros r Hr. by apply Hsub.
Qed.

Lemma reports_of_codes_in c cs l :
  codes_in cs l → c ∉ cs → reports_of c l = [].
Proof.
  intros Hl Hc. induction Hl as [|r l Hr _ IH]; [done|].
  unfold reports_of in *. rewrite filter_cons_False; [done|].
  intros Heq. apply Hc. by rewrite <- Heq.
Qed.

Lemma reports_of_singleton c r :
  reports_of c [r] = if decide (code r = c) then [r] else [].
Proof. unfold reports_of. rewrite filter_cons. by destruct (decide _). Qed.

Lemma code_get_problem_creator force_code is_forced creator c :
  (∀ s f, code (creator s f) = c) →
  code (reports.get_problem_creator force_code is_forced creator) = c.
Proof.
  intros Hc. unfold reports.get_problem_creator.
  destruct is_forced, force_code; apply Hc.
Qed.

Section validator_codes.
Context `{!Collaborators}.

Lemma _if_option_exists_codes option_name v :
  option_validator v → option_validator (validate._if_option_exists option_name v).
Proof.
  intros Hv options. unfold validate._if_option_exists.
  destruct (dict_mem _ _); [apply Hv | apply codes_in_nil].
Qed.

Lemma value_cond_codes option_name predicate value_type name_for_report f :
  option_validator
    (validate.value_cond option_name predicate value_type name_for_report f).
Proof.
  apply _if_option_exists_codes. intros options.
  destruct (dict_get options option_name) as [value|]; [|apply codes_in_nil].
  destruct (predicate value); [apply codes_in_nil|].
  apply codes_in_singleton.
  rewrite (code_get_problem_creator _ _ _ INVALID_OPTION_VALUE); [|done].
  set_solver.
Qed.

Lemma value_not_empty_codes option_name description name_for_report :
  option_validator
    (validate.value_not_empty option_name description name_for_report).
Proof. apply value_cond_codes. Qed.

Lemma value_in_codes option_name allowed f :
  option_validator (validate.value_in option_name allowed f).
Proof. apply value_cond_codes. Qed.

Lemma value_integer_in_range_codes option_name lo hi f :
  option_validator (validate.value_integer_in_range option_name lo hi f).
Proof. apply value_cond_codes. Qed.

Lemma value_nonnegative_integer_codes option_name f :
  option_validator (validate.value_nonnegative_integer option_name f).
Proof. apply value_cond_codes. Qed.

Lemma value_positive_integer_codes option_name f :
  option_validator (validate.value_positive_integer option_name f).
Proof. apply value_cond_codes. Qed.

Lemma value_port_number_codes option_name f :
  option_validator (validate.value_port_number option_name f).
Proof. apply value_cond_codes. Qed.

Lemma is_required_codes option_name option_type :
  option_validator (validate.is_required option_name option_type).
Proof.
  intros options. unfold validate.is_required.
  destruct (dict_mem _ _); [apply codes_in_nil|].
  apply codes_in_singleton. set_solver.
Qed.

Lemma depends_on_option_codes option_name prerequisite :
  option_validator (validate.depends_on_option option_name prerequisite).
Proof.
  intros options. unfold validate.depends_on_option.
  destruct (_ && _); [|apply codes_in_nil].
  apply codes_in_singleton. set_solver.
Qed.

Lemma value_empty_or_valid_codes option_name inner :
  option_validator inner →
  option_validator (validate.value_empty_or_valid option_name inner).
Proof.
  intros Hinner. apply _if_option_exists_codes. intros options.
  destruct (dict_get options option_name) as [value|]; [|apply codes_in_nil].
  destruct (validate.is_empty_string value); [apply codes_in_nil | apply Hinner].
Qed.

Lemma names_in_codes allowed names option_type f patterns :
  codes_in option_codes (validate.names_in allowed names option_type f patterns).
Proof.
  unfold validate.names_in. destruct (filter _ names); [apply codes_in_nil|].
  apply codes_in_singleton.
  rewrite (code_get_problem_creator _ _ _ INVALID_OPTIONS); [|done].
  set_solver.
Qed.

Lemma run_collection_codes options validators :
  Forall option_validator validators →
  codes_in option_codes
    (validate.run_collection_of_option_validators options validators).
Proof.
  unfold validate.run_collection_of_option_validators.
  induction 1 as [|v vs Hv _ IH]; simpl; [apply codes_in_nil|].
  apply codes_in_app; [apply Hv | apply IH].
Qed.

End validator_codes.

Create HintDb codes discriminated.
#[export] Hint Resolve codes_in_nil codes_in_app value_cond_codes
  value_not_empty_codes value_in_codes value_integer_in_range_codes
  value_nonnegative_integer_codes value_positive_integer_codes
  value_port_number_codes is_required_codes depends_on_option_codes
  value_empty_or_valid_codes names_in_codes run_collection_codes
  Forall_nil_2 Forall_cons_2 : codes.

(** Reports of a code the framework does not emit are absent from a
    sequence the framework produced. *)
Ltac code_absent := apply (bool_decide_unpack _); vm_compute; exact I.


(** ** [create_transport_knet] *)

Section transport_facts.
Context `{!Collaborators}.
Import config_validators.


End transport_facts.



(** ** Quorum device validators *)

Section quorum_device_facts.
Context `{!Collaborators}.
Import config_validators.

Lemma dict_keys_filter {V} (p : string → bool) (b : bool) (d : dict V) :
  dict_keys (filter (λ kv, p kv.1 = b) d)
  = filter (λ k, p k = b) (dict_keys d).
Proof.
  unfold dict_keys. induction d as [|[k v] d IH]; [done|].
  rewrite filter_cons. csimpl. rewrite filter_cons.
  destruct (decide (p k = b)); csimpl; by rewrite IH.
Qed.

Lemma foldl_exec_name_step acc names :
  foldl exec_name_step acc names =
    ( acc.1 ++ filter (λ n, QUORUM_DEVICE_HEURISTICS_EXEC_NAME_RE n = false) names,
      acc.2 ++ filter (λ n, QUORUM_DEVICE_HEURISTICS_EXEC_NAME_RE n = true) names ).
Proof.
  revert acc. induction names as [|n names IH]; intros [bad good]; simpl.
  - by rewrite !app_nil_r.
  - rewrite IH, !filter_cons. unfold exec_name_step. simpl.
    destruct (QUORUM_DEVICE_HEURISTICS_EXEC_NAME_RE n) eqn:Hre; simpl.
    + by rewrite <- app_assoc.
    + by rewrite <- app_assoc.
Qed.

(** The report list of the exec_NAME check. *)
Lemma exec_option_names_reports options :
  (_validate_heuristics_exec_option_names
     (_split_heuristics_exec_options options).2).1 =
    match invalid_exec_names options with
    | [] => []
    | option_names => [exec_names_report option_names]
    end.
Proof.
  unfold _validate_heuristics_exec_option_names, _split_heuristics_exec_options.
  cbn [fst snd]. rewrite foldl_exec_name_step. cbn [fst snd app].
  rewrite dict_keys_filter.
  done.
Qed.

Lemma heuristics_validators_codes allow_empty_values force_options :
  Forall option_validator
    (_get_qdevice_heuristics_options_validators allow_empty_values force_options).
Proof.
  unfold _get_qdevice_heuristics_options_validators.
  destruct allow_empty_values; simpl; eauto 20 with codes.
Qed.

Lemma generic_validators_codes allow_empty_values force_options :
  Forall option_validator
    (_get_qdevice_generic_options_validators allow_empty_values force_options).
Proof.
  unfold _get_qdevice_generic_options_validators.
  destruct allow_empty_values; simpl; eauto 20 with codes.
Qed.

Lemma exec_value_validators_codes option_names :
  Forall option_validator
    ((λ option, validate.value_not_empty option "a command to be run" None)
       <$> option_names).
Proof. apply Forall_fmap, Forall_forall. intros. apply value_not_empty_codes. Qed.

Lemma noexec_option_names_codes options force_options :
  codes_in option_codes
    (_validate_heuristics_noexec_option_names options force_options).
Proof. apply names_in_codes. Qed.

Lemma reports_of_exec_option_names options :
  reports_of INVALID_USERDEFINED_OPTIONS
    (_validate_heuristics_exec_option_names
       (_split_heuristics_exec_options options).2).1 =
  (_validate_heuristics_exec_option_names
     (_split_heuristics_exec_options options).2).1.
Proof.
  rewrite exec_option_names_reports.
  destruct (invalid_exec_names options); [done|].
  by rewrite reports_of_singleton.
Qed.

(** C7: exec_NAME option names are checked strictly, whatever
    [force_options] is. For every heuristics option dictionary and every
    [force_options], an option name that begins with exec_ and fails
    [QUORUM_DEVICE_HEURISTICS_EXEC_NAME_RE] is listed in the
    invalid-userdefined-options report of the add validation and of the
    update validation; that report is the only one of its code, it is an
    ERROR and it carries no force code. *)
Theorem heuristics_exec_option_names_not_forceable
    (options : validate.option_dict) (force_options : bool)
    (option_name : string) :
  option_name ∈ dict_keys options →
  String.prefix "exec_" option_name = true →
  QUORUM_DEVICE_HEURISTICS_EXEC_NAME_RE option_name = false →
  option_name ∈ invalid_exec_names options
  ∧ reports_of INVALID_USERDEFINED_OPTIONS
      (_qdevice_add_heuristics_options options force_options)
    = [exec_names_report (invalid_exec_names options)]
  ∧ reports_of INVALID_USERDEFINED_OPTIONS
      (_qdevice_update_heuristics_options options force_options)
    = [exec_names_report (invalid_exec_names options)].
Proof.
  intros Hin Hprefix Hre.
  assert (Hbad : option_name ∈ invalid_exec_names options).
  { unfold invalid_exec_names. rewrite !list_elem_of_filter. done. }
  split; [done|].
  assert (Hreports :
    (_validate_heuristics_exec_option_names
       (_split_heuristics_exec_options options).2).1
    = [exec_names_report (invalid_exec_names options)]).
  { rewrite exec_option_names_reports.
    destruct (invalid_exec_names options); [|done].
    by apply elem_of_nil in Hbad. }
  unfold _qdevice_add_heuristics_options, _qdevice_update_heuristics_options.
  cbv zeta. rewrite !reports_of_app, !reports_of_exec_option_names, !Hreports.
  split.
  - rewrite (reports_of_codes_in _ option_codes
               (validate.run_collection_of_option_validators _ _)).
    + rewrite (reports_of_codes_in _ option_codes); [done| |code_absent].
      apply noexec_option_names_codes.
    + apply run_collection_codes, Forall_app.
      split; [apply heuristics_validators_codes|apply exec_value_validators_codes].
    + code_absent.
  - rewrite (reports_of_codes_in _ option_codes
               (validate.run_collection_of_option_validators _ _)).
    + rewrite (reports_of_codes_in _ option_codes); [done| |code_absent].
      apply noexec_option_names_codes.
    + apply run_collection_codes, heuristics_validators_codes.
    + code_absent.
Qed.

End quorum_device_facts.

Lemma heuristics_exec_option_names_not_forceable_witness :
  "exec_a.b" ∈ @invalid_exec_names sample_collaborators
                 [("mode", "on"); ("exec_a.b", "/bin/true")]
  ∧ reports_of INVALID_USERDEFINED_OPTIONS
      (@config_validators._qdevice_add_heuristics_options sample_collaborators
         [("mode", "on"); ("exec_a.b", "/bin/true")] true)
    = [exec_names_report
         (@invalid_exec_names sample_collaborators
            [("mode", "on"); ("exec_a.b", "/bin/true")])]
  ∧ reports_of INVALID_USERDEFINED_OPTIONS
      (@config_validators._qdevice_update_heuristics_options sample_collaborators
         [("mode", "on"); ("exec_a.b", "/bin/true")] true)
    = [exec_names_report
         (@invalid_exec_names sample_collaborators
            [("mode", "on"); ("exec_a.b", "/bin/true")])].
Proof.
  apply (@heuristics_exec_option_names_not_forceable sample_collaborators
           [("mode", "on"); ("exec_a.b", "/bin/true")] true "exec_a.b").
  - apply (bool_decide_unpack _). vm_compute. exact I.
  - vm_compute. reflexivity.
  - vm_compute. reflexivity.
Defined.

Section quorum_device_model_facts.
Context `{!Collaborators}.
Import config_validators.

Lemma codes_in_silent cs l :
  codes_in cs l → INVALID_OPTION_VALUE ∉ cs →
  Forall (λ r, ¬ model_value_report r) l.
Proof.
  intros Hl Hcs. eapply Forall_impl; [exact Hl|].
  intros r Hr (value & allowed & Hinfo). apply Hcs.
  unfold code in Hr. by rewrite Hinfo in Hr.
Qed.

Lemma _if_option_exists_silent option_name v :
  silent_on_model v → silent_on_model (validate._if_option_exists option_name v).
Proof.
  intros Hv options. unfold validate._if_option_exists.
  destruct (dict_mem _ _); [apply Hv | constructor].
Qed.

Lemma value_cond_silent option_name predicate value_type f :
  option_name ≠ "model" →
  silent_on_model (validate.value_cond option_name predicate value_type None f).
Proof.
  intros Hname. apply _if_option_exists_silent. intros options.
  destruct (dict_get options option_name) as [value|]; [|constructor].
  destruct (predicate value); [constructor|].
  repeat constructor. intros (v & a & Hinfo).
  destruct f as [[c|] []]; simpl in Hinfo; congruence.
Qed.

Lemma value_empty_or_valid_silent option_name inner :
  silent_on_model inner →
  silent_on_model (validate.value_empty_or_valid option_name inner).
Proof.
  intros Hinner. apply _if_option_exists_silent. intros options.
  destruct (dict_get options option_name) as [value|]; [|constructor].
  destruct (validate.is_empty_string value); [constructor | apply Hinner].
Qed.

Lemma is_required_silent option_name option_type :
  silent_on_model (validate.is_required option_name option_type).
Proof.
  intros options. unfold validate.is_required.
  destruct (dict_mem _ _); repeat constructor.
  intros (v & a & Hinfo). discriminate.
Qed.

Lemma _validate_qdevice_net_algorithm_silent f :
  silent_on_model (_validate_qdevice_net_algorithm f).
Proof.
  apply _if_option_exists_silent. intros options.
  destruct (dict_get options "algorithm") as [value|]; [|constructor].
  destruct (validate.is_empty_string value).
  - repeat constructor. intros (v & a & Hinfo). discriminate.
  - by apply value_cond_silent.
Qed.

Lemma run_collection_silent options validators :
  Forall silent_on_model validators →
  Forall (λ r, ¬ model_value_report r)
    (validate.run_collection_of_option_validators options validators).
Proof.
  unfold validate.run_collection_of_option_validators.
  induction 1 as [|v vs Hv _ IH]; simpl; [constructor|].
  apply Forall_app. split; [apply Hv | apply IH].
Qed.

Lemma names_in_silent allowed names option_type f patterns :
  Forall (λ r, ¬ model_value_report r)
    (validate.names_in allowed names option_type f patterns).
Proof.
  unfold validate.names_in. destruct (filter _ names); repeat constructor.
  intros (v & a & Hinfo). destruct f as [[c|] []]; discriminate.
Qed.

Lemma generic_options_names_silent options force_options :
  Forall (λ r, ¬ model_value_report r)
    (_validate_qdevice_generic_options_names options force_options).
Proof.
  unfold _validate_qdevice_generic_options_names. cbv zeta.
  destruct (foldl _ _ _) as [model_found invalid_options]. simpl.
  apply Forall_app. split.
  - destruct model_found; repeat constructor. intros (v & a & Hinfo). discriminate.
  - destruct invalid_options; repeat constructor.
    intros (v & a & Hinfo). discriminate.
Qed.

Ltac silent_validators :=
  repeat first
    [ apply Forall_nil_2
    | apply Forall_cons_2
    | apply value_empty_or_valid_silent
    | apply _validate_qdevice_net_algorithm_silent
    | apply is_required_silent
    | (apply value_cond_silent; discriminate) ].

Lemma update_generic_options_silent options force_options :
  Forall (λ r, ¬ model_value_report r)
    (_qdevice_update_generic_options options force_options).
Proof.
  apply Forall_app. split; [|apply generic_options_names_silent].
  apply run_collection_silent. simpl. silent_validators.
Qed.

Lemma update_heuristics_options_silent options force_options :
  Forall (λ r, ¬ model_value_report r)
    (_qdevice_update_heuristics_options options force_options).
Proof.
  unfold _qdevice_update_heuristics_options. cbv zeta.
  apply Forall_app; split; [|apply Forall_app; split].
  - apply run_collection_silent. simpl. silent_validators.
  - apply names_in_silent.
  - rewrite exec_option_names_reports.
    destruct (invalid_exec_names _); repeat constructor.
    intros (v & a & Hinfo). discriminate.
Qed.

Lemma update_model_net_options_silent options node_ids force_options :
  Forall (λ r, ¬ model_value_report r)
    (_qdevice_update_model_net_options options node_ids force_options).
Proof.
  apply Forall_app. split; [|apply names_in_silent].
  apply run_collection_silent. simpl. silent_validators.
Qed.

(** C6: the quorum device model on add and on update. With a model other
    than ["net"], [add_quorum_device] returns, before the reports of the
    generic and heuristics options, the report that the value of
    ["model"] is not in the allowed set: an ERROR forceable with
    FORCE_QDEVICE_MODEL, or a WARNING without a force code when
    [force_model] is set. With such a model [update_quorum_device] runs
    the generic and heuristics validation only, and for every model it
    returns no report about the value of ["model"]. *)
Theorem quorum_device_model_validation (model : string)
    (model_options generic_options heuristics_options : validate.option_dict)
    (node_ids : list string) (force_model force_options : bool) :
  (model ≠ "net" →
   add_quorum_device model model_options generic_options heuristics_options
     node_ids force_model force_options
   = model_not_allowed_report model force_model
       :: _qdevice_add_generic_options generic_options force_options
       ++ _qdevice_add_heuristics_options heuristics_options force_options)
  ∧ (model ≠ "net" →
     update_quorum_device model model_options generic_options
       heuristics_options node_ids force_options
     = _qdevice_update_generic_options generic_options force_options
       ++ _qdevice_update_heuristics_options heuristics_options force_options)
  ∧ Forall (λ r, ¬ model_value_report r)
      (update_quorum_device model model_options generic_options
         heuristics_options node_ids force_options).
Proof.
  split; [|split].
  - intros Hmodel. unfold add_quorum_device. cbv zeta.
    cbn [dict_get]. rewrite bool_decide_eq_false_2 by done.
    unfold validate.run_collection_of_option_validators, validate.value_in,
      validate.value_cond, validate._if_option_exists, dict_mem, dict_keys.
    cbn. rewrite bool_decide_eq_true_2 by done.
    rewrite bool_decide_eq_false_2.
    + by destruct force_model.
    + intros Hin. apply list_elem_of_singleton in Hin. done.
  - intros Hmodel. unfold update_quorum_device. cbv zeta.
    cbn [dict_get]. by rewrite bool_decide_eq_false_2 by done.
  - unfold update_quorum_device. cbv zeta. cbn [dict_get].
    apply Forall_app. split.
    + destruct (bool_decide ("net" = model)); [|constructor].
      apply update_model_net_options_silent.
    + apply Forall_app. split;
        [apply update_generic_options_silent
        |apply update_heuristics_options_silent].
Qed.

End quorum_device_model_facts.

Lemma quorum_device_model_validation_witness :
  @config_validators.add_quorum_device sample_collaborators
    "disk" [] [("timeout", "0")] [("mode", "on")] ["1"; "2"] false false
  = model_not_allowed_report "disk" false
      :: config_validators._qdevice_add_generic_options
           [("timeout", "0")] false
      ++ @config_validators._qdevice_add_heuristics_options sample_collaborators
           [("mode", "on")] false.
Proof.
  apply (@quorum_device_model_validation sample_collaborators
           "disk" [] [("timeout", "0")] [("mode", "on")] ["1"; "2"] false false).
  discriminate.
Defined.

(** ** Counting with an insertion-ordered dictionary *)

Section dict_incr_facts.

Lemma dict_get_incr k k' (d : dict nat) :
  dict_get (dict_incr k d) k' =
    if decide (k = k') then Some (S (default 0 (dict_get d k)))
    else dict_get d k'.
Proof.
  induction d as [|[k0 n] d IH]; simpl.
  - destruct (decide (k = k')) as [->|Hne].
    + by rewrite bool_decide_eq_true_2.
    + by rewrite bool_decide_eq_false_2.
  - destruct (decide (k0 = k)) as [->|Hk0].
    + rewrite bool_decide_eq_true_2 by done. simpl.
      destruct (decide (k = k')) as [->|Hne].
      * by rewrite bool_decide_eq_true_2.
      * by rewrite bool_decide_eq_false_2.
    + rewrite (bool_decide_eq_false_2 (k0 = k)) by done. simpl.
      rewrite IH. destruct (decide (k = k')) as [->|Hne].
      * by rewrite bool_decide_eq_false_2.
      * done.
Qed.

Lemma dict_keys_incr k (d : dict nat) :
  dict_keys (dict_incr k d) =
    if decide (k ∈ dict_keys d) then dict_keys d else dict_keys d ++ [k].
Proof.
  unfold dict_keys. induction d as [|[k0 n] d IH]; [done|].
  cbn [dict_incr]. destruct (decide (k0 = k)) as [->|Hk0].
  - rewrite bool_decide_eq_true_2 by done. rewrite !fmap_cons.
    rewrite decide_True; [done|]. apply list_elem_of_here.
  - rewrite bool_decide_eq_false_2 by done. rewrite !fmap_cons, IH.
    cbn [fst]. destruct (decide (k ∈ d.*1)) as [Hin|Hnin].
    + rewrite decide_True; [done|]. by apply list_elem_of_further.
    + rewrite decide_False; [done|].
      intros [?|?]%elem_of_cons; congruence.
Qed.

Lemma dict_keys_incr_NoDup k (d : dict nat) :
  NoDup (dict_keys d) → NoDup (dict_keys (dict_incr k d)).
Proof.
  intros Hd. rewrite dict_keys_incr. destruct (decide _); [done|].
  apply NoDup_app. split; [done|]. split; [|apply NoDup_singleton].
  intros x Hx ->%list_elem_of_singleton. done.
Qed.

Lemma dict_get_Some_elem_of {V} (d : dict V) k v :
  dict_get d k = Some v → (k, v) ∈ d.
Proof.
  induction d as [|[k0 v0] d IH]; simpl; [done|].
  destruct (decide (k0 = k)) as [->|Hne].
  - rewrite bool_decide_eq_true_2 by done. intros [= ->]. apply list_elem_of_here.
  - rewrite bool_decide_eq_false_2 by done. intros. by apply list_elem_of_further, IH.
Qed.

Lemma elem_of_dict_get {V} (d : dict V) k v :
  NoDup (dict_keys d) → (k, v) ∈ d → dict_get d k = Some v.
Proof.
  unfold dict_keys. induction d as [|[k0 v0] d IH]; simpl.
  - intros _ Hin. by apply elem_of_nil in Hin.
  - intros [Hk0 Hd]%NoDup_cons [Heq|Hin]%elem_of_cons.
    + injection Heq as -> ->. by rewrite bool_decide_eq_true_2.
    + rewrite bool_decide_eq_false_2; [by apply IH|].
      intros ->. apply Hk0. apply list_elem_of_fmap. by exists (k, v).
Qed.

(** The count a key has reached after a run of increments. *)
Lemma dict_get_foldl_incr (d : dict nat) (l : list string) k :
  default 0 (dict_get (foldl (λ d n, dict_incr n d) d l) k)
  = default 0 (dict_get d k) + length (filter (λ n, n = k) l).
Proof.
  revert d. induction l as [|n l IH]; intros d; simpl; [lia|].
  rewrite IH, dict_get_incr, filter_cons.
  destruct (decide (n = k)) as [->|Hne]; simpl; lia.
Qed.

Lemma dict_keys_foldl_incr_NoDup (d : dict nat) (l : list string) :
  NoDup (dict_keys d) → NoDup (dict_keys (foldl (λ d n, dict_incr n d) d l)).
Proof.
  revert d. induction l as [|n l IH]; intros d Hd; simpl; [done|].
  by apply IH, dict_keys_incr_NoDup.
Qed.

(** The keys counted more than once. *)
Lemma elem_of_counted_twice (d : dict nat) k :
  NoDup (dict_keys d) →
  k ∈ (filter (λ kv, 1 < kv.2) d).*1 ↔ 1 < default 0 (dict_get d k).
Proof.
  intros Hd. rewrite list_elem_of_fmap. split.
  - intros ([k' n] & -> & [Hn Hin]%list_elem_of_filter). simpl in *.
    by rewrite (elem_of_dict_get d k' n).
  - intros Hcount. destruct (dict_get d k) as [n|] eqn:Hget; simpl in Hcount; [|lia].
    exists (k, n). split; [done|]. apply list_elem_of_filter.
    split; [done|]. by apply dict_get_Some_elem_of.
Qed.

Lemma counted_twice_NoDup (d : dict nat) :
  NoDup (dict_keys d) → NoDup (filter (λ kv, 1 < kv.2) d).*1.
Proof.
  intros Hd. eapply sublist_NoDup; [exact Hd|].
  apply fmap_sublist, sublist_filter.
Qed.

End dict_incr_facts.

(** ** [create_link_list_knet] *)

Section link_list_facts.
Context `{!Collaborators}.
Import config_validators.

Lemma knet_link_validators_codes max_link_number :
  Forall option_validator (knet_link_validators max_link_number).
Proof. unfold knet_link_validators. eauto 20 with codes. Qed.

Lemma knet_link_loop_reports max_link_number acc link_list :
  codes_in option_codes acc.1 →
  codes_in option_codes (foldl (knet_link_step max_link_number) acc link_list).1.
Proof.
  revert acc. induction link_list as [|options link_list IH]; intros acc Hacc;
    [done|].
  cbn [foldl]. apply IH. unfold knet_link_step. cbn [fst].
  apply codes_in_app; [done|]. apply codes_in_app; [|apply names_in_codes].
  apply run_collection_codes, knet_link_validators_codes.
Qed.

Lemma knet_link_loop_used max_link_number acc link_list :
  (foldl (knet_link_step max_link_number) acc link_list).2
  = foldl (λ d n, dict_incr n d) acc.2 (linknumbers link_list).
Proof.
  revert acc. induction link_list as [|options link_list IH]; intros acc;
    [done|].
  cbn [foldl]. rewrite IH. unfold knet_link_step, linknumbers.
  cbn [snd omap list_omap].
  by destruct (dict_get options "linknumber").
Qed.

Lemma linknumber_count_linknumbers number link_list :
  linknumber_count number link_list
  = length (filter (λ n, n = number) (linknumbers link_list)).
Proof.
  unfold linknumber_count, linknumbers.
  induction link_list as [|options link_list IH]; [done|].
  rewrite filter_cons. simpl.
  destruct (dict_get options "linknumber") as [n|] eqn:Hget.
  - rewrite filter_cons.
    destruct (decide (n = number)) as [->|Hne].
    + rewrite decide_True by done. simpl. by rewrite IH.
    + rewrite decide_False by congruence. done.
  - rewrite decide_False by done. done.
Qed.

(** C8: duplicate linknumbers in a knet link list. When two or more
    entries of the link list carry linknumber ["0"], the sequence
    [create_link_list_knet] returns contains exactly one
    duplicate-linknumber report; the report names, once each, exactly the
    linknumber values that occur in more than one entry, ["0"] among
    them. *)
Theorem create_link_list_knet_duplicate_linknumbers
    (link_list : list validate.option_dict) (max_link_number : Z) :
  2 ≤ linknumber_count "0" link_list →
  ∃ numbers : list string,
    reports_of COROSYNC_LINK_NUMBER_DUPLICATION
      (create_link_list_knet link_list max_link_number)
    = [reports.corosync_link_number_duplication numbers]
    ∧ NoDup numbers
    ∧ (∀ number, number ∈ numbers ↔ 2 ≤ linknumber_count number link_list)
    ∧ "0" ∈ numbers.
Proof.
  intros Hzero. unfold create_link_list_knet.
  destruct link_list as [|first rest]; [by vm_compute in Hzero; lia|].
  cbv zeta.
  set (link_list := first :: rest) in *.
  set (acc := foldl _ _ link_list).
  set (numbers := (filter (λ kv, 1 < kv.2) acc.2).*1).
  assert (Hused : acc.2 = foldl (λ d n, dict_incr n d) [] (linknumbers link_list)).
  { unfold acc. by rewrite knet_link_loop_used. }
  assert (Hkeys : NoDup (dict_keys acc.2)).
  { rewrite Hused. apply dict_keys_foldl_incr_NoDup. constructor. }
  assert (Hnumbers : ∀ number,
    number ∈ numbers ↔ 2 ≤ linknumber_count number link_list).
  { intros number. unfold numbers. rewrite elem_of_counted_twice by done.
    rewrite Hused, dict_get_foldl_incr, linknumber_count_linknumbers.
    simpl. lia. }
  exists numbers. split; [|split; [|split]].
  - rewrite !reports_of_app.
    rewrite (reports_of_codes_in _ option_codes acc.1);
      [|apply knet_link_loop_reports, codes_in_nil|code_absent].
    destruct numbers as [|number numbers'] eqn:Hn.
    { exfalso. apply (not_elem_of_nil "0"). by apply Hnumbers. }
    rewrite reports_of_singleton. simpl.
    destruct (_ <? _); by rewrite ?reports_of_singleton.
  - by apply counted_twice_NoDup.
  - done.
  - by apply Hnumbers.
Qed.

End link_list_facts.

Lemma create_link_list_knet_duplicate_linknumbers_witness :
  ∃ numbers : list string,
    reports_of COROSYNC_LINK_NUMBER_DUPLICATION
      (@config_validators.create_link_list_knet sample_collaborators
         [[("linknumber", "0")]; [("linknumber", "0"); ("transport", "udp")]] 7)
    = [reports.corosync_link_number_duplication numbers]
    ∧ NoDup numbers
    ∧ (∀ number,
         number ∈ numbers
         ↔ 2 ≤ linknumber_count number
                 [[("linknumber", "0")];
                  [("linknumber", "0"); ("transport", "udp")]])
    ∧ "0" ∈ numbers.
Proof.
  apply (@create_link_list_knet_duplicate_linknumbers sample_collaborators
           [[("linknumber", "0")]; [("linknumber", "0"); ("transport", "udp")]]
           7).
  vm_compute. lia.
Defined.

(** ** Completed runs of [create]: the node loop *)

Section create_loop_facts.
Context `{!Collaborators}.
Variable resolves : string → bool.
Import config_validators.

Lemma node_loop_report_items transport i st node_list :
  report_items (completed_node_loop resolves transport i st node_list)
  = report_items st ++ loop_reports transport i node_list.
Proof.
  revert i st. induction node_list as [|node rest IH]; intros i st.
  - cbn. by rewrite app_nil_r.
  - cbn [completed_node_loop loop_reports]. rewrite IH. cbn [completed_node_step report_items].
    by rewrite <- !app_assoc.
Qed.

Lemma node_loop_all_names_usable transport i st node_list :
  all_names_usable (completed_node_loop resolves transport i st node_list)
  = all_names_usable st && forallb has_usable_name node_list.
Proof.
  revert i st. induction node_list as [|node rest IH]; intros i st.
  - cbn. by rewrite andb_true_r.
  - cbn [completed_node_loop forallb]. rewrite IH. cbn [completed_node_step all_names_usable].
    destruct (has_usable_name node); [done|].
    by rewrite andb_false_r.
Qed.

Lemma node_loop_all_names_count transport i st node_list :
  all_names_count (completed_node_loop resolves transport i st node_list)
  = foldl names_count_step (all_names_count st) node_list.
Proof.
  revert i st. induction node_list as [|node rest IH]; intros i st; [done|].
  cbn [completed_node_loop foldl]. by rewrite IH.
Qed.

Lemma addr_loop_types counts types addr_types addr_list :
  (foldl (completed_addr_step resolves) (counts, types, addr_types) addr_list).1.2
  = foldl (type_step resolves) types addr_list.
Proof.
  revert counts types addr_types.
  induction addr_list as [|addr rest IH]; intros counts types addr_types;
    [done|].
  cbn [foldl]. unfold completed_addr_step at 2, type_step at 2.
  destruct (types !! addr); apply IH.
Qed.

Lemma node_loop_all_addrs_type transport i st node_list :
  all_addrs_type (completed_node_loop resolves transport i st node_list)
  = foldl (type_step resolves) (all_addrs_type st) (all_addrs node_list).
Proof.
  revert i st. induction node_list as [|node rest IH]; intros i st; [done|].
  cbn [completed_node_loop]. rewrite IH. cbn [completed_node_step all_addrs_type].
  unfold all_addrs. rewrite bind_cons, foldl_app. by rewrite addr_loop_types.
Qed.

(** The type recorded for an address when the address loop is over. *)
Lemma lookup_type_loop types addr_list a :
  foldl (type_step resolves) types addr_list !! a
  = match types !! a with
    | Some t => Some t
    | None =>
        if decide (a ∈ addr_list) then Some (classify resolves a)
        else None
    end.
Proof.
  revert types. induction addr_list as [|addr rest IH]; intros types.
  - cbn. by destruct (types !! a).
  - cbn [foldl]. rewrite IH. unfold type_step.
    destruct (types !! addr) as [t|] eqn:Haddr.
    + destruct (types !! a) as [t'|] eqn:Ha; [done|].
      assert (a ≠ addr) by congruence.
      destruct (decide (a ∈ rest)) as [Hin|Hnin].
      * rewrite decide_True; [done|]. by apply list_elem_of_further.
      * rewrite decide_False; [done|]. intros [?|?]%elem_of_cons; done.
    + destruct (decide (addr = a)) as [->|Hne].
      * rewrite lookup_insert_eq, Haddr.
        rewrite decide_True; [done|]. apply list_elem_of_here.
      * rewrite lookup_insert_ne by done.
        destruct (types !! a) as [t'|]; [done|].
        destruct (decide (a ∈ rest)) as [Hin|Hnin].
        -- rewrite decide_True; [done|]. by apply list_elem_of_further.
        -- rewrite decide_False; [done|]. intros [?|?]%elem_of_cons; done.
Qed.

(** The unresolvable addresses [create] finds are the addresses of the
    node list that [_get_address_type] classifies as unresolvable. *)
Lemma elem_of_unresolvable_addresses cluster_name node_list transport a :
  a ∈ unresolvable_addresses
        (completed_state resolves cluster_name node_list transport)
  ↔ a ∈ all_addrs node_list ∧ classify resolves a = unresolvable.
Proof.
  unfold unresolvable_addresses, completed_state.
  rewrite elem_of_dom. unfold is_Some.
  setoid_rewrite map_lookup_filter_Some.
  rewrite node_loop_all_addrs_type. setoid_rewrite lookup_type_loop.
  cbn [initial_state all_addrs_type]. rewrite lookup_empty.
  destruct (decide (a ∈ all_addrs node_list)) as [Hin|Hnin].
  - split.
    + intros (t & [= <-] & Ht). done.
    + intros [_ Ht]. eauto.
  - split.
    + intros (t & [=] & _).
    + intros [Hin _]. done.
Qed.

(** *** Codes of the pieces of the returned sequence *)

Lemma cluster_reports_codes cluster_name transport :
  codes_in node_codes (cluster_reports cluster_name transport).
Proof.
  apply (codes_in_mono option_codes); [code_absent|].
  unfold cluster_reports. eauto 20 with codes.
Qed.

Lemma node_name_reports_codes i node :
  codes_in node_codes (node_name_reports i node).
Proof.
  apply (codes_in_mono option_codes); [code_absent|].
  unfold node_name_reports. eauto 20 with codes.
Qed.

Lemma node_count_reports_codes transport i node :
  codes_in node_codes (node_count_reports transport i node).
Proof.
  unfold node_count_reports. cbv zeta.
  destruct (bool_decide (transport ∈ _ ++ _)); [|apply codes_in_nil].
  destruct (bool_decide (transport ∈ _)); simpl;
    (destruct (_ || _); [apply codes_in_singleton; code_absent|apply codes_in_nil]).
Qed.

Lemma loop_reports_codes transport i node_list :
  codes_in node_codes (loop_reports transport i node_list).
Proof.
  revert i. induction node_list as [|node rest IH]; intros i; [apply codes_in_nil|].
  cbn [loop_reports].
  auto using codes_in_app, node_name_reports_codes, node_count_reports_codes.
Qed.

Lemma final_report_items_codes cluster_name node_list transport :
  codes_in node_codes
    (report_items (completed_state resolves cluster_name node_list transport)).
Proof.
  unfold completed_state. rewrite node_loop_report_items.
  apply codes_in_app; [apply cluster_reports_codes|apply loop_reports_codes].
Qed.

Lemma unresolvable_reports_codes force_unresolvable st :
  codes_in [NODE_ADDRESSES_UNRESOLVABLE] (unresolvable_reports force_unresolvable st).
Proof.
  unfold unresolvable_reports. destruct (bool_decide _); [|apply codes_in_nil].
  destruct force_unresolvable; apply codes_in_singleton; code_absent.
Qed.

Lemma name_duplication_reports_codes st :
  codes_in [COROSYNC_NODE_NAME_DUPLICATION] (name_duplication_reports st).
Proof.
  unfold name_duplication_reports. destruct (bool_decide _); [|apply codes_in_nil].
  apply codes_in_singleton; code_absent.
Qed.

Lemma address_duplication_reports_codes st :
  codes_in [COROSYNC_NODE_ADDRESS_DUPLICATION] (address_duplication_reports st).
Proof.
  unfold address_duplication_reports. destruct (bool_decide _); [|apply codes_in_nil].
  apply codes_in_singleton; code_absent.
Qed.

Lemma ip_mismatch_reports_codes st :
  codes_in [COROSYNC_IP_VERSION_MISMATCH_IN_LINKS] (ip_mismatch_reports st).
Proof.
  unfold ip_mismatch_reports. destruct (links_ip_mismatch st); [apply codes_in_nil|].
  apply codes_in_singleton; code_absent.
Qed.

(** The returned sequence, piece by piece. *)
Lemma create_unfold cluster_name node_list transport force_unresolvable :
  completed_create resolves cluster_name node_list transport force_unresolvable
  = let st := completed_state resolves cluster_name node_list transport in
    report_items st
      ++ unresolvable_reports force_unresolvable st
      ++ name_duplication_reports st
      ++ address_duplication_reports st
      ++ ip_mismatch_reports st.
Proof. done. Qed.

(** The reports of one code in the returned sequence, piece by piece. *)
Lemma reports_of_create c cluster_name node_list transport force_unresolvable :
  reports_of c
    (completed_create resolves cluster_name node_list transport force_unresolvable)
  = let st := completed_state resolves cluster_name node_list transport in
    reports_of c (report_items st)
      ++ reports_of c (unresolvable_reports force_unresolvable st)
      ++ reports_of c (name_duplication_reports st)
      ++ reports_of c (address_duplication_reports st)
      ++ reports_of c (ip_mismatch_reports st).
Proof. rewrite create_unfold. cbv zeta. by rewrite !reports_of_app. Qed.

End create_loop_facts.

(** ** Completed runs of [create]: unresolvable addresses *)

Section create_unresolvable_facts.
Context `{!Collaborators}.
Variable resolves : string → bool.
Import config_validators.

(** The unresolvable-addresses report of a completed run. *)
Lemma completed_unresolvable_addresses_report (cluster_name : string)
    (node_list : list Node) (transport : string) (force_unresolvable : bool)
    (address : string) :
  address ∈ all_addrs node_list →
  classify resolves address = unresolvable →
  ∃ addresses : gset string,
    reports_of NODE_ADDRESSES_UNRESOLVABLE
      (completed_create resolves cluster_name node_list transport force_unresolvable)
    = [ mkReport (if force_unresolvable then WARNING else ERROR)
          (if force_unresolvable then None
           else Some FORCE_NODE_ADDRESSES_UNRESOLVABLE)
          (NodeAddressesUnresolvable addresses) ]
    ∧ ∀ a, a ∈ addresses
           ↔ a ∈ all_addrs node_list
             ∧ classify resolves a = unresolvable.
Proof.
  intros Hin Htype.
  set (st := completed_state resolves cluster_name node_list transport).
  exists (unresolvable_addresses st). split.
  - rewrite reports_of_create. cbv zeta.
    rewrite (reports_of_codes_in _ _ _
               (final_report_items_codes resolves _ _ _)) by code_absent.
    rewrite (reports_of_codes_in _ _ _ (name_duplication_reports_codes _))
      by code_absent.
    rewrite (reports_of_codes_in _ _ _ (address_duplication_reports_codes _))
      by code_absent.
    rewrite (reports_of_codes_in _ _ _ (ip_mismatch_reports_codes _))
      by code_absent.
    fold st. unfold unresolvable_reports. rewrite bool_decide_eq_true_2.
    + by destruct force_unresolvable.
    + intros Hempty.
      assert (Hmem : address ∈ unresolvable_addresses st)
        by by apply elem_of_unresolvable_addresses.
      rewrite Hempty in Hmem. by apply not_elem_of_empty in Hmem.
  - intros a. apply elem_of_unresolvable_addresses.
Qed.

End create_unresolvable_facts.


(** ** Completed runs of [create]: node names *)

Section filter_count_facts.
Context {A : Type} (P : A → Prop) `{!∀ x, Decision (P x)}.

(** Two positions of a list that satisfy [P] are counted twice. *)
Lemma filter_length_two_positions (l : list A) i j x y :
  i < j → l !! i = Some x → l !! j = Some y → P x → P y →
  2 ≤ length (filter P l).
Proof.
  intros Hij Hi Hj Hx Hy.
  destruct (list_elem_of_split_length l i x Hi) as (l1 & l2 & -> & ->).
  rewrite lookup_app_r in Hj by lia.
  replace (j - length l1) with (S (j - length l1 - 1)) in Hj by lia.
  cbn in Hj. apply list_elem_of_lookup_2 in Hj.
  rewrite filter_app, filter_cons_True, length_app by done. cbn.
  assert (0 < length (filter P l2)); [|lia].
  assert (Hy' : y ∈ filter P l2) by by apply list_elem_of_filter.
  destruct (filter P l2); [by apply elem_of_nil in Hy'|cbn; lia].
Qed.

End filter_count_facts.

(** Where the images of the items are all different, at most one item
    has a given image. *)
Lemma filter_length_NoDup_fmap {A B} `{!EqDecision B} (f : A → B) (l : list A) y :
  NoDup (f <$> l) → length (filter (λ x, f x = y) l) ≤ 1.
Proof.
  induction l as [|x l IH]; [cbn; lia|].
  rewrite fmap_cons. intros [Hx Hl]%NoDup_cons. rewrite filter_cons.
  destruct (decide (f x = y)) as [<-|Hne]; [|by apply IH].
  cbn. destruct (filter (λ x0, f x0 = f x) l) as [|z k] eqn:Hfilter; [done|].
  exfalso. apply Hx.
  assert (Hz : z ∈ filter (λ x0, f x0 = f x) l)
    by (rewrite Hfilter; apply list_elem_of_here).
  apply list_elem_of_filter in Hz as [<- Hz]. by apply list_elem_of_fmap_2.
Qed.

Section create_name_facts.
Context `{!Collaborators}.
Variable resolves : string → bool.
Import config_validators.

Lemma lookup_count_incr k counts n :
  default 0 (count_incr k counts !! n)
  = default 0 (counts !! n) + (if decide (k = n) then 1 else 0).
Proof.
  unfold count_incr. destruct (decide (k = n)) as [->|Hne].
  - rewrite lookup_insert_eq. cbn. lia.
  - rewrite lookup_insert_ne by done. lia.
Qed.

(** The count a non-empty name has reached when the node loop is over. *)
Lemma names_count_loop counts node_list n :
  n ≠ "" →
  default 0 (foldl names_count_step counts node_list !! n)
  = default 0 (counts !! n) + name_count n node_list.
Proof.
  intros Hn. unfold name_count. revert counts.
  induction node_list as [|node rest IH]; intros counts; [cbn; lia|].
  cbn [foldl]. rewrite IH, filter_cons. unfold names_count_step.
  destruct (name node) as [m|] eqn:Hname.
  - destruct (decide (m = "")) as [->|Hm].
    + rewrite bool_decide_eq_true_2 by done.
      rewrite decide_False by congruence. lia.
    + rewrite bool_decide_eq_false_2 by done. rewrite lookup_count_incr.
      destruct (decide (m = n)) as [->|Hne].
      * rewrite decide_True by done. cbn. lia.
      * rewrite decide_False by congruence. lia.
  - rewrite decide_False by done. lia.
Qed.

(** The empty name is never counted. *)
Lemma names_count_loop_empty counts node_list :
  foldl names_count_step counts node_list !! "" = counts !! "".
Proof.
  revert counts. induction node_list as [|node rest IH]; intros counts; [done|].
  cbn [foldl]. rewrite IH. unfold names_count_step.
  destruct (name node) as [m|]; [|done].
  destruct (decide (m = "")) as [->|Hm].
  - by rewrite bool_decide_eq_true_2.
  - rewrite bool_decide_eq_false_2 by done. unfold count_incr.
    by rewrite lookup_insert_ne.
Qed.

Lemma elem_of_non_unique_names st n :
  n ∈ non_unique_names st ↔ 1 < default 0 (all_names_count st !! n).
Proof.
  unfold non_unique_names. rewrite elem_of_dom. unfold is_Some.
  setoid_rewrite map_lookup_filter_Some. cbn. split.
  - intros (c & -> & Hc). done.
  - destruct (all_names_count st !! n) as [c|]; cbn; [eauto|lia].
Qed.

(** The names [create] finds duplicated are the non-empty names that two
    or more nodes carry. *)
Lemma elem_of_final_non_unique_names cluster_name node_list transport n :
  n ∈ non_unique_names
        (completed_state resolves cluster_name node_list transport)
  ↔ n ≠ "" ∧ 2 ≤ name_count n node_list.
Proof.
  rewrite elem_of_non_unique_names. unfold completed_state.
  rewrite node_loop_all_names_count. cbn [initial_state all_names_count].
  destruct (decide (n = "")) as [->|Hn].
  - rewrite names_count_loop_empty, lookup_empty. cbn. split; [lia|].
    by intros [? _].
  - rewrite names_count_loop, lookup_empty by done. cbn. split; [|lia].
    intros. split; [done|lia].
Qed.

Lemma final_all_names_usable cluster_name node_list transport :
  all_names_usable
    (completed_state resolves cluster_name node_list transport)
  = forallb has_usable_name node_list.
Proof. unfold completed_state. by rewrite node_loop_all_names_usable. Qed.

(** Two nodes of the same name make the names unusable. *)
Lemma names_unusable_of_duplicate cluster_name node_list transport i j
    node_i node_j n :
  i ≠ j →
  node_list !! i = Some node_i → node_list !! j = Some node_j →
  name node_i = Some n → name node_j = Some n →
  names_usable (completed_state resolves cluster_name node_list transport)
  = false.
Proof.
  intros Hij Hi Hj Hni Hnj. unfold names_usable.
  destruct (decide (n = "")) as [->|Hn].
  - destruct (bool_decide _); [done|]. rewrite final_all_names_usable.
    apply not_true_is_false. intros Hall.
    apply Is_true_true_2, forallb_True in Hall.
    apply Forall_forall with (x := node_i) in Hall;
      [|by eapply list_elem_of_lookup_2].
    unfold has_usable_name in Hall. rewrite Hni in Hall. by cbn in Hall.
  - rewrite bool_decide_eq_true_2; [done|].
    assert (Hmem : n ∈ non_unique_names
      (completed_state resolves cluster_name node_list transport)).
    { apply elem_of_final_non_unique_names. split; [done|]. unfold name_count.
      destruct (decide (i < j)).
      - by eapply (filter_length_two_positions _ _ i j node_i node_j).
      - eapply (filter_length_two_positions _ _ j i node_j node_i); eauto; lia. }
    intros Hempty. rewrite Hempty in Hmem. by apply not_elem_of_empty in Hmem.
Qed.

End create_name_facts.

Section create_duplicate_names.
Context `{!Collaborators}.
Variable resolves : string → bool.
Import config_validators.

Lemma count_mismatch_built_codes transport node_list st :
  codes_in [COROSYNC_NODE_ADDRESS_COUNT_MISMATCH]
    (count_mismatch_built transport node_list st).
Proof.
  unfold count_mismatch_built. destruct (names_usable st); [|apply codes_in_nil].
  destruct (_ && _); [|apply codes_in_nil].
  apply codes_in_singleton. code_absent.
Qed.

(** No address-count-mismatch report is ever returned: every piece of the
    returned sequence has another code. *)
Lemma create_returns_no_count_mismatch cluster_name node_list transport
    force_unresolvable :
  reports_of COROSYNC_NODE_ADDRESS_COUNT_MISMATCH
    (completed_create resolves cluster_name node_list transport force_unresolvable)
  = [].
Proof.
  rewrite reports_of_create. cbv zeta.
  rewrite (reports_of_codes_in _ _ _
             (final_report_items_codes resolves _ _ _)) by code_absent.
  rewrite (reports_of_codes_in _ _ _ (unresolvable_reports_codes _ _))
    by code_absent.
  rewrite (reports_of_codes_in _ _ _ (name_duplication_reports_codes _))
    by code_absent.
  rewrite (reports_of_codes_in _ _ _ (address_duplication_reports_codes _))
    by code_absent.
  by rewrite (reports_of_codes_in _ _ _ (ip_mismatch_reports_codes _))
    by code_absent.
Qed.

(** A completed run on the duplicate-name example, and on any node list
    in which two nodes carry the same name. *)
Lemma completed_run_duplicate_node_names (cluster_name : string)
    (node_list : list Node) (transport : string) (force_unresolvable : bool) :
  ( reports_of COROSYNC_NODE_NAME_DUPLICATION
      (completed_create resolves "c1" duplicate_name_example "knet" false)
    = [reports.corosync_node_name_duplication {["n1"]}]
    ∧ reports_of COROSYNC_BAD_NODE_ADDRESSES_COUNT
        (completed_create resolves "c1" duplicate_name_example "knet" false)
      = [] )
  ∧ ∀ i j node_i node_j n,
      i ≠ j →
      node_list !! i = Some node_i → node_list !! j = Some node_j →
      name node_i = Some n → name node_j = Some n →
      names_usable
        (completed_state resolves cluster_name node_list transport)
      = false
      ∧ (completed_run resolves cluster_name node_list transport
           force_unresolvable).2 = []
      ∧ reports_of COROSYNC_NODE_ADDRESS_COUNT_MISMATCH
          (completed_create resolves cluster_name node_list transport
             force_unresolvable) = [].
Proof.
  split; [split|].
  - rewrite reports_of_create. cbv zeta.
    rewrite (reports_of_codes_in _ _ _
               (final_report_items_codes resolves _ _ _)) by code_absent.
    rewrite (reports_of_codes_in _ _ _ (unresolvable_reports_codes _ _))
      by code_absent.
    rewrite (reports_of_codes_in _ _ _ (address_duplication_reports_codes _))
      by code_absent.
    rewrite (reports_of_codes_in _ _ _ (ip_mismatch_reports_codes _))
      by code_absent.
    unfold name_duplication_reports, non_unique_names, completed_state.
    rewrite node_loop_all_names_count. by vm_compute.
  - rewrite reports_of_create. cbv zeta.
    rewrite (reports_of_codes_in _ _ _ (unresolvable_reports_codes _ _))
      by code_absent.
    rewrite (reports_of_codes_in _ _ _ (name_duplication_reports_codes _))
      by code_absent.
    rewrite (reports_of_codes_in _ _ _ (address_duplication_reports_codes _))
      by code_absent.
    rewrite (reports_of_codes_in _ _ _ (ip_mismatch_reports_codes _))
      by code_absent.
    unfold completed_state. rewrite node_loop_report_items. by vm_compute.
  - intros i j node_i node_j n Hij Hi Hj Hni Hnj.
    assert (Hunusable := names_unusable_of_duplicate resolves cluster_name
                           node_list transport i j node_i node_j n Hij Hi Hj Hni Hnj).
    split; [done|]. split; [|apply create_returns_no_count_mismatch].
    unfold completed_run. cbn [snd]. unfold count_mismatch_built.
    fold (completed_state resolves cluster_name node_list transport).
    by rewrite Hunusable.
Qed.

End create_duplicate_names.


(** ** Completed runs of [create]: the cross-node address-count check *)

Section create_count_mismatch.
Context `{!Collaborators}.
Variable resolves : string → bool.
Import config_validators.

Lemma has_usable_name_Some node :
  has_usable_name node = true → ∃ n, name node = Some n ∧ n ≠ "".
Proof.
  unfold has_usable_name. destruct (name node) as [n|]; [|done].
  intros Hn. exists n. split; [done|]. intros ->. done.
Qed.

(** With usable and unique names, the names stay usable. *)
Lemma names_usable_of_unique cluster_name node_list transport :
  Forall (λ node, has_usable_name node = true) node_list →
  NoDup (name <$> node_list) →
  names_usable (completed_state resolves cluster_name node_list transport)
  = true.
Proof.
  intros Hnames Hunique. unfold names_usable.
  rewrite bool_decide_eq_false_2.
  - rewrite final_all_names_usable. apply Is_true_true_1, forallb_True.
    eapply Forall_impl; [exact Hnames|]. intros node ->. done.
  - intros Hne. apply Hne. apply elem_of_equiv_empty_L. intros n Hn.
    apply elem_of_final_non_unique_names in Hn as [_ Hcount].
    pose proof (filter_length_NoDup_fmap name node_list (Some n) Hunique).
    unfold name_count in Hcount. lia.
Qed.

Lemma node_addr_count_step_other (counts : gmap string nat) node_list n :
  Some n ∉ name <$> node_list →
  foldl (λ m node,
           match name node with
           | Some n => <[n := length (default [] (addrs node))]> m
           | None => m
           end) counts node_list !! n
  = counts !! n.
Proof.
  revert counts. induction node_list as [|node rest IH]; intros counts Hn;
    [done|].
  rewrite fmap_cons in Hn. apply not_elem_of_cons in Hn as [Hnode Hrest].
  cbn [foldl]. rewrite IH by done.
  destruct (name node) as [m|]; [|done].
  rewrite lookup_insert_ne; [done|]. congruence.
Qed.

(** With unique names, [node_addr_count] has the address count of every
    node under its name. *)
Lemma node_addr_count_lookup node_list node n :
  NoDup (name <$> node_list) → node ∈ node_list → name node = Some n →
  node_addr_count node_list !! n = Some (addr_count node).
Proof.
  unfold node_addr_count. generalize (∅ : gmap string nat).
  induction node_list as [|node0 rest IH]; intros counts Hunique Hin Hname.
  - by apply elem_of_nil in Hin.
  - rewrite fmap_cons in Hunique. apply NoDup_cons in Hunique as [Hfresh Hrest].
    cbn [foldl]. apply elem_of_cons in Hin as [<-|Hin].
    + rewrite Hname in *. rewrite node_addr_count_step_other by done.
      by rewrite lookup_insert_eq.
    + by apply IH.
Qed.

(** A completed run with usable names, a transport outside udp and
    differing address counts builds the count-mismatch report and does
    not return it. *)
Lemma completed_run_drops_count_mismatch (cluster_name : string)
    (node_list : list Node) (transport : string) (force_unresolvable : bool)
    (node_a node_b : Node) :
  Forall (λ node, has_usable_name node = true) node_list →
  NoDup (name <$> node_list) →
  transport ∉ constants.TRANSPORTS_UDP →
  node_a ∈ node_list → node_b ∈ node_list →
  addr_count node_a ≠ addr_count node_b →
  (completed_run resolves cluster_name node_list transport force_unresolvable).2
  = [reports.corosync_node_address_count_mismatch (node_addr_count node_list)]
  ∧ reports_of COROSYNC_NODE_ADDRESS_COUNT_MISMATCH
      (completed_create resolves cluster_name node_list transport force_unresolvable)
    = [].
Proof.
  intros Hnames Hunique Htransport Ha Hb Hdiffer.
  split; [|apply create_returns_no_count_mismatch].
  unfold completed_run. cbn [snd]. unfold count_mismatch_built.
  fold (completed_state resolves cluster_name node_list transport).
  rewrite names_usable_of_unique by done.
  rewrite (bool_decide_eq_true_2 _ Htransport).
  rewrite bool_decide_eq_true_2; [done|].
  destruct (has_usable_name_Some node_a) as (na & Hna & _).
  { by eapply Forall_forall in Hnames. }
  destruct (has_usable_name_Some node_b) as (nb & Hnb & _).
  { by eapply Forall_forall in Hnames. }
  pose proof (node_addr_count_lookup node_list node_a na Hunique Ha Hna) as Hla.
  pose proof (node_addr_count_lookup node_list node_b nb Hunique Hb Hnb) as Hlb.
  apply (elem_of_map_img_2 (SA := gset nat)) in Hla, Hlb.
  assert (Hsub : ({[addr_count node_a]} ∪ {[addr_count node_b]} : gset nat)
                 ⊆ map_img (node_addr_count node_list)).
  { intros c [->%elem_of_singleton | ->%elem_of_singleton]%elem_of_union; done. }
  apply subseteq_size in Hsub.
  rewrite size_union, !size_singleton in Hsub; [lia|].
  intros c ->%elem_of_singleton ?%elem_of_singleton. done.
Qed.

End create_count_mismatch.


(** ** Completed runs of [create]: repeated calls *)

Section create_repeated.
Context `{!Collaborators}.
Import config_validators.

Lemma classify_agree (g1 g2 : string → bool) a :
  (is_ipv4_address a = false → is_ipv6_address a = false → g1 a = g2 a) →
  classify g1 a = classify g2 a.
Proof.
  intros Hagree. unfold classify.
  destruct (is_ipv4_address a); [done|].
  destruct (is_ipv6_address a); [done|].
  by rewrite Hagree.
Qed.

Lemma completed_addr_loop_agree (g1 g2 : string → bool) acc addr_list :
  (∀ a, a ∈ addr_list → classify g1 a = classify g2 a) →
  foldl (completed_addr_step g1) acc addr_list = foldl (completed_addr_step g2) acc addr_list.
Proof.
  revert acc. induction addr_list as [|addr rest IH]; intros acc Hagree; [done|].
  cbn [foldl]. rewrite IH.
  - f_equal. unfold completed_addr_step. destruct acc as [[counts types] addr_types].
    rewrite (Hagree addr); [done|]. apply list_elem_of_here.
  - intros a Ha. apply Hagree. by apply list_elem_of_further.
Qed.

Lemma completed_node_loop_agree (g1 g2 : string → bool) transport i st node_list :
  (∀ a, a ∈ all_addrs node_list →
        classify g1 a = classify g2 a) →
  completed_node_loop g1 transport i st node_list = completed_node_loop g2 transport i st node_list.
Proof.
  revert i st. induction node_list as [|node rest IH]; intros i st Hagree;
    [done|].
  unfold all_addrs in Hagree. rewrite bind_cons in Hagree.
  cbn [completed_node_loop]. rewrite IH.
  - f_equal. unfold completed_node_step. rewrite (completed_addr_loop_agree g1 g2); [done|].
    intros a Ha. apply Hagree, elem_of_app. by left.
  - intros a Ha. apply Hagree, elem_of_app. by right.
Qed.

(** Completed runs agree when the same names resolve. *)
Lemma completed_create_agree (resolves1 resolves2 : string → bool)
    (cluster_name : string) (node_list : list Node) (transport : string)
    (force_unresolvable : bool) :
  (∀ a, a ∈ all_addrs node_list →
        is_ipv4_address a = false → is_ipv6_address a = false →
        resolves1 a = resolves2 a) →
  completed_create resolves1 cluster_name node_list transport force_unresolvable
  = completed_create resolves2 cluster_name node_list transport force_unresolvable.
Proof.
  intros Hagree. unfold completed_create, completed_run, completed_state.
  cbn [fst].
  rewrite (completed_node_loop_agree resolves1 resolves2); [done|].
  intros a Ha. apply classify_agree. by apply Hagree.
Qed.

End create_repeated.



(** ** The configuration tree *)

(** Induction on a tree, with the property known for every child. *)
Lemma Element_children_ind (P : Element → Prop) :
  (∀ o t a cs, Forall P cs → P (mkElement o t a cs)) → ∀ e, P e.
Proof.
  intros Hnode. fix IH 1. intros [o t a cs]. apply Hnode.
  induction cs as [|c cs IHcs]; constructor; [apply IH | exact IHcs].
Qed.

Lemma descendants_cons o t a c cs :
  descendants (mkElement o t a (c :: cs))
  = c :: descendants c ++ descendants (mkElement o t a cs).
Proof. done. Qed.

Lemma find_under_unfold parents id e :
  resource.find_under parents id e
  = if bool_decide (element_id e = Some id) then Some (mkLocated e parents)
    else
      foldr (λ c found,
               match resource.find_under (e :: parents) id c with
               | Some l => Some l
               | None => found
               end) None (children e).
Proof.
  destruct e as [o t a cs]. cbn [resource.find_under].
  unfold element_id. cbn [attrib children].
  destruct (bool_decide _); [done|].
  generalize (mkElement o t a cs :: parents). intros ps.
  induction cs as [|c cs IH]; [done|]. cbn [foldr]. by rewrite <- IH.
Qed.

(** The element found by id carries the id. *)
Lemma find_under_id parents id e found :
  resource.find_under parents id e = Some found →
  element_id (element found) = Some id.
Proof.
  revert parents. induction e as [o t a cs IH] using Element_children_ind.
  intros parents. rewrite find_under_unfold. cbn [children].
  destruct (bool_decide _) eqn:Hid.
  - intros [= <-]. by apply bool_decide_eq_true_1 in Hid.
  - clear Hid. generalize (mkElement o t a cs :: parents). intros ps.
    induction IH as [|c cs Hc _ IHcs]; [done|]. cbn [foldr].
    destruct (resource.find_under _ id c) as [l|] eqn:Hfound.
    + intros [= <-]. by eapply Hc.
    + apply IHcs.
Qed.

(** Nothing is found exactly when no element of the tree carries the id. *)
Lemma find_under_None parents id e :
  resource.find_under parents id e = None
  ↔ ∀ x, x ∈ elements e → element_id x ≠ Some id.
Proof.
  revert parents. induction e as [o t a cs IH] using Element_children_ind.
  intros parents. rewrite find_under_unfold. cbn [children]. unfold elements.
  destruct (bool_decide _) eqn:Hid.
  - apply bool_decide_eq_true_1 in Hid. split; [done|].
    intros Hall. exfalso. eapply Hall; [apply list_elem_of_here|done].
  - apply bool_decide_eq_false_1 in Hid.
    assert (Hcs : ∀ ps,
                  foldr (λ c found,
                     match resource.find_under ps id c with
                     | Some l => Some l
                     | None => found
                     end) None cs = None
                  ↔ ∀ x, x ∈ descendants (mkElement o t a cs) →
                         element_id x ≠ Some id).
    { clear Hid. intros ps.
      induction IH as [|c cs Hc _ IHcs].
      - split; [|done]. intros _ x Hx. by apply elem_of_nil in Hx.
      - cbn [foldr]. rewrite descendants_cons.
        destruct (resource.find_under ps id c) as [l|] eqn:Hfound.
        + split; [done|]. intros Hall. exfalso.
          assert (Hnone : resource.find_under ps id c = None); [|congruence].
          apply Hc. intros x Hx. apply Hall. unfold elements in Hx.
          apply elem_of_cons in Hx as [->|Hx]; [apply list_elem_of_here|].
          apply list_elem_of_further, elem_of_app. by left.
        + rewrite IHcs. pose proof (proj1 (Hc ps) Hfound) as Hnone.
          clear Hfound. rename Hnone into Hfound.
          unfold elements in Hfound. split.
          * intros Hrest x [->|[Hx|Hx]%elem_of_app]%elem_of_cons.
            -- apply Hfound, list_elem_of_here.
            -- by apply Hfound, list_elem_of_further.
            -- by apply Hrest.
          * intros Hall x Hx. apply Hall, list_elem_of_further, elem_of_app.
            by right. }
    rewrite Hcs. split.
    + intros Hall x [->|Hx]%elem_of_cons; [done|by apply Hall].
    + intros Hall x Hx. by apply Hall, list_elem_of_further.
Qed.

Lemma find_parent_None (found : Located) tag_names :
  (∀ a, a ∈ ancestors found → tag a ∉ tag_names) →
  tools.find_parent found tag_names = None.
Proof.
  unfold tools.find_parent. induction (ancestors found) as [|a l IH]; [done|].
  intros Hall. cbn [List.find]. rewrite bool_decide_eq_false_2.
  - apply IH. intros x Hx. by apply Hall, list_elem_of_further.
  - apply Hall, list_elem_of_here.
Qed.

(** ** [find_valid_resource_id] *)

Section find_valid_resource_id_facts.
Import constraint.

(** C2: the cases of [find_valid_resource_id]. If no element of the tree
    carries [id], it fails with the resource-does-not-exist report. If
    the element found for [id] is a clone or a master, [id] is returned.
    If it is not, and none of its ancestors is a clone or a master, [id]
    is returned. If its nearest clone or master ancestor is [clone]:
    with [can_repair_to_clone] the id of [clone] is returned; without it
    but with [in_clone_allowed], [id] is returned; with neither, it fails
    with the resource-is-in-clone report, or the resource-is-in-master
    report when [clone] is a master, naming [id] and the id of [clone]. *)
Theorem find_valid_resource_id_cases (cib : Element)
    (can_repair_to_clone in_clone_allowed : bool) (id : string) :
  ((∀ e, e ∈ elements cib → element_id e ≠ Some id) →
   find_valid_resource_id cib can_repair_to_clone in_clone_allowed id
   = Raised (LibraryError (reports.resource_does_not_exist id)))
  ∧ ∀ found, resource.find_by_id cib id = Some found →
      (tag (element found) ∈ resource.TAGS_CLONE →
       find_valid_resource_id cib can_repair_to_clone in_clone_allowed id
       = Returned id)
      ∧ (tag (element found) ∉ resource.TAGS_CLONE →
         (∀ a, a ∈ ancestors found → tag a ∉ resource.TAGS_CLONE) →
         find_valid_resource_id cib can_repair_to_clone in_clone_allowed id
         = Returned id)
      ∧ ∀ clone,
          tag (element found) ∉ resource.TAGS_CLONE →
          tools.find_parent found resource.TAGS_CLONE = Some clone →
          (can_repair_to_clone = false → in_clone_allowed = true →
           find_valid_resource_id cib can_repair_to_clone in_clone_allowed id
           = Returned id)
          ∧ ∀ clone_id, element_id clone = Some clone_id →
              (can_repair_to_clone = true →
               find_valid_resource_id cib can_repair_to_clone in_clone_allowed id
               = Returned clone_id)
              ∧ (can_repair_to_clone = false → in_clone_allowed = false →
                 find_valid_resource_id cib can_repair_to_clone
                   in_clone_allowed id
                 = Raised (resource_in_clone_error clone id clone_id)).
Proof.
  split.
  - intros Habsent. unfold find_valid_resource_id, resource.find_by_id.
    by rewrite (proj2 (find_under_None [] id cib) Habsent).
  - intros found Hfound.
    assert (Hid : attrib_get (element found) "id" = Returned id).
    { apply find_under_id in Hfound. unfold element_id in Hfound.
      unfold attrib_get. by rewrite Hfound. }
    unfold find_valid_resource_id. rewrite Hfound.
    split; [|split].
    + intros Hclone. by rewrite bool_decide_eq_true_2.
    + intros Hplain Hnone. rewrite bool_decide_eq_false_2 by done.
      by rewrite find_parent_None.
    + intros clone Hplain Hparent.
      rewrite bool_decide_eq_false_2 by done. rewrite Hparent. split.
      * by intros -> ->.
      * intros clone_id Hclone_id.
        assert (Hcid : attrib_get clone "id" = Returned clone_id).
        { unfold element_id in Hclone_id. unfold attrib_get.
          by rewrite Hclone_id. }
        split.
        -- by intros ->.
        -- intros -> ->. rewrite Hid, Hcid. cbn.
           unfold resource_in_clone_error. by destruct (bool_decide _).
Qed.

End find_valid_resource_id_facts.

Lemma find_valid_resource_id_cases_witness :
  constraint.find_valid_resource_id clone_example false false "R"
  = Raised (resource_in_clone_error
              (mkElement 2 "clone" [("id", "C-clone")]
                 [ mkElement 3 "primitive" [("id", "R")] [] ])
              "R" "C-clone").
Proof.
  pose proof (find_valid_resource_id_cases clone_example false false "R")
    as [_ Hcases].
  destruct (resource.find_by_id clone_example "R") as [found|] eqn:Hfind;
    [|by vm_compute in Hfind].
  destruct (Hcases found eq_refl) as (_ & _ & Hclone).
  vm_compute in Hfind. injection Hfind as <-.
  destruct (Hclone (mkElement 2 "clone" [("id", "C-clone")]
                      [ mkElement 3 "primitive" [("id", "R")] [] ]))
    as [_ Hid].
  - apply (bool_decide_unpack _). vm_compute. exact I.
  - reflexivity.
  - destruct (Hid "C-clone" eq_refl) as [_ Herror]. by apply Herror.
Defined.

(** ** [check_is_without_duplication] *)

(** Where no child of an element has a descendant of a tag, the elements
    of that tag under the element are its children of that tag. *)
Lemma findall_children (e : Element) (tag_name : string) :
  (∀ c, c ∈ children e → findall c tag_name = []) →
  findall e tag_name = filter (λ c, tag c = tag_name) (children e).
Proof.
  destruct e as [o t a cs]. cbn [children]. unfold findall.
  induction cs as [|c cs IH]; intros Hflat; [done|].
  rewrite descendants_cons, filter_cons, filter_app, (filter_cons _ c cs).
  rewrite IH by (intros x Hx; by apply Hflat, list_elem_of_further).
  rewrite (Hflat c) by apply list_elem_of_here.
  by destruct (decide (tag c = tag_name)).
Qed.

Section duplication_facts.
Context `{!ResourceSets}.
Import constraint.

Lemma elem_of_duplicit_element_list constraint_section e d :
  d ∈ duplicit_element_list constraint_section e have_duplicit_resource_sets
  ↔ d ∈ findall constraint_section (tag e)
    ∧ oid d ≠ oid e
    ∧ get_id_set_list d = get_id_set_list e.
Proof.
  unfold duplicit_element_list, have_duplicit_resource_sets.
  rewrite list_elem_of_filter, bool_decide_eq_true. split.
  - intros [[Hoid Hsets] Hd]. split; [done|]. split; [|done].
    intros Heq. by apply Hoid.
  - intros (Hd & Hoid & Hsets). split; [|done]. split; [|done].
    intros Heq. by apply Hoid.
Qed.


End duplication_facts.


(** ** The examples of the spec, run *)

(** Two link entries with linknumber 0: one duplicate-linknumber report,
    naming 0. *)
Example create_link_list_knet_two_zero :
  @config_validators.create_link_list_knet sample_collaborators
    [[("linknumber", "0")]; [("linknumber", "0")]] 7
  = [reports.corosync_link_number_duplication ["0"]].
Proof. by vm_compute. Qed.




(** Two nodes named n1 with literal addresses: the duplicate-name report
    and nothing else; no lookup is made. *)
Example create_duplicate_name_example :
  @config_validators.create sample_collaborators
    (λ _, OtherException "UnicodeError") "c1" duplicate_name_example "knet"
    false
  = Returns [reports.corosync_node_name_duplication {["n1"]}].
Proof. by vm_compute. Qed.

(** Unique names and differing address counts: nothing is returned. *)
Example create_count_mismatch_example :
  @config_validators.create sample_collaborators sample_getaddrinfo "c1"
    count_mismatch_example "knet" false
  = Returns [].
Proof. by vm_compute. Qed.

(** An IPv4 and an IPv6 address on the same link of two nodes. *)
Example create_ip_version_mismatch :
  @config_validators.create sample_collaborators sample_getaddrinfo "c1"
    [ mkNode (Some "n1") (Some ["10.0.0.1"]);
      mkNode (Some "n2") (Some ["fe80::1"]) ] "knet" false
  = Returns [reports.corosync_ip_version_mismatch_in_links [0]].
Proof. by vm_compute. Qed.

(** A host name with an empty label: the lookup raises an exception
    that is not caught, and [create] returns nothing. *)
Example create_unicode_error :
  @config_validators.create sample_collaborators sample_getaddrinfo "c1"
    unicode_error_example "knet" true
  = Propagates "UnicodeError".
Proof. by vm_compute. Qed.

(** Resource R inside clone C-clone, under the three settings. *)
Example find_valid_resource_id_repair :
  constraint.find_valid_resource_id clone_example true false "R"
  = Returned "C-clone".
Proof. by vm_compute. Qed.

Example find_valid_resource_id_allowed :
  constraint.find_valid_resource_id clone_example false true "R" = Returned "R".
Proof. by vm_compute. Qed.

Example find_valid_resource_id_refused :
  constraint.find_valid_resource_id clone_example false false "R"
  = Raised (LibraryError (reports.resource_is_in_clone "R" "C-clone")).
Proof. by vm_compute. Qed.

Example find_valid_resource_id_missing :
  constraint.find_valid_resource_id clone_example true true "X"
  = Raised (LibraryError (reports.resource_does_not_exist "X")).
Proof. by vm_compute. Qed.

(** The constraint with the set B, A and the one with A, C have no
    duplicate among the example constraints. *)
Example check_is_without_duplication_order_matters :
  @constraint.check_is_without_duplication constraints_example
    (colocation_with_set 2 "c2" ["B"; "A"])
    (@constraint.have_duplicit_resource_sets sample_resource_sets) sample_export
  = Returned ()
  ∧ @constraint.check_is_without_duplication constraints_example
      (colocation_with_set 3 "c3" ["A"; "C"])
      (@constraint.have_duplicit_resource_sets sample_resource_sets)
      sample_export
    = Returned ().
Proof. by vm_compute. Qed.

(** An unrecognized quorum device model, forced and not forced. *)
Example add_quorum_device_unknown_model :
  @config_validators.add_quorum_device sample_collaborators
    "disk" [] [] [] [] false false
  = [mkReport ERROR (Some FORCE_QDEVICE_MODEL)
       (InvalidOptionValue "model" "disk" (AllowedValues ["net"]))]
  ∧ @config_validators.add_quorum_device sample_collaborators
      "disk" [] [] [] [] true false
    = [mkReport WARNING None
         (InvalidOptionValue "model" "disk" (AllowedValues ["net"]))]
  ∧ @config_validators.update_quorum_device sample_collaborators
      "disk" [] [] [] [] false
    = [].
Proof. by vm_compute. Qed.

(** * Further properties *)

(** ** Reports that cannot be overridden *)

Section strict_validators.
Context `{!Collaborators}.

Lemma _if_option_exists_strict option_name v :
  strict_validator v → strict_validator (validate._if_option_exists option_name v).
Proof.
  intros Hv options. unfold validate._if_option_exists.
  destruct (dict_mem _ _); [apply Hv | constructor].
Qed.

Lemma value_cond_strict option_name predicate value_type name_for_report :
  strict_validator
    (validate.value_cond option_name predicate value_type name_for_report
       validate.not_forceable).
Proof.
  apply _if_option_exists_strict. intros options.
  destruct (dict_get options option_name) as [value|]; [|constructor].
  destruct (predicate value); repeat constructor.
Qed.

Lemma is_required_strict option_name option_type :
  strict_validator (validate.is_required option_name option_type).
Proof.
  intros options. unfold validate.is_required.
  destruct (dict_mem _ _); repeat constructor.
Qed.

Lemma depends_on_option_strict option_name prerequisite :
  strict_validator (validate.depends_on_option option_name prerequisite).
Proof.
  intros options. unfold validate.depends_on_option.
  destruct (_ && _); repeat constructor.
Qed.

Lemma value_empty_or_valid_strict option_name inner :
  strict_validator inner →
  strict_validator (validate.value_empty_or_valid option_name inner).
Proof.
  intros Hinner. apply _if_option_exists_strict. intros options.
  destruct (dict_get options option_name) as [value|]; [|constructor].
  destruct (validate.is_empty_string value); [constructor | apply Hinner].
Qed.

Lemma names_in_strict allowed names option_type patterns :
  Forall plain_error
    (validate.names_in allowed names option_type validate.not_forceable patterns).
Proof.
  unfold validate.names_in. destruct (filter _ names); repeat constructor.
Qed.

Lemma run_collection_strict options validators :
  Forall strict_validator validators →
  Forall plain_error
    (validate.run_collection_of_option_validators options validators).
Proof.
  unfold validate.run_collection_of_option_validators.
  induction 1 as [|v vs Hv _ IH]; simpl; [constructor|].
  apply Forall_app. split; [apply Hv | apply IH].
Qed.

End strict_validators.

Ltac strict_validators :=
  repeat first
    [ apply Forall_nil_2
    | apply Forall_cons_2
    | apply value_empty_or_valid_strict
    | apply is_required_strict
    | apply depends_on_option_strict
    | apply value_cond_strict ].

(** ** [create_link_list_knet], entry by entry *)

Section link_list_more.
Context `{!Collaborators}.
Import config_validators.

Lemma knet_link_loop_entries max_link_number acc link_list :
  (foldl (knet_link_step max_link_number) acc link_list).1
  = acc.1 ++ (link_list ≫= knet_link_entry_reports max_link_number).
Proof.
  revert acc. induction link_list as [|options rest IH]; intros acc.
  - cbn. by rewrite app_nil_r.
  - cbn [foldl]. rewrite IH, bind_cons. unfold knet_link_step.
    cbn [fst]. unfold knet_link_entry_reports. by rewrite <- !app_assoc.
Qed.

(** [create_link_list_knet], piece by piece. *)
Lemma create_link_list_knet_pieces
    (link_list : list validate.option_dict) (max_link_number : Z) :
  create_link_list_knet link_list max_link_number
  = (link_list
       ≫= knet_link_entry_reports (knet_link_number_bound max_link_number))
    ++ match duplicated_linknumbers link_list with
       | [] => []
       | numbers => [reports.corosync_link_number_duplication numbers]
       end
    ++ (if constants.LINKS_KNET_MAX <? length link_list
        then [reports.corosync_too_many_links (length link_list)
                constants.LINKS_KNET_MAX "knet"]
        else []).
Proof.
  destruct link_list as [|first rest]; [done|].
  unfold create_link_list_knet. cbv zeta.
  rewrite knet_link_loop_entries, knet_link_loop_used. cbn [fst snd app].
  unfold duplicated_linknumbers, knet_link_number_bound.
  by destruct ((filter _ _).*1).
Qed.

(** The sequence [create_link_list_knet] returns is made of the reports
    of every entry, in the order of the entries, then the
    duplicate-linknumber report if some linknumber is carried by more
    than one entry, then the too-many-links report if there are more than
    eight entries. The empty link list fits the same description. *)
Theorem create_link_list_knet_decomposition
    (link_list : list validate.option_dict) (max_link_number : Z) :
  create_link_list_knet link_list max_link_number
  = (link_list
       ≫= knet_link_entry_reports (knet_link_number_bound max_link_number))
    ++ match duplicated_linknumbers link_list with
       | [] => []
       | numbers => [reports.corosync_link_number_duplication numbers]
       end
    ++ (if constants.LINKS_KNET_MAX <? length link_list
        then [reports.corosync_too_many_links (length link_list)
                constants.LINKS_KNET_MAX "knet"]
        else []).
Proof. apply create_link_list_knet_pieces. Qed.

(** A link number bound above seven counts as seven, and one below zero
    as zero. *)
Theorem create_link_list_knet_bound_clamped
    (link_list : list validate.option_dict) (max_link_number : Z) :
  ((7 ≤ max_link_number)%Z →
   create_link_list_knet link_list max_link_number
   = create_link_list_knet link_list 7)
  ∧ ((max_link_number ≤ 0)%Z →
     create_link_list_knet link_list max_link_number
     = create_link_list_knet link_list 0).
Proof.
  rewrite !create_link_list_knet_pieces. unfold knet_link_number_bound.
  split; intros Hbound; do 3 f_equal; unfold constants.LINKS_KNET_MAX; lia.
Qed.

(** The too-many-links report is there exactly when the link list has
    more than eight entries; it is then the last report and gives the
    number of entries. *)
Theorem create_link_list_knet_too_many_links
    (link_list : list validate.option_dict) (max_link_number : Z) :
  reports_of COROSYNC_TOO_MANY_LINKS
    (create_link_list_knet link_list max_link_number)
  = (if decide (8 < length link_list)
     then [reports.corosync_too_many_links (length link_list) 8 "knet"]
     else [])
  ∧ (8 < length link_list →
     last (create_link_list_knet link_list max_link_number)
     = Some (reports.corosync_too_many_links (length link_list) 8 "knet")).
Proof.
  rewrite create_link_list_knet_pieces.
  assert (Hltb : (constants.LINKS_KNET_MAX <? length link_list)
                 = bool_decide (8 < length link_list)).
  { unfold constants.LINKS_KNET_MAX.
    destruct (Nat.ltb_spec 8 (length link_list)).
    - by rewrite bool_decide_eq_true_2.
    - rewrite bool_decide_eq_false_2; [done|lia]. }
  rewrite Hltb. split.
  - rewrite !reports_of_app.
    rewrite (reports_of_codes_in _ option_codes).
    + destruct (duplicated_linknumbers link_list); cbn [app];
        rewrite ?reports_of_singleton; cbn;
        destruct (decide (8 < length link_list));
        [rewrite bool_decide_eq_true_2 by done
        |rewrite bool_decide_eq_false_2 by done
        |rewrite bool_decide_eq_true_2 by done
        |rewrite bool_decide_eq_false_2 by done]; done.
    + apply Forall_forall. intros r Hr.
      apply list_elem_of_bind in Hr as (options & Hr & _).
      revert r Hr. apply Forall_forall. unfold knet_link_entry_reports.
      apply codes_in_app; [|apply names_in_codes].
      apply run_collection_codes, knet_link_validators_codes.
    + code_absent.
  - intros Hmany. rewrite bool_decide_eq_true_2 by done.
    rewrite !app_assoc. apply last_snoc.
Qed.

End link_list_more.

Lemma create_link_list_knet_bound_clamped_witness :
  @config_validators.create_link_list_knet sample_collaborators
    [[("linknumber", "7")]; [("linknumber", "8")]] 100
  = @config_validators.create_link_list_knet sample_collaborators
      [[("linknumber", "7")]; [("linknumber", "8")]] 7.
Proof.
  apply (@create_link_list_knet_bound_clamped sample_collaborators
           [[("linknumber", "7")]; [("linknumber", "8")]] 100).
  lia.
Defined.

Lemma create_link_list_knet_too_many_links_witness :
  last (@config_validators.create_link_list_knet sample_collaborators
          (replicate 9 []) 7)
  = Some (reports.corosync_too_many_links (length (replicate 9 ([] : list (string * string)))) 8 "knet").
Proof.
  apply (@create_link_list_knet_too_many_links sample_collaborators
           (replicate 9 []) 7).
  vm_compute. lia.
Defined.

(** ** Validators without override *)

Section not_forceable.
Context `{!Collaborators}.
Variable QUORUM_OPTIONS : list string.
Variable QUORUM_OPTIONS_INCOMPATIBLE_WITH_QDEVICE : list string.
Import config_validators.

Lemma any_plain_error_inl (l : list ReportItem) :
  Forall plain_error l → Forall any_plain_error (inl <$> l).
Proof. intros Hl. apply Forall_fmap. by eapply Forall_impl. Qed.

Lemma knet_link_entry_reports_strict max_link_number options :
  Forall plain_error (knet_link_entry_reports max_link_number options).
Proof.
  apply Forall_app. split; [|apply names_in_strict].
  apply run_collection_strict. unfold knet_link_validators. strict_validators.
Qed.

Lemma quorum_options_validators_strict allow_empty_values :
  Forall strict_validator (_get_quorum_options_validators allow_empty_values).
Proof.
  unfold _get_quorum_options_validators.
  destruct allow_empty_values; cbn; strict_validators.
Qed.

Lemma _validate_quorum_options_strict options has_qdevice allow_empty_values :
  Forall any_plain_error
    (_validate_quorum_options QUORUM_OPTIONS
       QUORUM_OPTIONS_INCOMPATIBLE_WITH_QDEVICE options has_qdevice
       allow_empty_values).
Proof.
  unfold _validate_quorum_options. cbv zeta.
  assert (Hitems : Forall any_plain_error
    (inl <$> (validate.run_collection_of_option_validators options
                (_get_quorum_options_validators allow_empty_values)
              ++ validate.names_in QUORUM_OPTIONS (dict_keys options) "quorum"
                   validate.not_forceable []) : list (ReportItem + MoreReport))).
  { apply any_plain_error_inl, Forall_app. split; [|apply names_in_strict].
    apply run_collection_strict, quorum_options_validators_strict. }
  destruct has_qdevice; [|done].
  destruct (filter _ _); [done|].
  apply Forall_app. split; [done|]. by repeat constructor.
Qed.

(** The validators of link lists, transport options, totem options and
    quorum options have no override: every report they return is an
    ERROR without a force code. *)
Theorem corosync_validators_not_forceable
    (options compression_options crypto_options : validate.option_dict)
    (link_list : list validate.option_dict) (max_link_number : Z)
    (has_qdevice : bool) :
  Forall plain_error (create_transport_udp options)
  ∧ Forall plain_error
      (create_transport_knet options compression_options crypto_options)
  ∧ Forall plain_error (create_totem options)
  ∧ Forall plain_error (create_link_list_knet link_list max_link_number)
  ∧ Forall any_plain_error (create_link_list_udp link_list)
  ∧ Forall any_plain_error
      (create_quorum_options QUORUM_OPTIONS
         QUORUM_OPTIONS_INCOMPATIBLE_WITH_QDEVICE options has_qdevice)
  ∧ Forall any_plain_error
      (update_quorum_options QUORUM_OPTIONS
         QUORUM_OPTIONS_INCOMPATIBLE_WITH_QDEVICE options has_qdevice).
Proof.
  repeat split.
  - apply Forall_app. split; [|apply names_in_strict].
    apply run_collection_strict. strict_validators.
  - unfold create_transport_knet. cbv zeta.
    assert (Hitems : ∀ o1 v1 a1 t1 o2 v2 a2 t2 o3 v3 a3 t3,
      Forall strict_validator v1 → Forall strict_validator v2 →
      Forall strict_validator v3 →
      Forall plain_error
        (validate.run_collection_of_option_validators o1 v1
         ++ validate.names_in a1 (dict_keys o1) t1 validate.not_forceable []
         ++ validate.run_collection_of_option_validators o2 v2
         ++ validate.names_in a2 (dict_keys o2) t2 validate.not_forceable []
         ++ validate.run_collection_of_option_validators o3 v3
         ++ validate.names_in a3 (dict_keys o3) t3 validate.not_forceable [])).
    { intros. repeat (apply Forall_app; split);
        first [by apply run_collection_strict | apply names_in_strict]. }
    destruct (_ && _).
    + apply Forall_app. split; [|by repeat constructor].
      apply Hitems; strict_validators.
    + apply Hitems; strict_validators.
  - apply Forall_app. split; [|apply names_in_strict].
    apply run_collection_strict. strict_validators.
  - rewrite create_link_list_knet_pieces.
    apply Forall_app. split; [|apply Forall_app; split].
    + apply Forall_forall. intros r (o & Hr & _)%list_elem_of_bind.
      revert r Hr. apply Forall_forall, knet_link_entry_reports_strict.
    + destruct (duplicated_linknumbers link_list); by repeat constructor.
    + destruct (_ <? _); by repeat constructor.
  - unfold create_link_list_udp. destruct link_list as [|first rest]; [done|].
    cbv zeta.
    assert (Hitems : Forall any_plain_error
      (inl <$> (validate.run_collection_of_option_validators first
                  udp_link_validators
                ++ validate.names_in udp_link_allowed_options (dict_keys first)
                     "link" validate.not_forceable [])
       : list (ReportItem + MoreReport))).
    { apply any_plain_error_inl, Forall_app. split; [|apply names_in_strict].
      apply run_collection_strict. unfold udp_link_validators,
        validate.value_ip_address. strict_validators. }
    destruct (_ && _), (_ <? _);
      repeat (apply Forall_app; split); try done; by repeat constructor.
  - unfold create_quorum_options. cbv zeta.
    apply Forall_app. split; [apply _validate_quorum_options_strict|].
    apply any_plain_error_inl, run_collection_strict. strict_validators.
  - apply _validate_quorum_options_strict.
Qed.

End not_forceable.

(** ** [create_link_list_udp] *)

Section link_list_udp_facts.
Context `{!Collaborators}.
Import config_validators.

Lemma dict_mem_is_Some {V} k (d : dict V) :
  dict_mem k d = true ↔ is_Some (dict_get d k).
Proof.
  unfold dict_mem. destruct (dict_get d k); split; done.
Qed.

(** Only the options of the first link are validated: the links after it
    count for the too-many-links report and for nothing else. *)
Theorem create_link_list_udp_first_link_only
    (options : validate.option_dict) (rest : list validate.option_dict) :
  create_link_list_udp (options :: rest)
  = create_link_list_udp [options]
    ++ match rest with
       | [] => []
       | _ => [inl (reports.corosync_too_many_links (S (length rest)) 1
                      "udp/udpu")]
       end.
Proof.
  unfold create_link_list_udp. cbv zeta. cbn [length].
  unfold constants.LINKS_UDP_MAX.
  destruct rest as [|second rest]; [by rewrite app_nil_r|].
  cbn [length Nat.ltb Nat.leb]. done.
Qed.

(** The broadcast report is there exactly when the first link sets
    ["broadcast"] to ["1"] and has the key ["mcastaddr"], whatever the
    value of ["mcastaddr"] is. *)
Theorem create_link_list_udp_broadcast_mcastaddr
    (link_list : list validate.option_dict) (options : validate.option_dict) :
  head link_list = Some options →
  inr more_reports.corosync_enabled_broadcast_disallows_mcastaddr
    ∈ create_link_list_udp link_list
  ↔ dict_get options "broadcast" = Some "1"
    ∧ is_Some (dict_get options "mcastaddr").
Proof.
  destruct link_list as [|first rest]; [done|]. intros [= ->].
  unfold create_link_list_udp. cbv zeta.
  set (items := inl <$> _).
  assert (Hitems : inr more_reports.corosync_enabled_broadcast_disallows_mcastaddr
                   ∉ (items : list (ReportItem + MoreReport))).
  { unfold items. intros (r & Hr & _)%list_elem_of_fmap. discriminate. }
  assert (Hcond :
    bool_decide (default "0" (dict_get options "broadcast") = "1")
    && dict_mem "mcastaddr" options = true
    ↔ dict_get options "broadcast" = Some "1"
      ∧ is_Some (dict_get options "mcastaddr")).
  { rewrite andb_true_iff, bool_decide_eq_true, dict_mem_is_Some.
    destruct (dict_get options "broadcast") as [b|]; cbn; split;
      intros [Hb Hm]; (split; [congruence || done|done]). }
  destruct (bool_decide _ && dict_mem _ _) eqn:Hb.
  - split; [intros _; by apply Hcond|]. intros _.
    destruct (_ <? _); rewrite ?elem_of_app;
      [left; right|right]; apply list_elem_of_singleton; done.
  - split; [|intros Hc; apply Hcond in Hc; congruence].
    intros Hin. exfalso. destruct (_ <? _); [|done].
    apply elem_of_app in Hin as [Hin|Hin%list_elem_of_singleton]; [done|].
    discriminate.
Qed.

End link_list_udp_facts.

Lemma create_link_list_udp_broadcast_mcastaddr_witness :
  inr more_reports.corosync_enabled_broadcast_disallows_mcastaddr
    ∈ @config_validators.create_link_list_udp sample_collaborators
        [[("broadcast", "1"); ("mcastaddr", "")]]
  ↔ dict_get [("broadcast", "1"); ("mcastaddr", "")] "broadcast" = Some "1"
    ∧ is_Some (dict_get [("broadcast", "1"); ("mcastaddr", "")] "mcastaddr").
Proof.
  apply (@create_link_list_udp_broadcast_mcastaddr sample_collaborators
           [[("broadcast", "1"); ("mcastaddr", "")]]
           [("broadcast", "1"); ("mcastaddr", "")]).
  reflexivity.
Defined.

(** ** Quorum options *)

Section quorum_options_facts.
Context `{!Collaborators}.
Variable QUORUM_OPTIONS : list string.
Variable QUORUM_OPTIONS_INCOMPATIBLE_WITH_QDEVICE : list string.
Import config_validators.

Lemma not_inr_elem_of_inl (m : MoreReport) (l : list ReportItem) :
  inr m ∉ (inl <$> l : list (ReportItem + MoreReport)).
Proof. intros (r & Hr & _)%list_elem_of_fmap. discriminate. Qed.

Lemma inl_elem_of_inl (r : ReportItem) (l : list ReportItem) :
  inl r ∈ (inl <$> l : list (ReportItem + MoreReport)) ↔ r ∈ l.
Proof.
  rewrite list_elem_of_fmap. split.
  - by intros (r' & [= ->] & Hr).
  - intros Hr. by exists r.
Qed.

Lemma _validate_quorum_options_incompatible options has_qdevice
    allow_empty_values (m : MoreReport) :
  inr m ∈ _validate_quorum_options QUORUM_OPTIONS
      QUORUM_OPTIONS_INCOMPATIBLE_WITH_QDEVICE options has_qdevice allow_empty_values
  ↔ has_qdevice = true
    ∧ filter (λ option_name,
                option_name ∈ QUORUM_OPTIONS_INCOMPATIBLE_WITH_QDEVICE)
        (dict_keys options) ≠ []
    ∧ m = more_reports.corosync_options_incompatible_with_qdevice
            (filter (λ option_name,
                       option_name ∈ QUORUM_OPTIONS_INCOMPATIBLE_WITH_QDEVICE)
               (dict_keys options)).
Proof.
  unfold _validate_quorum_options. cbv zeta.
  destruct has_qdevice.
  - destruct (filter _ (dict_keys options)) as [|n ns] eqn:Hfilter.
    + split; [|by intros (_ & ? & _)].
      intros Hin. by apply not_inr_elem_of_inl in Hin.
    + rewrite elem_of_app, list_elem_of_singleton. split.
      * intros [Hin| [= ->]]; [by apply not_inr_elem_of_inl in Hin|done].
      * intros (_ & _ & ->). by right.
  - split; [|by intros [? _]].
    intros Hin. by apply not_inr_elem_of_inl in Hin.
Qed.

(** Options incompatible with a quorum device. Without a quorum device
    neither [create_quorum_options] nor [update_quorum_options] returns
    the incompatible-options report. With one, they return it exactly
    when some given option is in the incompatible set, and it lists those
    options in the order they are given. *)
Theorem quorum_options_incompatible_with_qdevice
    (options : validate.option_dict) (has_qdevice : bool) (m : MoreReport) :
  let incompatible :=
    filter (λ option_name,
              option_name ∈ QUORUM_OPTIONS_INCOMPATIBLE_WITH_QDEVICE)
      (dict_keys options) in
  (inr m ∈ create_quorum_options QUORUM_OPTIONS
      QUORUM_OPTIONS_INCOMPATIBLE_WITH_QDEVICE options has_qdevice
   ↔ has_qdevice = true ∧ incompatible ≠ []
     ∧ m = more_reports.corosync_options_incompatible_with_qdevice incompatible)
  ∧ (inr m ∈ update_quorum_options QUORUM_OPTIONS
      QUORUM_OPTIONS_INCOMPATIBLE_WITH_QDEVICE options has_qdevice
     ↔ has_qdevice = true ∧ incompatible ≠ []
       ∧ m = more_reports.corosync_options_incompatible_with_qdevice
               incompatible).
Proof.
  cbv zeta. split; [|apply _validate_quorum_options_incompatible].
  unfold create_quorum_options. cbv zeta.
  rewrite elem_of_app, _validate_quorum_options_incompatible. split.
  - intros [Hin|Hin]; [done|]. by apply not_inr_elem_of_inl in Hin.
  - by left.
Qed.

Lemma quorum_validators_codes allow_empty_values :
  Forall option_validator (_get_quorum_options_validators allow_empty_values).
Proof.
  unfold _get_quorum_options_validators.
  destruct allow_empty_values; cbn; eauto 20 with codes.
Qed.

Lemma value_cond_no_prerequisite option_name predicate value_type name f options :
  codes_in [INVALID_OPTION_VALUE]
    (validate.value_cond option_name predicate value_type name f options).
Proof.
  unfold validate.value_cond, validate._if_option_exists.
  destruct (dict_mem _ _); [|apply codes_in_nil].
  destruct (dict_get options option_name) as [value|]; [|apply codes_in_nil].
  destruct (predicate value); [apply codes_in_nil|].
  apply codes_in_singleton.
  rewrite (code_get_problem_creator _ _ _ INVALID_OPTION_VALUE); [|done].
  code_absent.
Qed.

Lemma value_empty_or_valid_value_cond_codes option_name n predicate value_type
    name f options :
  codes_in [INVALID_OPTION_VALUE]
    (validate.value_empty_or_valid option_name
       (validate.value_cond n predicate value_type name f) options).
Proof.
  unfold validate.value_empty_or_valid, validate._if_option_exists.
  destruct (dict_mem _ _); [|apply codes_in_nil].
  destruct (dict_get options option_name) as [value|]; [|apply codes_in_nil].
  destruct (validate.is_empty_string value); [apply codes_in_nil|].
  apply value_cond_no_prerequisite.
Qed.

Lemma _validate_quorum_options_no_prerequisite options has_qdevice
    allow_empty_values r :
  inl r ∈ _validate_quorum_options QUORUM_OPTIONS
      QUORUM_OPTIONS_INCOMPATIBLE_WITH_QDEVICE options has_qdevice allow_empty_values →
  code r ≠ PREREQUISITE_OPTION_IS_MISSING.
Proof.
  unfold _validate_quorum_options. cbv zeta.
  intros Hin.
  assert (Hitems : r ∈ validate.run_collection_of_option_validators options
                         (_get_quorum_options_validators allow_empty_values)
                       ++ validate.names_in QUORUM_OPTIONS (dict_keys options)
                            "quorum" validate.not_forceable []).
  { destruct has_qdevice; [|by apply inl_elem_of_inl].
    destruct (filter _ _); [by apply inl_elem_of_inl|].
    apply elem_of_app in Hin as [Hin|Hin%list_elem_of_singleton];
      [by apply inl_elem_of_inl|discriminate]. }
  clear Hin. revert r Hitems. apply Forall_forall.
  eapply Forall_impl with (P := λ r, code r ∈ [INVALID_OPTION_VALUE; INVALID_OPTIONS]).
  - apply Forall_app. split.
    + unfold _get_quorum_options_validators,
        validate.run_collection_of_option_validators.
      destruct allow_empty_values; cbn;
        repeat (apply Forall_app; split); try apply Forall_nil_2;
        (eapply codes_in_mono;
           [|first [apply value_cond_no_prerequisite
                   |apply value_empty_or_valid_value_cond_codes]]);
        code_absent.
    + unfold validate.names_in. destruct (filter _ _); repeat constructor.
  - intros r Hr Hcode. rewrite Hcode in Hr.
    revert Hr. code_absent.
Qed.

(** The dependency of [last_man_standing_window] on [last_man_standing]
    is checked when quorum options are created and not when they are
    updated. [create_quorum_options] returns the prerequisite report
    exactly when ["last_man_standing_window"] is given and
    ["last_man_standing"] is not, as its last report;
    [update_quorum_options] returns no report of that code. *)
Theorem quorum_options_dependency (options : validate.option_dict)
    (has_qdevice : bool) :
  (reports.prerequisite_option_is_missing "last_man_standing_window"
     "last_man_standing"
   ∈ omap (λ r, match r with inl r => Some r | inr _ => None end)
       (create_quorum_options QUORUM_OPTIONS
      QUORUM_OPTIONS_INCOMPATIBLE_WITH_QDEVICE options has_qdevice)
   ↔ is_Some (dict_get options "last_man_standing_window")
     ∧ dict_get options "last_man_standing" = None)
  ∧ (is_Some (dict_get options "last_man_standing_window") →
     dict_get options "last_man_standing" = None →
     last (create_quorum_options QUORUM_OPTIONS
      QUORUM_OPTIONS_INCOMPATIBLE_WITH_QDEVICE options has_qdevice)
     = Some (inl (reports.prerequisite_option_is_missing
                    "last_man_standing_window" "last_man_standing")))
  ∧ ∀ r, inl r ∈ update_quorum_options QUORUM_OPTIONS
      QUORUM_OPTIONS_INCOMPATIBLE_WITH_QDEVICE options has_qdevice →
         code r ≠ PREREQUISITE_OPTION_IS_MISSING.
Proof.
  assert (Hdep :
    validate.run_collection_of_option_validators options
      [validate.depends_on_option "last_man_standing_window" "last_man_standing"]
    = if bool_decide (is_Some (dict_get options "last_man_standing_window")
                      ∧ dict_get options "last_man_standing" = None)
      then [reports.prerequisite_option_is_missing "last_man_standing_window"
              "last_man_standing"]
      else []).
  { unfold validate.run_collection_of_option_validators,
      validate.depends_on_option, dict_mem. cbn [flat_map]. rewrite app_nil_r.
    destruct (dict_get options "last_man_standing_window") as [w|],
      (dict_get options "last_man_standing") as [s|];
      case_bool_decide as Hc; cbn; try done;
      first [ by destruct Hc as [[? ?] ?]
            | exfalso; apply Hc; split; [by eexists|done] ]. }
  split; [|split].
  - unfold create_quorum_options. cbv zeta.
    rewrite Hdep, omap_app, elem_of_app. split.
    + intros [Hin|Hin].
      * apply list_elem_of_omap in Hin as ([r|m] & Hin & Hr); [|done].
        injection Hr as ->.
        by apply _validate_quorum_options_no_prerequisite in Hin.
      * destruct (bool_decide _) eqn:Hb; [by apply bool_decide_eq_true_1 in Hb|].
        by apply elem_of_nil in Hin.
    + intros Hcond. right. rewrite bool_decide_eq_true_2 by done.
      apply list_elem_of_here.
  - intros Hw Hs. unfold create_quorum_options.
    cbv zeta. rewrite Hdep, bool_decide_eq_true_2 by done.
    cbn [fmap list_fmap]. apply last_snoc.
  - intros r. apply _validate_quorum_options_no_prerequisite.
Qed.

Lemma dict_get_all_empty (options : validate.option_dict) k :
  Forall (λ kv, kv.2 = "") options →
  dict_get options k = None ∨ dict_get options k = Some "".
Proof.
  induction 1 as [|[k0 v0] rest Hv _ IH]; [by left|]. cbn in *. subst.
  destruct (bool_decide (k0 = k)); [by right|done].
Qed.

(** An update that only unsets options is checked for option names only:
    when every value is empty, [update_quorum_options] returns the
    reports of the name check and, with a quorum device, the
    incompatible-options report; no value is reported. *)
Theorem update_quorum_options_unset (options : validate.option_dict)
    (has_qdevice : bool) :
  Forall (λ kv, kv.2 = "") options →
  ∀ r, inl r ∈ update_quorum_options QUORUM_OPTIONS
      QUORUM_OPTIONS_INCOMPATIBLE_WITH_QDEVICE options has_qdevice →
       r ∈ validate.names_in QUORUM_OPTIONS (dict_keys options) "quorum"
             validate.not_forceable [].
Proof.
  intros Hempty r Hin.
  unfold update_quorum_options,
    _validate_quorum_options in Hin.
  cbv zeta in Hin.
  assert (Hvalues :
    validate.run_collection_of_option_validators options
      (_get_quorum_options_validators true) = []).
  { unfold validate.run_collection_of_option_validators,
      _get_quorum_options_validators, empty_or_valid,
      validate.value_empty_or_valid, validate._if_option_exists, dict_mem.
    cbn.
    destruct (dict_get_all_empty options "auto_tie_breaker" Hempty) as [-> | ->],
      (dict_get_all_empty options "last_man_standing" Hempty) as [-> | ->],
      (dict_get_all_empty options "last_man_standing_window" Hempty)
        as [-> | ->],
      (dict_get_all_empty options "wait_for_all" Hempty) as [-> | ->];
      done. }
  rewrite Hvalues in Hin. cbn [app] in Hin.
  destruct has_qdevice; [|by apply inl_elem_of_inl].
  destruct (filter _ _); [by apply inl_elem_of_inl|].
  apply elem_of_app in Hin as [Hin|Hin%list_elem_of_singleton];
    [by apply inl_elem_of_inl|discriminate].
Qed.

End quorum_options_facts.

Lemma quorum_options_dependency_witness :
  last (@config_validators.create_quorum_options sample_collaborators
          ["last_man_standing"; "last_man_standing_window"] []
          [("last_man_standing_window", "10")] false)
  = Some (inl (reports.prerequisite_option_is_missing
                 "last_man_standing_window" "last_man_standing")).
Proof.
  apply (@quorum_options_dependency sample_collaborators
           ["last_man_standing"; "last_man_standing_window"] []
           [("last_man_standing_window", "10")] false).
  - by eexists.
  - reflexivity.
Defined.

Lemma update_quorum_options_unset_witness :
  mkReport ERROR None (InvalidOptions ["typo"] ["wait_for_all"] "quorum" [])
  ∈ @validate.names_in sample_collaborators ["wait_for_all"]
      (dict_keys [("wait_for_all", ""); ("typo", "")]) "quorum"
      validate.not_forceable [].
Proof.
  apply (@update_quorum_options_unset sample_collaborators ["wait_for_all"] []
           [("wait_for_all", ""); ("typo", "")] false).
  - by repeat constructor.
  - vm_compute. apply list_elem_of_here.
Defined.

(** ** Quorum device options *)

Section quorum_device_more.
Context `{!Collaborators}.
Import config_validators.

Lemma foldl_generic_name_step allowed acc names :
  "model" ∉ allowed →
  foldl (generic_name_step allowed) acc names
  = ( acc.1 || bool_decide ("model" ∈ names),
      acc.2 ++ filter (λ n, (n ∉ allowed) ∧ n ≠ "model") names ).
Proof.
  intros Hmodel. revert acc.
  induction names as [|n names IH]; intros [found invalid]; cbn [foldl fst snd].
  - rewrite app_nil_r. rewrite bool_decide_eq_false_2 by apply not_elem_of_nil.
    by rewrite orb_false_r.
  - rewrite IH. unfold generic_name_step. cbn [fst snd]. rewrite filter_cons.
    destruct (decide (n = "model")) as [->|Hn].
    + rewrite (bool_decide_eq_true_2 ("model" ∉ allowed)) by done.
      rewrite (bool_decide_eq_true_2 ("model" = "model")) by done.
      rewrite (bool_decide_eq_true_2 ("model" ∈ "model" :: names))
        by apply list_elem_of_here.
      rewrite decide_False by (by intros [_ ?]).
      cbn [fst snd]. by rewrite orb_true_r.
    + rewrite (bool_decide_eq_false_2 (n = "model")) by done.
      assert (Hmem : bool_decide ("model" ∈ n :: names)
                     = bool_decide ("model" ∈ names)).
      { apply bool_decide_ext. rewrite elem_of_cons. split; [|by right].
        intros [?|?]; [congruence|done]. }
      rewrite Hmem. destruct (decide (n ∈ allowed)) as [Hin|Hnin].
      * rewrite bool_decide_eq_false_2 by (by intros ?).
        rewrite decide_False by (by intros [? _]). done.
      * rewrite bool_decide_eq_true_2 by done.
        rewrite decide_True by done. cbn [fst snd]. by rewrite <- app_assoc.
Qed.

(** The two reports of [_validate_qdevice_generic_options_names]. *)
Lemma generic_options_names_reports
    (options : validate.option_dict) (force_options : bool) :
  _validate_qdevice_generic_options_names options force_options
  = (if bool_decide ("model" ∈ dict_keys options)
     then [mkReport ERROR None
             (InvalidOptions ["model"] ["sync_timeout"; "timeout"]
                "quorum device" [])]
     else [])
    ++ match filter (λ n, (n ∉ ["sync_timeout"; "timeout"]) ∧ n ≠ "model")
               (dict_keys options) with
       | [] => []
       | names =>
           [mkReport (if force_options then WARNING else ERROR)
              (if force_options then None else Some FORCE_OPTIONS)
              (InvalidOptions names ["sync_timeout"; "timeout"]
                 "quorum device" [])]
       end.
Proof.
  unfold _validate_qdevice_generic_options_names. cbv zeta.
  rewrite foldl_generic_name_step by code_absent. cbn [fst snd orb app].
  done.
Qed.

(** The name check of the generic quorum device options. The name
    ["model"] is reported on its own, as an ERROR that [force_options]
    does not turn into a warning. The other names that are neither
    ["sync_timeout"] nor ["timeout"] are listed, in the order they are
    given, in a second report, which [force_options] turns into a
    warning. *)
Theorem generic_options_names_model_not_forceable
    (options : validate.option_dict) (force_options : bool) :
  _validate_qdevice_generic_options_names options force_options
  = (if bool_decide ("model" ∈ dict_keys options)
     then [mkReport ERROR None
             (InvalidOptions ["model"] ["sync_timeout"; "timeout"]
                "quorum device" [])]
     else [])
    ++ match filter (λ n, (n ∉ ["sync_timeout"; "timeout"]) ∧ n ≠ "model")
               (dict_keys options) with
       | [] => []
       | names =>
           [mkReport (if force_options then WARNING else ERROR)
              (if force_options then None else Some FORCE_OPTIONS)
              (InvalidOptions names ["sync_timeout"; "timeout"]
                 "quorum device" [])]
       end.
Proof. apply generic_options_names_reports. Qed.

Lemma dict_get_filter_key {V} (p : string → bool) (b : bool) (d : dict V) k :
  dict_get (filter (λ kv, p kv.1 = b) d) k
  = if decide (p k = b) then dict_get d k else None.
Proof.
  induction d as [|[k0 v0] d IH].
  { rewrite filter_nil. cbn. by case_decide. }
  rewrite filter_cons. cbn [fst]. destruct (decide (p k0 = b)) as [Hk0|Hk0].
  - cbn [dict_get]. rewrite IH. destruct (decide (k0 = k)) as [->|Hne].
    + rewrite bool_decide_eq_true_2 by done. by repeat case_decide.
    + by rewrite bool_decide_eq_false_2.
  - rewrite IH. cbn [dict_get]. destruct (decide (k0 = k)) as [->|Hne].
    + rewrite bool_decide_eq_true_2 by done. by repeat case_decide.
    + by rewrite bool_decide_eq_false_2.
Qed.

(** Splitting the heuristics options loses nothing and mixes nothing: an
    option is looked up in the exec part if its name begins with exec_
    and in the other part if not, with the result of looking it up in the
    whole; the exec part holds only names that begin with exec_, the
    other part none; both keep the order of the options. *)
Theorem split_heuristics_exec_options_partition (options : validate.option_dict) :
  let split := _split_heuristics_exec_options options in
  (∀ k, dict_get options k
        = if String.prefix "exec_" k then dict_get split.2 k
          else dict_get split.1 k)
  ∧ Forall (λ k, String.prefix "exec_" k = true) (dict_keys split.2)
  ∧ Forall (λ k, String.prefix "exec_" k = false) (dict_keys split.1)
  ∧ split.2 `sublist_of` options ∧ split.1 `sublist_of` options
  ∧ length split.1 + length split.2 = length options.
Proof.
  cbv zeta. unfold _split_heuristics_exec_options. cbn [fst snd].
  split; [|split; [|split; [|split; [|split]]]].
  - intros k. rewrite !dict_get_filter_key.
    destruct (String.prefix "exec_" k); by repeat case_decide.
  - rewrite dict_keys_filter. apply Forall_forall.
    by intros k [? _]%list_elem_of_filter.
  - rewrite dict_keys_filter. apply Forall_forall.
    by intros k [? _]%list_elem_of_filter.
  - apply sublist_filter.
  - apply sublist_filter.
  - induction options as [|[k v] rest IH]; [done|].
    rewrite !filter_cons. cbn [fst].
    destruct (String.prefix "exec_" k); repeat case_decide; try done;
      cbn [length]; lia.
Qed.

End quorum_device_more.

(** ** Reports of a validator list, property by property *)

Section validator_forall.
Context `{!Collaborators}.
Variable P : ReportItem → Prop.

Lemma run_collection_Forall options validators :
  Forall (λ v : validate.validator, Forall P (v options)) validators →
  Forall P (validate.run_collection_of_option_validators options validators).
Proof.
  unfold validate.run_collection_of_option_validators.
  induction 1 as [|v vs Hv _ IH]; simpl; [constructor|].
  apply Forall_app. split; [apply Hv | apply IH].
Qed.

Lemma value_cond_Forall option_name predicate value_type name f options :
  (∀ value,
     P (reports.get_problem_creator f.1 f.2
          (reports.invalid_option_value (default option_name name) value
             value_type))) →
  Forall P (validate.value_cond option_name predicate value_type name f options).
Proof.
  intros HP. unfold validate.value_cond, validate._if_option_exists.
  destruct (dict_mem _ _); [|constructor].
  destruct (dict_get options option_name) as [value|]; [|constructor].
  destruct (predicate value); repeat constructor. apply HP.
Qed.

Lemma value_empty_or_valid_Forall option_name (inner : validate.validator)
    options :
  Forall P (inner options) →
  Forall P (validate.value_empty_or_valid option_name inner options).
Proof.
  intros Hinner. unfold validate.value_empty_or_valid, validate._if_option_exists.
  destruct (dict_mem _ _); [|constructor].
  destruct (dict_get options option_name) as [value|]; [|constructor].
  by destruct (validate.is_empty_string value); [constructor|].
Qed.

Lemma names_in_Forall allowed names option_type f patterns :
  (∀ invalid,
     P (reports.get_problem_creator f.1 f.2
          (reports.invalid_options invalid allowed option_type patterns))) →
  Forall P (validate.names_in allowed names option_type f patterns).
Proof.
  intros HP. unfold validate.names_in.
  destruct (filter _ names); repeat constructor. apply HP.
Qed.

Lemma _validate_qdevice_net_algorithm_Forall f options :
  (∀ value,
     P (reports.invalid_option_value "algorithm" value
          (AllowedValues ["ffsplit"; "lms"]) ERROR None)) →
  (∀ value,
     P (reports.get_problem_creator f.1 f.2
          (reports.invalid_option_value "algorithm" value
             (AllowedValues ["ffsplit"; "lms"])))) →
  Forall P (config_validators._validate_qdevice_net_algorithm f options).
Proof.
  intros Hempty Hvalue.
  unfold config_validators._validate_qdevice_net_algorithm,
    validate._if_option_exists.
  destruct (dict_mem _ _); [|constructor].
  destruct (dict_get options "algorithm") as [value|] eqn:Hget; [|constructor].
  destruct (validate.is_empty_string value); [by repeat constructor|].
  by apply value_cond_Forall.
Qed.

Lemma is_required_Forall option_name option_type options :
  P (reports.required_option_is_missing [option_name] option_type) →
  Forall P (validate.is_required option_name option_type options).
Proof.
  intros HP. unfold validate.is_required.
  destruct (dict_mem _ _); by repeat constructor.
Qed.

Lemma generic_options_names_Forall options force_options :
  (∀ names s f,
     (force_options = false → s = ERROR) →
     P (mkReport s f
          (InvalidOptions names ["sync_timeout"; "timeout"] "quorum device" []))) →
  Forall P
    (config_validators._validate_qdevice_generic_options_names options
       force_options).
Proof.
  intros HP. rewrite generic_options_names_reports.
  apply Forall_app. split.
  - destruct (bool_decide _); repeat constructor. by apply HP.
  - destruct (filter _ _); repeat constructor. apply HP. by intros ->.
Qed.

End validator_forall.

(** ** Quorum device: what forcing changes and what it does not *)

Section quorum_device_forcing.
Context `{!Collaborators}.
Import config_validators.

Lemma elem_of_run_collection options (validators : list validate.validator)
    (v : validate.validator) r :
  v ∈ validators → r ∈ v options →
  r ∈ validate.run_collection_of_option_validators options validators.
Proof.
  unfold validate.run_collection_of_option_validators.
  induction 1 as [v vs|v v' vs _ IH]; intros Hr; cbn [flat_map];
    apply elem_of_app; [by left|right; by apply IH].
Qed.

Lemma valid_exec_option_names options :
  (_validate_heuristics_exec_option_names
     (_split_heuristics_exec_options options).2).2
  = filter (λ n, QUORUM_DEVICE_HEURISTICS_EXEC_NAME_RE n = true)
      (filter (λ n, String.prefix "exec_" n = true) (dict_keys options)).
Proof.
  unfold _validate_heuristics_exec_option_names, _split_heuristics_exec_options.
  cbn [fst snd]. rewrite foldl_exec_name_step. cbn [fst snd app].
  by rewrite dict_keys_filter.
Qed.

Lemma dict_get_Some_key {V} (d : dict V) k v :
  dict_get d k = Some v → k ∈ dict_keys d.
Proof.
  intros Hget%dict_get_Some_elem_of. unfold dict_keys.
  apply list_elem_of_fmap. by exists (k, v).
Qed.

(** The value of an exec option. When a quorum device is added, a valid
    exec_NAME option with an empty value is reported, as an ERROR that
    [force_options] does not turn into a warning. When a quorum device is
    updated, the only values that can be reported are those of ["mode"],
    ["interval"], ["sync_timeout"] and ["timeout"]: the value of an exec
    option is never reported, so it can be emptied. *)
Theorem heuristics_exec_option_values (options : validate.option_dict)
    (force_options : bool) :
  (∀ option_name,
     dict_get options option_name = Some "" →
     String.prefix "exec_" option_name = true →
     QUORUM_DEVICE_HEURISTICS_EXEC_NAME_RE option_name = true →
     mkReport ERROR None
       (InvalidOptionValue option_name ""
          (ValueDescription "a command to be run"))
     ∈ _qdevice_add_heuristics_options options force_options)
  ∧ Forall (λ r, ∀ option_name value allowed,
                info r = InvalidOptionValue option_name value allowed →
                option_name ∈ ["mode"; "interval"; "sync_timeout"; "timeout"])
      (_qdevice_update_heuristics_options options force_options).
Proof.
  split.
  - intros option_name Hget Hprefix Hre.
    unfold _qdevice_add_heuristics_options. cbv zeta.
    apply elem_of_app. left.
    apply (elem_of_run_collection _ _
             (validate.value_not_empty option_name "a command to be run" None)).
    + apply elem_of_app. right. apply list_elem_of_fmap.
      exists option_name. split; [done|].
      rewrite valid_exec_option_names, !list_elem_of_filter.
      split; [done|]. split; [done|]. by eapply dict_get_Some_key.
    + unfold validate.value_not_empty, validate.value_cond,
        validate._if_option_exists, dict_mem.
      rewrite Hget. cbn. apply list_elem_of_here.
  - unfold _qdevice_update_heuristics_options. cbv zeta.
    apply Forall_app. split; [|apply Forall_app; split].
    + apply run_collection_Forall. cbn.
      repeat first
        [ apply Forall_nil_2
        | apply Forall_cons_2
        | apply value_empty_or_valid_Forall
        | (apply value_cond_Forall; intros value n v a;
           destruct force_options; cbn; intros [= <- _ _]; code_absent) ].
    + apply names_in_Forall. intros invalid. hnf. intros n v a.
      destruct force_options; cbn; discriminate.
    + rewrite exec_option_names_reports.
      destruct (invalid_exec_names options); [constructor|].
      apply Forall_singleton. intros n v a. discriminate.
Qed.

(** The algorithm of the net model. On add and on update, an empty
    ["algorithm"] value is reported as an ERROR that [force_options] does
    not turn into a warning; a non-empty value other than ["ffsplit"] and
    ["lms"] is reported as an ERROR with FORCE_OPTIONS, or as a warning
    when [force_options] is set. *)
Theorem net_algorithm_value (options : validate.option_dict)
    (node_ids : list string) (force_options : bool) (value : string) :
  dict_get options "algorithm" = Some value →
  value ∉ ["ffsplit"; "lms"] →
  let report :=
    if bool_decide (value = "")
    then mkReport ERROR None
           (InvalidOptionValue "algorithm" value (AllowedValues ["ffsplit"; "lms"]))
    else mkReport (if force_options then WARNING else ERROR)
           (if force_options then None else Some FORCE_OPTIONS)
           (InvalidOptionValue "algorithm" value
              (AllowedValues ["ffsplit"; "lms"])) in
  report ∈ _qdevice_add_model_net_options options node_ids force_options
  ∧ report ∈ _qdevice_update_model_net_options options node_ids force_options.
Proof.
  intros Hget Hvalue. cbv zeta.
  assert (Halgorithm :
    (if bool_decide (value = "")
     then mkReport ERROR None
            (InvalidOptionValue "algorithm" value
               (AllowedValues ["ffsplit"; "lms"]))
     else mkReport (if force_options then WARNING else ERROR)
            (if force_options then None else Some FORCE_OPTIONS)
            (InvalidOptionValue "algorithm" value
               (AllowedValues ["ffsplit"; "lms"])))
    ∈ _validate_qdevice_net_algorithm
        (validate.allow_extra_values FORCE_OPTIONS force_options) options).
  { unfold _validate_qdevice_net_algorithm, validate._if_option_exists,
      dict_mem, validate.is_empty_string.
    rewrite Hget. destruct (bool_decide (value = "")); [apply list_elem_of_here|].
    unfold validate.value_in, validate.value_cond, validate._if_option_exists,
      dict_mem. rewrite Hget. rewrite bool_decide_eq_false_2 by done.
    destruct force_options; apply list_elem_of_here. }
  split.
  - unfold _qdevice_add_model_net_options. cbv zeta. apply elem_of_app. left.
    eapply elem_of_run_collection; [|exact Halgorithm].
    cbn. do 3 apply list_elem_of_further. apply list_elem_of_here.
  - unfold _qdevice_update_model_net_options. cbv zeta. apply elem_of_app. left.
    eapply elem_of_run_collection; [|exact Halgorithm].
    cbn. apply list_elem_of_further, list_elem_of_here.
Qed.

Ltac report_validators tac :=
  repeat first
    [ apply Forall_nil_2
    | apply Forall_cons_2
    | apply value_empty_or_valid_Forall
    | (apply value_cond_Forall; intros ?; tac)
    | (apply _validate_qdevice_net_algorithm_Forall; intros ?; tac)
    | (apply is_required_Forall; tac) ].

(** Required options. Adding a net quorum device reports every required
    model option, ["algorithm"] and ["host"], that is not given; updating
    a quorum device never reports a missing option. *)
Theorem quorum_device_required_options
    (model : string)
    (model_options generic_options heuristics_options : validate.option_dict)
    (node_ids : list string) (force_model force_options : bool) :
  (∀ option_name,
     option_name ∈ _QDEVICE_NET_REQUIRED_OPTIONS →
     dict_get model_options option_name = None →
     reports.required_option_is_missing [option_name] "quorum device model"
     ∈ add_quorum_device "net" model_options generic_options
         heuristics_options node_ids force_model force_options)
  ∧ Forall (λ r, code r ≠ REQUIRED_OPTION_IS_MISSING)
      (update_quorum_device model model_options generic_options
         heuristics_options node_ids force_options).
Proof.
  split.
  - intros option_name Hrequired Hget.
    unfold add_quorum_device. cbv zeta. cbn [dict_get].
    rewrite bool_decide_eq_true_2 by done.
    apply elem_of_app. left. unfold _qdevice_add_model_net_options. cbv zeta.
    apply elem_of_app. left.
    apply (elem_of_run_collection _ _
             (validate.is_required option_name "quorum device model")).
    + apply elem_of_app. left.
      by apply (list_elem_of_fmap_2
                  (λ n, validate.is_required n "quorum device model")).
    + unfold validate.is_required, dict_mem. rewrite Hget.
      apply list_elem_of_here.
  - unfold update_quorum_device. cbv zeta. cbn [dict_get].
    apply Forall_app. split; [|apply Forall_app; split].
    + destruct (bool_decide ("net" = model)); [|constructor].
      unfold _qdevice_update_model_net_options. cbv zeta.
      apply Forall_app. split.
      * apply run_collection_Forall. cbn.
        report_validators ltac:(destruct force_options; discriminate).
      * apply names_in_Forall. intros. destruct force_options; discriminate.
    + unfold _qdevice_update_generic_options.
      apply Forall_app. split.
      * apply run_collection_Forall. cbn.
        report_validators ltac:(destruct force_options; discriminate).
      * apply generic_options_names_Forall. intros. discriminate.
    + unfold _qdevice_update_heuristics_options. cbv zeta.
      apply Forall_app. split; [|apply Forall_app; split].
      * apply run_collection_Forall. cbn.
        report_validators ltac:(destruct force_options; discriminate).
      * apply names_in_Forall. intros. destruct force_options; discriminate.
      * rewrite exec_option_names_reports.
        destruct (invalid_exec_names _); repeat constructor. discriminate.
Qed.

(** Without forcing there are no warnings: with [force_model] and
    [force_options] unset, every report of [add_quorum_device] and of
    [update_quorum_device] is an ERROR. *)
Theorem quorum_device_unforced_reports_are_errors
    (model : string)
    (model_options generic_options heuristics_options : validate.option_dict)
    (node_ids : list string) :
  Forall (λ r, severity r = ERROR)
    (add_quorum_device model model_options generic_options heuristics_options
       node_ids false false)
  ∧ Forall (λ r, severity r = ERROR)
      (update_quorum_device model model_options generic_options
         heuristics_options node_ids false).
Proof.
  assert (Hexec : ∀ options,
    Forall (λ r, severity r = ERROR)
      (_validate_heuristics_exec_option_names
         (_split_heuristics_exec_options options).2).1).
  { intros options. rewrite exec_option_names_reports.
    destruct (invalid_exec_names _); by repeat constructor. }
  split.
  - unfold add_quorum_device. cbv zeta. cbn [dict_get].
    apply Forall_app. split; [|apply Forall_app; split].
    + destruct (bool_decide ("net" = model)).
      * unfold _qdevice_add_model_net_options. cbv zeta.
        apply Forall_app. split.
        -- apply run_collection_Forall. cbn. report_validators ltac:(done).
        -- by apply names_in_Forall.
      * apply run_collection_Forall. report_validators ltac:(done).
    + unfold _qdevice_add_generic_options. apply Forall_app. split.
      * apply run_collection_Forall. cbn. report_validators ltac:(done).
      * apply generic_options_names_Forall. intros names s f Hs. by apply Hs.
    + unfold _qdevice_add_heuristics_options. cbv zeta.
      apply Forall_app. split; [|apply Forall_app; split]; [| |apply Hexec].
      * apply run_collection_Forall. apply Forall_app. split.
        -- cbn. report_validators ltac:(done).
        -- apply Forall_fmap, Forall_forall. intros n _.
           by apply value_cond_Forall.
      * by apply names_in_Forall.
  - unfold update_quorum_device. cbv zeta. cbn [dict_get].
    apply Forall_app. split; [|apply Forall_app; split].
    + destruct (bool_decide ("net" = model)); [|constructor].
      unfold _qdevice_update_model_net_options. cbv zeta.
      apply Forall_app. split.
      * apply run_collection_Forall. cbn. report_validators ltac:(done).
      * by apply names_in_Forall.
    + unfold _qdevice_update_generic_options. apply Forall_app. split.
      * apply run_collection_Forall. cbn. report_validators ltac:(done).
      * apply generic_options_names_Forall. intros names s f Hs. by apply Hs.
    + unfold _qdevice_update_heuristics_options. cbv zeta.
      apply Forall_app. split; [|apply Forall_app; split]; [| |apply Hexec].
      * apply run_collection_Forall. cbn. report_validators ltac:(done).
      * by apply names_in_Forall.
Qed.

End quorum_device_forcing.

Lemma heuristics_exec_option_values_witness :
  mkReport ERROR None
    (InvalidOptionValue "exec_ping" "" (ValueDescription "a command to be run"))
  ∈ @config_validators._qdevice_add_heuristics_options sample_collaborators
      [("mode", "on"); ("exec_ping", "")] true.
Proof.
  apply (proj1 (@heuristics_exec_option_values sample_collaborators
                  [("mode", "on"); ("exec_ping", "")] true) "exec_ping");
    by vm_compute.
Defined.

Lemma net_algorithm_value_witness :
  mkReport ERROR None
    (InvalidOptionValue "algorithm" "" (AllowedValues ["ffsplit"; "lms"]))
  ∈ @config_validators._qdevice_add_model_net_options sample_collaborators
      [("algorithm", ""); ("host", "qnetd")] [] true
  ∧ mkReport ERROR None
      (InvalidOptionValue "algorithm" "" (AllowedValues ["ffsplit"; "lms"]))
    ∈ @config_validators._qdevice_update_model_net_options sample_collaborators
        [("algorithm", ""); ("host", "qnetd")] [] true.
Proof.
  apply (@net_algorithm_value sample_collaborators
           [("algorithm", ""); ("host", "qnetd")] [] true "").
  - reflexivity.
  - apply (bool_decide_unpack _). vm_compute. exact I.
Defined.

Lemma quorum_device_required_options_witness :
  reports.required_option_is_missing ["host"] "quorum device model"
  ∈ @config_validators.add_quorum_device sample_collaborators "net"
      [("algorithm", "lms")] [] [] [] false false.
Proof.
  apply (proj1 (@quorum_device_required_options sample_collaborators "net"
                  [("algorithm", "lms")] [] [] [] false false) "host").
  - apply (bool_decide_unpack _). vm_compute. exact I.
  - reflexivity.
Defined.

(** ** Completed runs of [create]: addresses *)

Section create_address_facts.
Context `{!Collaborators}.
Variable resolves : string → bool.
Import config_validators.

Lemma addr_loop_counts counts types addr_types addr_list :
  (foldl (completed_addr_step resolves) (counts, types, addr_types) addr_list).1.1
  = foldl (λ c a, count_incr a c) counts addr_list.
Proof.
  revert counts types addr_types.
  induction addr_list as [|addr rest IH]; intros counts types addr_types;
    [done|].
  cbn [foldl]. unfold completed_addr_step at 2.
  destruct (types !! addr); apply IH.
Qed.

Lemma node_loop_all_addrs_count transport i st node_list :
  all_addrs_count (completed_node_loop resolves transport i st node_list)
  = foldl (λ c a, count_incr a c) (all_addrs_count st) (all_addrs node_list).
Proof.
  revert i st. induction node_list as [|node rest IH]; intros i st; [done|].
  cbn [completed_node_loop]. rewrite IH. cbn [completed_node_step all_addrs_count].
  unfold all_addrs. rewrite bind_cons, foldl_app. by rewrite addr_loop_counts.
Qed.

Lemma lookup_count_loop counts (l : list string) a :
  default 0 (foldl (λ c a, count_incr a c) counts l !! a)
  = default 0 (counts !! a) + occurrences a l.
Proof.
  unfold occurrences. revert counts.
  induction l as [|x l IH]; intros counts; [cbn; lia|].
  cbn [foldl]. rewrite IH, lookup_count_incr, filter_cons.
  destruct (decide (x = a)); cbn [length]; lia.
Qed.

(** The addresses [create] finds duplicated are those that occur more
    than once among all addresses of all nodes. *)
Lemma elem_of_final_non_unique_addrs cluster_name node_list transport a :
  a ∈ non_unique_addrs
        (completed_state resolves cluster_name node_list transport)
  ↔ 2 ≤ occurrences a (all_addrs node_list).
Proof.
  unfold non_unique_addrs, completed_state.
  rewrite elem_of_dom. unfold is_Some.
  setoid_rewrite map_lookup_filter_Some. cbn [snd].
  rewrite node_loop_all_addrs_count. cbn [initial_state all_addrs_count].
  pose proof (lookup_count_loop ∅ (all_addrs node_list) a) as Hcount.
  rewrite lookup_empty in Hcount. cbn in Hcount. split.
  - intros (c & Hc & Hlt). rewrite Hc in Hcount. cbn in Hcount. lia.
  - intros Hocc.
    destruct (foldl _ ∅ (all_addrs node_list) !! a) as [c|]; cbn in Hcount.
    + exists c. split; [done|lia].
    + lia.
Qed.

Lemma occurrences_NoDup {A} `{!EqDecision A} (l : list A) x :
  NoDup l → occurrences x l ≤ 1.
Proof.
  intros Hl. unfold occurrences.
  apply (filter_length_NoDup_fmap id l x). by rewrite list_fmap_id.
Qed.

(** The address-duplication report of a completed run. *)
Lemma completed_address_duplication_report (cluster_name : string)
    (node_list : list Node) (transport : string) (force_unresolvable : bool) :
  let duplicated :=
    non_unique_addrs
      (completed_state resolves cluster_name node_list transport) in
  (∀ a, a ∈ duplicated ↔ 2 ≤ occurrences a (all_addrs node_list))
  ∧ reports_of COROSYNC_NODE_ADDRESS_DUPLICATION
      (completed_create resolves cluster_name node_list transport force_unresolvable)
    = (if decide (duplicated = ∅) then []
       else [reports.corosync_node_address_duplication duplicated])
  ∧ (NoDup (all_addrs node_list) → duplicated = ∅).
Proof.
  cbv zeta. split; [intros a; apply elem_of_final_non_unique_addrs|]. split.
  - rewrite reports_of_create. cbv zeta.
    rewrite (reports_of_codes_in _ _ _
               (final_report_items_codes resolves _ _ _)) by code_absent.
    rewrite (reports_of_codes_in _ _ _ (unresolvable_reports_codes _ _))
      by code_absent.
    rewrite (reports_of_codes_in _ _ _ (name_duplication_reports_codes _))
      by code_absent.
    rewrite (reports_of_codes_in _ _ _ (ip_mismatch_reports_codes _))
      by code_absent.
    unfold address_duplication_reports. cbn [app]. rewrite app_nil_r.
    destruct (decide (non_unique_addrs _ = ∅)) as [Hempty|Hne].
    + by rewrite bool_decide_eq_false_2 by (by intros ?).
    + rewrite bool_decide_eq_true_2 by done. by rewrite reports_of_singleton.
  - intros Hunique. apply elem_of_equiv_empty_L. intros a Ha.
    apply elem_of_final_non_unique_addrs in Ha.
    pose proof (occurrences_NoDup (all_addrs node_list) a Hunique). lia.
Qed.

(** *** Address types, with the cache *)

Lemma type_step_consistent types addr :
  cache_consistent resolves types → cache_consistent resolves (type_step resolves types addr).
Proof.
  intros Htypes a t. unfold type_step.
  destruct (types !! addr) eqn:Haddr; [apply Htypes|].
  destruct (decide (addr = a)) as [->|Hne].
  - rewrite lookup_insert_eq. by intros [= <-].
  - rewrite lookup_insert_ne by done. apply Htypes.
Qed.

Lemma type_loop_consistent types addr_list :
  cache_consistent resolves types →
  cache_consistent resolves (foldl (type_step resolves) types addr_list).
Proof.
  revert types. induction addr_list as [|addr rest IH]; intros types Htypes;
    [done|].
  cbn [foldl]. by apply IH, type_step_consistent.
Qed.

(** The cache does not change what the address loop records: the types
    of the addresses, one by one. *)
Lemma addr_loop_addr_types counts types addr_types addr_list :
  cache_consistent resolves types →
  (foldl (completed_addr_step resolves) (counts, types, addr_types) addr_list).2
  = addr_types ++ (classify resolves <$> addr_list).
Proof.
  revert counts types addr_types.
  induction addr_list as [|addr rest IH]; intros counts types addr_types Htypes.
  - cbn. by rewrite app_nil_r.
  - cbn [foldl]. unfold completed_addr_step at 2.
    destruct (types !! addr) as [t|] eqn:Haddr.
    + rewrite IH by done. rewrite (Htypes addr t Haddr).
      by rewrite <- app_assoc.
    + rewrite IH.
      * by rewrite <- app_assoc.
      * pose proof (type_step_consistent types addr Htypes) as Hstep.
        unfold type_step in Hstep. by rewrite Haddr in Hstep.
Qed.

Lemma node_loop_addr_types_per_node transport i st node_list :
  cache_consistent resolves (all_addrs_type st) →
  addr_types_per_node (completed_node_loop resolves transport i st node_list)
  = addr_types_per_node st ++ (node_addr_types resolves <$> node_list).
Proof.
  revert i st. induction node_list as [|node rest IH]; intros i st Hst.
  - cbn. by rewrite app_nil_r.
  - cbn [completed_node_loop]. rewrite IH.
    + cbn [completed_node_step addr_types_per_node]. rewrite addr_loop_addr_types by done.
      rewrite fmap_cons. cbn [app]. by rewrite <- app_assoc.
    + cbn [completed_node_step all_addrs_type]. rewrite addr_loop_types.
      by apply type_loop_consistent.
Qed.

Lemma final_addr_types_per_node cluster_name node_list transport :
  addr_types_per_node
    (completed_state resolves cluster_name node_list transport)
  = node_addr_types resolves <$> node_list.
Proof.
  unfold completed_state. rewrite node_loop_addr_types_per_node; [done|].
  intros a t. cbn. by rewrite lookup_empty.
Qed.

End create_address_facts.

(** ** Completed runs of [create]: IP versions per link *)

Lemma zip_longest_lookup {A} (ls : list (list A)) k :
  zip_longest ls !! k
  = if decide (k < max_list (length <$> ls))
    then Some ((λ l : list A, l !! k) <$> ls) else None.
Proof.
  unfold zip_longest. rewrite list_lookup_fmap.
  destruct (decide (k < max_list (length <$> ls))) as [Hlt|Hge].
  - by rewrite lookup_seq_lt.
  - rewrite lookup_seq_ge; [done|lia].
Qed.

Section create_link_facts.
Context `{!Collaborators}.
Variable resolves : string → bool.
Import config_validators.

Lemma elem_of_links_ip_mismatch st link :
  link ∈ links_ip_mismatch st
  ↔ (∃ l, l ∈ addr_types_per_node st ∧ l !! link = Some IPv4)
    ∧ (∃ l, l ∈ addr_types_per_node st ∧ l !! link = Some IPv6).
Proof.
  unfold links_ip_mismatch. rewrite list_elem_of_fmap. split.
  - intros ([i row] & -> & [[H6 H4] Hin]%list_elem_of_filter). cbn [fst snd] in *.
    apply elem_of_lookup_imap in Hin as (j & row' & [= <- <-] & Hrow).
    rewrite zip_longest_lookup in Hrow. case_decide; [|done].
    injection Hrow as <-.
    apply list_elem_of_fmap in H6 as (l6 & H6 & Hl6).
    apply list_elem_of_fmap in H4 as (l4 & H4 & Hl4). split; eauto.
  - intros [(l4 & Hl4 & H4) (l6 & Hl6 & H6)].
    exists (link, (λ l : list AddressType, l !! link) <$> addr_types_per_node st).
    split; [done|]. apply list_elem_of_filter. cbn [snd]. split.
    + split; apply list_elem_of_fmap; eauto.
    + apply elem_of_lookup_imap. eexists link, _. split; [done|].
      rewrite zip_longest_lookup. rewrite decide_True; [done|].
      apply lookup_lt_Some in H4.
      pose proof (max_list_elem_of_le (length l4)
                    (length <$> addr_types_per_node st)) as Hle.
      specialize (Hle (list_elem_of_fmap_2 length _ _ Hl4)). lia.
Qed.

Lemma links_ip_mismatch_NoDup st : NoDup (links_ip_mismatch st).
Proof.
  unfold links_ip_mismatch.
  eapply sublist_NoDup;
    [|apply fmap_sublist, sublist_filter].
  rewrite fmap_imap.
  rewrite (imap_ext _ (λ j _, j)) by done.
  rewrite (imap_seq_0 _ id), list_fmap_id. apply NoDup_seq.
Qed.

(** The IP-version-mismatch report of a completed run. *)
Lemma completed_ip_version_mismatch_report (cluster_name : string)
    (node_list : list Node) (transport : string) (force_unresolvable : bool) :
  let links :=
    links_ip_mismatch
      (completed_state resolves cluster_name node_list transport) in
  (∀ link, link ∈ links ↔ link_mixes_ip_versions resolves node_list link)
  ∧ NoDup links
  ∧ reports_of COROSYNC_IP_VERSION_MISMATCH_IN_LINKS
      (completed_create resolves cluster_name node_list transport force_unresolvable)
    = match links with
      | [] => []
      | _ => [reports.corosync_ip_version_mismatch_in_links links]
      end.
Proof.
  cbv zeta. split; [|split; [apply links_ip_mismatch_NoDup|]].
  - intros link. rewrite elem_of_links_ip_mismatch, final_addr_types_per_node.
    unfold link_mixes_ip_versions.
    assert (Hnodes : ∀ t,
      (∃ l, l ∈ node_addr_types resolves <$> node_list ∧ l !! link = Some t)
      ↔ ∃ node, node ∈ node_list
                ∧ node_addr_types resolves node !! link = Some t).
    { intros t. split.
      - intros (l & (node & -> & Hnode)%list_elem_of_fmap & Hl). eauto.
      - intros (node & Hnode & Hl). eexists. split; [|exact Hl].
        by apply list_elem_of_fmap_2. }
    by rewrite !Hnodes.
  - rewrite reports_of_create. cbv zeta.
    rewrite (reports_of_codes_in _ _ _
               (final_report_items_codes resolves _ _ _)) by code_absent.
    rewrite (reports_of_codes_in _ _ _ (unresolvable_reports_codes _ _))
      by code_absent.
    rewrite (reports_of_codes_in _ _ _ (name_duplication_reports_codes _))
      by code_absent.
    rewrite (reports_of_codes_in _ _ _ (address_duplication_reports_codes _))
      by code_absent.
    unfold ip_mismatch_reports. cbn [app].
    destruct (links_ip_mismatch _); [done|]. by rewrite reports_of_singleton.
Qed.

End create_link_facts.

(** ** Completed runs of [create]: address counts, severities and the force flag *)

Section create_count_and_severity.
Context `{!Collaborators}.
Variable resolves : string → bool.
Import config_validators.

Lemma cluster_reports_option_codes cluster_name transport :
  codes_in option_codes (cluster_reports cluster_name transport).
Proof. unfold cluster_reports. eauto 20 with codes. Qed.

Lemma node_name_reports_option_codes i node :
  codes_in option_codes (node_name_reports i node).
Proof. unfold node_name_reports. eauto 20 with codes. Qed.

Lemma node_count_reports_bounds transport i node :
  node_count_reports transport i node
  = match addr_count_bounds transport with
    | Some (lo, hi) =>
        if bool_decide (addr_count_out_of_bounds lo hi node)
        then [reports.corosync_bad_node_addresses_count (addr_count node)
                lo hi (name node) i]
        else []
    | None => []
    end.
Proof.
  unfold node_count_reports, addr_count_bounds, addr_count_out_of_bounds.
  cbv zeta. fold (addr_count node).
  assert (Hor : ∀ lo hi,
    (addr_count node <? lo) || (hi <? addr_count node)
    = bool_decide (addr_count node < lo ∨ hi < addr_count node)).
  { intros lo hi. apply eq_true_iff_eq.
    rewrite orb_true_iff, !Nat.ltb_lt, bool_decide_eq_true. done. }
  destruct (bool_decide (transport ∈ constants.TRANSPORTS_KNET)) eqn:Hknet.
  - rewrite bool_decide_true; [by rewrite Hor|].
    apply bool_decide_eq_true in Hknet. apply elem_of_app. by left.
  - destruct (bool_decide (transport ∈ constants.TRANSPORTS_UDP)) eqn:Hudp.
    + rewrite bool_decide_true; [by rewrite Hor|].
      apply bool_decide_eq_true in Hudp. apply elem_of_app. by right.
    + rewrite bool_decide_false; [done|].
      apply bool_decide_eq_false in Hknet, Hudp.
      by intros [?|?]%elem_of_app.
Qed.

Lemma reports_of_loop_bad_count transport i node_list :
  reports_of COROSYNC_BAD_NODE_ADDRESSES_COUNT
    (loop_reports transport i node_list)
  = match addr_count_bounds transport with
    | Some (lo, hi) =>
        (λ p : nat * Node,
           reports.corosync_bad_node_addresses_count (addr_count p.2) lo hi
             (name p.2) p.1)
        <$> filter (λ p : nat * Node, addr_count_out_of_bounds lo hi p.2)
              (imap (λ j node, (i + j, node)) node_list)
    | None => []
    end.
Proof.
  revert i. induction node_list as [|node rest IH]; intros i.
  - cbn. by destruct (addr_count_bounds transport) as [[lo hi]|].
  - cbn [loop_reports]. rewrite !reports_of_app, IH.
    rewrite (reports_of_codes_in _ _ _ (node_name_reports_option_codes i node))
      by code_absent.
    rewrite node_count_reports_bounds. cbn [app].
    destruct (addr_count_bounds transport) as [[lo hi]|]; [|done].
    cbn [imap]. rewrite filter_cons. cbn [snd].
    rewrite (imap_ext (λ j node0, (S i + j, node0))
               ((λ j node0, (i + j, node0)) ∘ S))
      by (intros; cbn; f_equal; lia).
    rewrite Nat.add_0_r.
    case_bool_decide as Hout.
    + rewrite decide_True by done. by rewrite reports_of_singleton.
    + rewrite decide_False by done. done.
Qed.

(** The address-count reports of a completed run. *)
Lemma completed_bad_address_count_reports (cluster_name : string)
    (node_list : list Node) (transport : string) (force_unresolvable : bool) :
  reports_of COROSYNC_BAD_NODE_ADDRESSES_COUNT
    (completed_create resolves cluster_name node_list transport force_unresolvable)
  = match addr_count_bounds transport with
    | Some (lo, hi) =>
        (λ p : nat * Node,
           reports.corosync_bad_node_addresses_count (addr_count p.2) lo hi
             (name p.2) p.1)
        <$> filter (λ p : nat * Node, addr_count_out_of_bounds lo hi p.2)
              (enumerate_from_1 node_list)
    | None => []
    end.
Proof.
  rewrite reports_of_create. cbv zeta.
  rewrite (reports_of_codes_in _ _ _ (unresolvable_reports_codes _ _))
    by code_absent.
  rewrite (reports_of_codes_in _ _ _ (name_duplication_reports_codes _))
    by code_absent.
  rewrite (reports_of_codes_in _ _ _ (address_duplication_reports_codes _))
    by code_absent.
  rewrite (reports_of_codes_in _ _ _ (ip_mismatch_reports_codes _))
    by code_absent.
  rewrite !app_nil_r. unfold completed_state.
  rewrite node_loop_report_items. cbn [initial_state report_items].
  rewrite reports_of_app.
  rewrite (reports_of_codes_in _ _ _
             (cluster_reports_option_codes cluster_name transport))
    by code_absent.
  cbn [app]. apply reports_of_loop_bad_count.
Qed.

Lemma loop_reports_strict transport i node_list :
  Forall plain_error (loop_reports transport i node_list).
Proof.
  revert i. induction node_list as [|node rest IH]; intros i; [constructor|].
  cbn [loop_reports]. rewrite !Forall_app. split; [|split; [|apply IH]].
  - apply run_collection_strict. strict_validators.
  - rewrite node_count_reports_bounds.
    destruct (addr_count_bounds transport) as [[lo hi]|]; [|constructor].
    case_bool_decide; repeat constructor.
Qed.

Lemma final_report_items_strict cluster_name node_list transport :
  Forall plain_error
    (report_items
       (completed_state resolves cluster_name node_list transport)).
Proof.
  unfold completed_state. rewrite node_loop_report_items.
  cbn [initial_state report_items]. apply Forall_app. split.
  - apply run_collection_strict. strict_validators.
  - apply loop_reports_strict.
Qed.

Lemma aggregate_reports_strict st :
  Forall plain_error
    (name_duplication_reports st ++ address_duplication_reports st
       ++ ip_mismatch_reports st).
Proof.
  rewrite !Forall_app. split; [|split].
  - unfold name_duplication_reports. case_bool_decide; repeat constructor.
  - unfold address_duplication_reports. case_bool_decide; repeat constructor.
  - unfold ip_mismatch_reports. destruct (links_ip_mismatch st);
      repeat constructor.
Qed.

(** The severities of the reports of a completed run. *)
Lemma completed_report_severities (cluster_name : string)
    (node_list : list Node) (transport : string) (force_unresolvable : bool) :
  Forall (λ r,
            if bool_decide (code r = NODE_ADDRESSES_UNRESOLVABLE)
            then if force_unresolvable
                 then severity r = WARNING ∧ forceable r = None
                 else severity r = ERROR
                      ∧ forceable r = Some FORCE_NODE_ADDRESSES_UNRESOLVABLE
            else plain_error r)
    (completed_create resolves cluster_name node_list transport force_unresolvable).
Proof.
  rewrite create_unfold. cbv zeta.
  assert (Hplain : ∀ l, codes_in
            (node_codes ++ [COROSYNC_NODE_NAME_DUPLICATION;
                            COROSYNC_NODE_ADDRESS_DUPLICATION;
                            COROSYNC_IP_VERSION_MISMATCH_IN_LINKS]) l →
          Forall plain_error l →
          Forall (λ r,
            if bool_decide (code r = NODE_ADDRESSES_UNRESOLVABLE)
            then if force_unresolvable
                 then severity r = WARNING ∧ forceable r = None
                 else severity r = ERROR
                      ∧ forceable r = Some FORCE_NODE_ADDRESSES_UNRESOLVABLE
            else plain_error r) l).
  { intros l Hcodes Hl. unfold codes_in in Hcodes.
    rewrite Forall_forall in Hcodes, Hl. apply Forall_forall. intros r Hr.
    rewrite bool_decide_false; [by apply Hl|].
    intros Hcode. specialize (Hcodes r Hr). rewrite Hcode in Hcodes.
    revert Hcodes. code_absent. }
  rewrite app_assoc.
  rewrite (Forall_app _ (_ ++ unresolvable_reports _ _)).
  rewrite Forall_app. split; [split|].
  - apply Hplain; [|apply final_report_items_strict].
    eapply codes_in_mono; [|apply final_report_items_codes].
    intros c Hc. apply elem_of_app. by left.
  - unfold unresolvable_reports. case_bool_decide; [|constructor].
    destruct force_unresolvable; repeat constructor.
  - apply Hplain; [|apply aggregate_reports_strict].
    apply codes_in_app; [|apply codes_in_app].
    + eapply codes_in_mono; [|apply name_duplication_reports_codes]. code_absent.
    + eapply codes_in_mono; [|apply address_duplication_reports_codes].
      code_absent.
    + eapply codes_in_mono; [|apply ip_mismatch_reports_codes]. code_absent.
Qed.

Lemma with_unresolvable_forced_other cs l :
  NODE_ADDRESSES_UNRESOLVABLE ∉ cs → codes_in cs l →
  with_unresolvable_forced <$> l = l.
Proof.
  intros Hcs Hl. rewrite <- (list_fmap_id l) at 2.
  apply Forall_fmap_ext_1. eapply Forall_impl; [exact Hl|].
  intros r Hr. unfold with_unresolvable_forced.
  rewrite bool_decide_false; [done|]. intros Hcode. apply Hcs.
  by rewrite <- Hcode.
Qed.

(** What forcing changes in a completed run. *)
Lemma completed_force_unresolvable_effect (cluster_name : string)
    (node_list : list Node) (transport : string) :
  completed_create resolves cluster_name node_list transport true
  = with_unresolvable_forced
    <$> completed_create resolves cluster_name node_list transport false.
Proof.
  rewrite !create_unfold. cbv zeta. rewrite !fmap_app.
  rewrite (with_unresolvable_forced_other node_codes _ ltac:(code_absent)
             (final_report_items_codes resolves _ _ _)).
  rewrite (with_unresolvable_forced_other [COROSYNC_NODE_NAME_DUPLICATION] _
             ltac:(code_absent) (name_duplication_reports_codes _)).
  rewrite (with_unresolvable_forced_other [COROSYNC_NODE_ADDRESS_DUPLICATION] _
             ltac:(code_absent) (address_duplication_reports_codes _)).
  rewrite (with_unresolvable_forced_other
             [COROSYNC_IP_VERSION_MISMATCH_IN_LINKS] _
             ltac:(code_absent) (ip_mismatch_reports_codes _)).
  do 2 f_equal. unfold unresolvable_reports. by case_bool_decide.
Qed.

End create_count_and_severity.

(** ** Completed runs of [create]: the accepted configurations *)

Section create_accepts.
Context `{!Collaborators}.
Variable resolves : string → bool.
Import config_validators.

Lemma cluster_reports_nil cluster_name transport :
  cluster_reports cluster_name transport = []
  ↔ cluster_name ≠ "" ∧ transport ∈ constants.TRANSPORTS_ALL.
Proof.
  unfold cluster_reports, validate.run_collection_of_option_validators.
  cbn [flat_map]. rewrite app_nil_r.
  unfold validate.value_not_empty, validate.value_in, validate.value_cond,
    validate._if_option_exists, dict_mem.
  cbn [dict_get]. rewrite bool_decide_true by done.
  rewrite (bool_decide_false ("name" = "transport")) by done.
  rewrite bool_decide_true by done.
  unfold validate.is_empty_string.
  split.
  - intros [Hname Htransport]%app_eq_nil. split.
    + intros ->. by rewrite bool_decide_true in Hname.
    + destruct (decide (transport ∈ constants.TRANSPORTS_ALL)); [done|].
      by rewrite bool_decide_false in Htransport.
  - intros [Hname Htransport].
    by rewrite (bool_decide_false (cluster_name = "")),
         (bool_decide_true (transport ∈ _)).
Qed.

Lemma node_name_reports_nil i node :
  node_name_reports i node = [] ↔ has_usable_name node = true.
Proof.
  unfold node_name_reports, validate.run_collection_of_option_validators,
    node_options, has_usable_name.
  cbn [flat_map]. rewrite app_nil_r.
  unfold validate.is_required, validate.value_not_empty, validate.value_cond,
    validate._if_option_exists, dict_mem, validate.is_empty_string.
  destruct (name node) as [n|]; cbn [dict_get].
  - rewrite bool_decide_true by done. cbn [app].
    destruct (bool_decide (n = "")); cbn; split; done.
  - cbn. split; done.
Qed.

Lemma loop_reports_nil transport i node_list :
  loop_reports transport i node_list = []
  ↔ ∀ node, node ∈ node_list →
      has_usable_name node = true
      ∧ ∀ lo hi, addr_count_bounds transport = Some (lo, hi) →
          lo ≤ addr_count node ≤ hi.
Proof.
  revert i. induction node_list as [|node rest IH]; intros i.
  - cbn. split; [|done]. by intros _ node ?%elem_of_nil.
  - cbn [loop_reports]. rewrite !app_nil, IH, node_name_reports_nil.
    rewrite node_count_reports_bounds.
    assert (Hcount :
      match addr_count_bounds transport with
      | Some (lo, hi) =>
          if bool_decide (addr_count_out_of_bounds lo hi node)
          then [reports.corosync_bad_node_addresses_count (addr_count node)
                  lo hi (name node) i]
          else []
      | None => []
      end = []
      ↔ ∀ lo hi, addr_count_bounds transport = Some (lo, hi) →
          lo ≤ addr_count node ≤ hi).
    { unfold addr_count_out_of_bounds.
      destruct (addr_count_bounds transport) as [[lo hi]|]; [|done].
      case_bool_decide as Hout; split.
      - done.
      - intros Hin. specialize (Hin lo hi eq_refl). lia.
      - intros _ lo' hi' [= <- <-]. lia.
      - done. }
    rewrite Hcount. split.
    + intros (Hname & Hbounds & Hrest) node' [->|Hin]%elem_of_cons; auto.
    + intros Hall. split; [|split].
      * apply Hall, list_elem_of_here.
      * apply Hall, list_elem_of_here.
      * intros node' Hin. by apply Hall, list_elem_of_further.
Qed.

Lemma addr_count_bounds_Some transport :
  transport ∈ constants.TRANSPORTS_ALL → is_Some (addr_count_bounds transport).
Proof.
  intros [Hknet|Hudp]%elem_of_app; unfold addr_count_bounds.
  - by rewrite bool_decide_true.
  - case_bool_decide; [done|]. by rewrite bool_decide_true.
Qed.

Lemma elem_of_final_links_ip_mismatch cluster_name node_list transport link :
  link ∈ links_ip_mismatch
           (completed_state resolves cluster_name node_list transport)
  ↔ link_mixes_ip_versions resolves node_list link.
Proof.
  rewrite elem_of_links_ip_mismatch, final_addr_types_per_node.
  unfold link_mixes_ip_versions.
  assert (Hnodes : ∀ t,
    (∃ l, l ∈ node_addr_types resolves <$> node_list ∧ l !! link = Some t)
    ↔ ∃ node, node ∈ node_list
              ∧ node_addr_types resolves node !! link = Some t).
  { intros t. split.
    - intros (l & (node & -> & Hnode)%list_elem_of_fmap & Hl). eauto.
    - intros (node & Hnode & Hl). eexists. split; [|exact Hl].
      by apply list_elem_of_fmap_2. }
  by rewrite !Hnodes.
Qed.

Lemma name_count_not_usable node_list :
  (∀ node, node ∈ node_list → has_usable_name node = true) →
  name_count "" node_list = 0.
Proof.
  intros Hall. unfold name_count.
  induction node_list as [|node rest IH]; [done|].
  rewrite filter_cons, decide_False.
  - apply IH. intros node' Hin. by apply Hall, list_elem_of_further.
  - intros Hname. specialize (Hall node (list_elem_of_here _ _)).
    unfold has_usable_name in Hall. by rewrite Hname in Hall.
Qed.

(** When a completed run gives no report. *)
Lemma completed_create_accepts_iff (cluster_name : string) (node_list : list Node)
    (transport : string) (force_unresolvable : bool) :
  completed_create resolves cluster_name node_list transport force_unresolvable = []
  ↔ cluster_name ≠ ""
    ∧ transport ∈ constants.TRANSPORTS_ALL
    ∧ (∀ node, node ∈ node_list →
         has_usable_name node = true
         ∧ ∀ lo hi, addr_count_bounds transport = Some (lo, hi) →
             lo ≤ addr_count node ≤ hi)
    ∧ (∀ n, name_count n node_list ≤ 1)
    ∧ (∀ a, a ∈ all_addrs node_list →
         classify resolves a ≠ unresolvable)
    ∧ (∀ a, occurrences a (all_addrs node_list) ≤ 1)
    ∧ (∀ link, ¬ link_mixes_ip_versions resolves node_list link).
Proof.
  rewrite create_unfold. cbv zeta. rewrite !app_nil.
  unfold completed_state at 1. rewrite node_loop_report_items.
  cbn [initial_state report_items].
  rewrite app_nil, cluster_reports_nil, loop_reports_nil.
  set (st := completed_state resolves cluster_name node_list transport).
  assert (Hunres : unresolvable_reports force_unresolvable st = []
    ↔ ∀ a, a ∈ all_addrs node_list →
        classify resolves a ≠ unresolvable).
  { subst st. unfold unresolvable_reports. case_bool_decide as Hset.
    - split; [by destruct force_unresolvable|]. intros Hall. exfalso.
      apply Hset. apply set_eq. intros a.
      rewrite elem_of_unresolvable_addresses, elem_of_empty.
      split; [|done]. intros [Hin Htype]. by apply (Hall a).
    - split; [|done]. intros _ a Hin Htype.
      assert (Ha : a ∈ unresolvable_addresses
                (completed_state resolves cluster_name node_list
                   transport))
        by by apply elem_of_unresolvable_addresses.
      rewrite Hset in Ha. by apply elem_of_empty in Ha. }
  assert (Hnames : (∀ node, node ∈ node_list → has_usable_name node = true) →
    name_duplication_reports st = [] ↔ ∀ n, name_count n node_list ≤ 1).
  { subst st. intros Husable. unfold name_duplication_reports.
    case_bool_decide as Hset.
    - split; [done|]. intros Hall. exfalso. apply Hset. apply set_eq.
      intros n. rewrite elem_of_final_non_unique_names, elem_of_empty.
      split; [|done]. intros [_ Hn]. specialize (Hall n). lia.
    - split; [|done]. intros _ n.
      destruct (decide (n = "")) as [->|Hn].
      + rewrite name_count_not_usable by done. lia.
      + destruct (decide (name_count n node_list ≤ 1)); [done|].
        assert (Ha : n ∈ non_unique_names
                  (completed_state resolves cluster_name node_list
                     transport)).
        { apply elem_of_final_non_unique_names. split; [done|lia]. }
        rewrite Hset in Ha. by apply elem_of_empty in Ha. }
  assert (Haddrs : address_duplication_reports st = []
    ↔ ∀ a, occurrences a (all_addrs node_list) ≤ 1).
  { subst st. unfold address_duplication_reports. case_bool_decide as Hset.
    - split; [done|]. intros Hall. exfalso. apply Hset. apply set_eq.
      intros a. rewrite elem_of_final_non_unique_addrs, elem_of_empty.
      split; [|done]. intros Ha. specialize (Hall a). lia.
    - split; [|done]. intros _ a.
      destruct (decide (occurrences a (all_addrs node_list) ≤ 1)); [done|].
      assert (Ha : a ∈ non_unique_addrs
                (completed_state resolves cluster_name node_list
                   transport)).
      { apply elem_of_final_non_unique_addrs. lia. }
      rewrite Hset in Ha. by apply elem_of_empty in Ha. }
  assert (Hlinks : ip_mismatch_reports st = []
    ↔ ∀ link, ¬ link_mixes_ip_versions resolves node_list link).
  { subst st. unfold ip_mismatch_reports.
    destruct (links_ip_mismatch _) as [|link links] eqn:Hl.
    - split; [|done]. intros _ link Hmix.
      apply (elem_of_final_links_ip_mismatch cluster_name _ transport)
        in Hmix.
      rewrite Hl in Hmix. by apply elem_of_nil in Hmix.
    - split; [done|]. intros Hall. exfalso. apply (Hall link).
      apply (elem_of_final_links_ip_mismatch cluster_name _ transport).
      rewrite Hl. apply list_elem_of_here. }
  rewrite Hunres, Haddrs, Hlinks. split.
  - intros ([[Hname Htransport] Hnodes] & Hu & Hn & Ha & Hl).
    assert (∀ node, node ∈ node_list → has_usable_name node = true)
      by (intros node Hin; by apply Hnodes).
    split; [done|]. split; [done|]. split; [done|].
    split; [by apply Hnames|]. done.
  - intros (Hname & Htransport & Hnodes & Hn & Hu & Ha & Hl).
    assert (∀ node, node ∈ node_list → has_usable_name node = true)
      by (intros node Hin; by apply Hnodes).
    split; [done|]. split; [done|]. split; [by apply Hnames|]. done.
Qed.

End create_accepts.


(** ** [find_valid_resource_id]: what a call can come to *)

Lemma attrib_get_found_id parents id e found :
  resource.find_under parents id e = Some found →
  attrib_get (element found) "id" = Returned id.
Proof.
  intros Hid%find_under_id. unfold element_id in Hid. unfold attrib_get.
  by rewrite Hid.
Qed.

(** The outcomes of [find_valid_resource_id]. A returned id is the
    requested id, or, only when repairing to the clone, the id of a clone
    or master element above the resource. A library error is the error of
    a missing resource or, only when both flags are unset, the error of a
    resource in a clone or master, for the requested id. The only other
    exception is the missing id attribute of the clone, which is never
    read when the resource is merely allowed in a clone. *)
Theorem find_valid_resource_id_outcomes (cib : Element)
    (can_repair_to_clone in_clone_allowed : bool) (id : string) :
  match constraint.find_valid_resource_id cib can_repair_to_clone
          in_clone_allowed id with
  | Returned r =>
      r = id
      ∨ (can_repair_to_clone = true
         ∧ ∃ found clone,
             resource.find_by_id cib id = Some found
             ∧ clone ∈ ancestors found
             ∧ tag clone ∈ resource.TAGS_CLONE
             ∧ element_id clone = Some r)
  | Raised (LibraryError report) =>
      report = reports.resource_does_not_exist id
      ∨ (can_repair_to_clone = false ∧ in_clone_allowed = false
         ∧ ∃ clone_id,
             report ∈ [reports.resource_is_in_clone id clone_id;
                       reports.resource_is_in_master id clone_id])
  | Raised (KeyError key) =>
      key = "id" ∧ (can_repair_to_clone = true ∨ in_clone_allowed = false)
  end.
Proof.
  unfold constraint.find_valid_resource_id.
  destruct (resource.find_by_id cib id) as [found|] eqn:Hfind; [|by left].
  pose proof (attrib_get_found_id _ _ _ _ Hfind) as Hid. rewrite Hid.
  case_bool_decide as Htag; [by left|].
  destruct (tools.find_parent found resource.TAGS_CLONE) as [clone|] eqn:Hclone;
    [|by left].
  unfold tools.find_parent in Hclone.
  apply find_some in Hclone as [Hin%list_elem_of_In Hclone_tag].
  apply bool_decide_eq_true in Hclone_tag.
  destruct can_repair_to_clone.
  - unfold attrib_get.
    destruct (dict_get (attrib clone) "id") as [clone_id|] eqn:Hclone_id.
    + right. split; [done|]. by exists found, clone.
    + split; [done|by left].
  - destruct in_clone_allowed; [by left|]. cbn.
    unfold attrib_get.
    destruct (dict_get (attrib clone) "id") as [clone_id|] eqn:Hclone_id; cbn.
    + right. split; [done|]. split; [done|]. exists clone_id.
      case_bool_decide.
      * apply list_elem_of_further, list_elem_of_here.
      * apply list_elem_of_here.
    + split; [done|by right].
Qed.

(** ** [prepare_options] *)

Section prepare_options_facts.
Import constraint.

Lemma validate_attrib_names_loop_returned attrib_names option_names :
  validate_attrib_names_loop attrib_names option_names = Returned ()
  ↔ Forall (λ k, k ∈ attrib_names) option_names.
Proof.
  induction option_names as [|k rest IH]; [done|].
  cbn [validate_attrib_names_loop]. rewrite Forall_cons.
  case_bool_decide as Hk.
  - split; [done|]. by intros [? _].
  - rewrite IH. split; [done|]. by intros [_ ?].
Qed.

Lemma validate_attrib_names_loop_first attrib_names before name after :
  Forall (λ k, k ∈ attrib_names) before →
  name ∉ attrib_names →
  validate_attrib_names_loop attrib_names (before ++ name :: after)
  = Raised (LibraryError (invalid_option attrib_names name)).
Proof.
  intros Hbefore Hname. induction Hbefore as [|k before Hk _ IH].
  - cbn. by rewrite bool_decide_true.
  - cbn [app validate_attrib_names_loop]. by rewrite bool_decide_false by auto.
Qed.

Lemma dict_get_app {V} (d1 d2 : list (string * V)) k :
  dict_get (d1 ++ d2) k
  = match dict_get d1 k with Some v => Some v | None => dict_get d2 k end.
Proof.
  induction d1 as [|[k' v'] d1 IH]; [done|]. cbn [app dict_get].
  by case_bool_decide.
Qed.

(** An option that is not allowed. Where the options hold a name that is
    neither one of the attribute names nor id, [prepare_options] raises
    the invalid-option error for the first such name, listing the
    attribute names and id as allowed; neither the id generator nor the
    id validator has a say. *)
Theorem prepare_options_invalid_option (attrib_names : list string)
    (options : list (string * string))
    (create_id : unit → Outcome string) (validate_id : string → Outcome unit)
    (before : list string) (name : string) (after : list string) :
  dict_keys options = before ++ name :: after →
  Forall (λ k, k ∈ attrib_names ++ ["id"]) before →
  name ∉ attrib_names ++ ["id"] →
  prepare_options attrib_names options create_id validate_id
  = Raised (LibraryError (invalid_option (attrib_names ++ ["id"]) name)).
Proof.
  intros Hkeys Hbefore Hname. unfold prepare_options, _validate_attrib_names.
  rewrite Hkeys. by rewrite validate_attrib_names_loop_first.
Qed.

(** Returned options. When [prepare_options] returns, every name of the
    result is an attribute name or id, every option other than id is as
    it was given, and the result has an id: the given one, which the
    validator accepted, or, when none was given, the one the generator
    made. *)
Theorem prepare_options_returned (attrib_names : list string)
    (options : list (string * string))
    (create_id : unit → Outcome string) (validate_id : string → Outcome unit)
    (result : list (string * string)) :
  prepare_options attrib_names options create_id validate_id = Returned result →
  Forall (λ k, k ∈ attrib_names ++ ["id"]) (dict_keys result)
  ∧ (∀ k, k ≠ "id" → dict_get result k = dict_get options k)
  ∧ ∃ id, dict_get result "id" = Some id
          ∧ (dict_get options "id" = Some id ∧ validate_id id = Returned ()
             ∨ dict_get options "id" = None ∧ create_id () = Returned id).
Proof.
  unfold prepare_options, _validate_attrib_names.
  destruct (validate_attrib_names_loop _ _) as [[]|e] eqn:Hnames; [|done].
  apply validate_attrib_names_loop_returned in Hnames. cbn.
  destruct (dict_get options "id") as [id|] eqn:Hid.
  - destruct (validate_id id) as [[]|e] eqn:Hvalid; [|done]. cbn.
    intros [= <-]. split; [done|]. split; [done|]. exists id. auto.
  - destruct (create_id ()) as [new_id|e] eqn:Hnew; [|done]. cbn.
    intros [= <-]. split; [|split].
    + unfold dict_keys. rewrite fmap_app. apply Forall_app. split; [done|].
      apply Forall_singleton. cbn. apply elem_of_app. right.
      apply list_elem_of_here.
    + intros k Hk. rewrite dict_get_app. destruct (dict_get options k); [done|].
      cbn. by rewrite bool_decide_false by done.
    + exists new_id. split; [|by right]. rewrite dict_get_app, Hid. cbn.
      by rewrite bool_decide_true.
Qed.

End prepare_options_facts.

Lemma prepare_options_invalid_option_witness :
  constraint.prepare_options ["score"] [("score", "10"); ("kind", "x"); ("id", "c1")]
    (λ _, Returned "new-id") (λ _, Returned ())
  = Raised (LibraryError (constraint.invalid_option ["score"; "id"] "kind")).
Proof.
  apply (prepare_options_invalid_option ["score"] _ _ _ ["score"] "kind" ["id"]).
  - reflexivity.
  - apply Forall_singleton. apply (bool_decide_unpack _). vm_compute. exact I.
  - apply (bool_decide_unpack _). vm_compute. exact I.
Defined.

Lemma prepare_options_returned_witness :
  Forall (λ k, k ∈ ["score"] ++ ["id"])
    (dict_keys [("score", "10"); ("id", "new-id")])
  ∧ (∀ k, k ≠ "id" →
       dict_get [("score", "10"); ("id", "new-id")] k
       = dict_get [("score", "10")] k)
  ∧ ∃ id, dict_get [("score", "10"); ("id", "new-id")] "id" = Some id
          ∧ (dict_get [("score", "10")] "id" = Some id
             ∧ (λ _ : string, Returned ()) id = Returned ()
             ∨ dict_get [("score", "10")] "id" = None
               ∧ (λ _ : unit, Returned "new-id") () = Returned id).
Proof.
  apply (prepare_options_returned ["score"] [("score", "10")]
           (λ _, Returned "new-id") (λ _, Returned ())).
  reflexivity.
Defined.

(** ** Updating a quorum device against adding one *)

Section update_against_add.
Context `{!Collaborators}.
Import config_validators.

Lemma value_empty_or_valid_sublist option_name inner options :
  validate.value_empty_or_valid option_name inner options `sublist_of`
  inner options.
Proof.
  unfold validate.value_empty_or_valid, validate._if_option_exists.
  destruct (dict_mem _ _); [|apply sublist_nil_l].
  destruct (dict_get options option_name) as [value|]; [|apply sublist_nil_l].
  destruct (validate.is_empty_string value); [apply sublist_nil_l|done].
Qed.

Lemma run_collection_app options validators1 validators2 :
  validate.run_collection_of_option_validators options
    (validators1 ++ validators2)
  = validate.run_collection_of_option_validators options validators1
    ++ validate.run_collection_of_option_validators options validators2.
Proof. apply flat_map_app. Qed.

Lemma empty_or_valid_sublist options validators :
  validate.run_collection_of_option_validators options
    (empty_or_valid validators)
  `sublist_of`
  validate.run_collection_of_option_validators options
    (validator_values validators).
Proof.
  unfold validate.run_collection_of_option_validators, empty_or_valid,
    validator_values.
  induction validators as [|[k v] vs IH]; [done|].
  cbn [fmap list_fmap flat_map fst snd].
  apply sublist_app; [apply value_empty_or_valid_sublist|apply IH].
Qed.

Lemma update_model_net_sublist options node_ids force_options :
  _qdevice_update_model_net_options options node_ids force_options
  `sublist_of` _qdevice_add_model_net_options options node_ids force_options.
Proof.
  unfold _qdevice_update_model_net_options, _qdevice_add_model_net_options.
  cbv zeta. apply sublist_app; [|done].
  rewrite run_collection_app. apply sublist_inserts_l.
  unfold _get_qdevice_model_net_options_validators. cbv zeta. cbn [negb].
  rewrite !run_collection_app. apply sublist_app; [done|].
  apply empty_or_valid_sublist.
Qed.

Lemma update_generic_sublist options force_options :
  _qdevice_update_generic_options options force_options
  `sublist_of` _qdevice_add_generic_options options force_options.
Proof.
  unfold _qdevice_update_generic_options, _qdevice_add_generic_options.
  apply sublist_app; [|done].
  unfold _get_qdevice_generic_options_validators. cbv zeta. cbn [negb].
  apply empty_or_valid_sublist.
Qed.

Lemma update_heuristics_sublist options force_options :
  _qdevice_update_heuristics_options options force_options
  `sublist_of` _qdevice_add_heuristics_options options force_options.
Proof.
  unfold _qdevice_update_heuristics_options, _qdevice_add_heuristics_options.
  cbv zeta. apply sublist_app; [|done].
  rewrite run_collection_app. apply sublist_inserts_r.
  unfold _get_qdevice_heuristics_options_validators. cbv zeta. cbn [negb].
  apply empty_or_valid_sublist.
Qed.

(** Updating is never stricter than adding. For the same model and
    options, the reports of [update_quorum_device] are among the reports
    of [add_quorum_device], in the same order: an update drops the
    required-option checks, the model check, the checks of empty values
    and of the values of the exec options, and adds no report of its
    own. *)
Theorem update_quorum_device_reports_among_add (model : string)
    (model_options generic_options heuristics_options : validate.option_dict)
    (node_ids : list string) (force_model force_options : bool) :
  update_quorum_device model model_options generic_options heuristics_options
    node_ids force_options
  `sublist_of`
  add_quorum_device model model_options generic_options heuristics_options
    node_ids force_model force_options.
Proof.
  unfold update_quorum_device, add_quorum_device. cbv zeta.
  apply sublist_app; [|apply sublist_app].
  - cbn [dict_get]. case_bool_decide; [|apply sublist_nil_l].
    apply update_model_net_sublist.
  - apply update_generic_sublist.
  - apply update_heuristics_sublist.
Qed.

End update_against_add.

(** ** [create_totem]: the accepted options *)

Section accepted_options.
Context `{!Collaborators}.
Import config_validators.

Lemma value_cond_nil option_name predicate value_type name f options :
  validate.value_cond option_name predicate value_type name f options = []
  ↔ ∀ value, dict_get options option_name = Some value →
      predicate value = true.
Proof.
  unfold validate.value_cond, validate._if_option_exists, dict_mem.
  destruct (dict_get options option_name) as [value|]; [|done].
  destruct (predicate value) eqn:Hp.
  - split; [|done]. by intros _ ? [= <-].
  - split; [done|]. intros Hall. specialize (Hall value eq_refl). congruence.
Qed.

Lemma run_collection_nil options (validators : list validate.validator) :
  validate.run_collection_of_option_validators options validators = []
  ↔ Forall (λ v : validate.validator, v options = []) validators.
Proof.
  unfold validate.run_collection_of_option_validators.
  induction validators as [|v vs IH]; [done|].
  cbn [flat_map]. by rewrite app_nil, Forall_cons, IH.
Qed.

Lemma names_in_nil allowed names option_type f :
  validate.names_in allowed names option_type f [] = []
  ↔ Forall (λ name, name ∈ allowed) names.
Proof.
  unfold validate.names_in. cbv zeta.
  induction names as [|name names IH]; [done|].
  rewrite filter_cons, Forall_cons. case_decide as Hname.
  - split; [done|]. intros [Hin _]. by destruct Hname.
  - rewrite IH. split; [|by intros [_ ?]]. intros Hrest. split; [|done].
    destruct (decide (name ∈ allowed)) as [|Hnin]; [done|].
    destruct Hname. split; [done|]. by intros ?%Exists_nil.
Qed.

(** Accepted totem options. [create_totem] returns no report exactly
    when every option name is one of the allowed totem options and
    every option value is a non-negative integer: each allowed option
    has its value checked, and no other option passes. *)
Theorem create_totem_accepts_iff (options : validate.option_dict) :
  create_totem options = []
  ↔ Forall (λ name, name ∈ totem_allowed_options) (dict_keys options)
    ∧ ∀ name value, dict_get options name = Some value →
        validate.is_integer value (Some 0%Z) None = true.
Proof.
  unfold create_totem. cbv zeta. rewrite app_nil, names_in_nil.
  change [validate.value_nonnegative_integer "consensus" validate.not_forceable;
          _; _; _; _; _; _; _; _; _; _; _; _; _; _; _; _]
    with ((λ name, validate.value_nonnegative_integer name
                     validate.not_forceable) <$> totem_allowed_options).
  rewrite run_collection_nil, Forall_fmap, Forall_forall.
  unfold compose, validate.value_nonnegative_integer.
  setoid_rewrite value_cond_nil. split.
  - intros [Hvalues Hnames]. split; [done|]. intros name value Hget.
    apply (Hvalues name); [|done].
    rewrite Forall_forall in Hnames. apply Hnames.
    by apply dict_get_Some_key in Hget.
  - intros [Hnames Hvalues]. split; [|done]. intros name _ value Hget.
    by apply (Hvalues name).
Qed.

End accepted_options.

(** ** [create] and its completed runs

    [create] returns exactly when no address lookup is ended by an
    exception other than [socket.gaierror], and what it returns then is
    what the completed run gives for the names that resolve. *)

Section create_refinement.
Context `{!Collaborators}.
Variable getaddrinfo : string → Lookup.
Import config_validators.

Lemma _get_address_type_cases address :
  _get_address_type getaddrinfo address
  = match getaddrinfo address with
    | OtherException exception =>
        if is_ipv4_address address || is_ipv6_address address
        then Returns (classify (resolves_of getaddrinfo) address)
        else Propagates exception
    | _ => Returns (classify (resolves_of getaddrinfo) address)
    end.
Proof.
  unfold _get_address_type, classify, resolves_of.
  destruct (is_ipv4_address address); [by destruct (getaddrinfo address)|].
  destruct (is_ipv6_address address); [by destruct (getaddrinfo address)|].
  by destruct (getaddrinfo address).
Qed.

Lemma _get_address_type_returned address t :
  _get_address_type getaddrinfo address = Returns t →
  t = classify (resolves_of getaddrinfo) address.
Proof.
  rewrite _get_address_type_cases.
  destruct (getaddrinfo address); [congruence..|].
  destruct (_ || _); congruence.
Qed.

Lemma lookup_returns_Returns address :
  lookup_returns getaddrinfo address
  ↔ _get_address_type getaddrinfo address
    = Returns (classify (resolves_of getaddrinfo) address).
Proof.
  unfold lookup_returns. split.
  - intros Hreturns.
    destruct (_get_address_type getaddrinfo address) as [t|exception] eqn:Ht.
    + by rewrite (_get_address_type_returned _ _ Ht).
    + by destruct (Hreturns exception).
  - intros -> exception. discriminate.
Qed.

Lemma lookup_returns_literal address :
  is_ipv4_address address || is_ipv6_address address = true →
  lookup_returns getaddrinfo address.
Proof.
  intros Hliteral exception. unfold _get_address_type.
  destruct (is_ipv4_address address); [discriminate|].
  destruct (is_ipv6_address address); [discriminate|]. discriminate.
Qed.

(** *** The address loop *)

Lemma addr_step_cases acc addr :
  addr_step getaddrinfo acc addr
  = match acc.1.2 !! addr with
    | Some _ =>
        Returns (completed_addr_step (resolves_of getaddrinfo) acc addr)
    | None =>
        match _get_address_type getaddrinfo addr with
        | Returns _ =>
            Returns (completed_addr_step (resolves_of getaddrinfo) acc addr)
        | Propagates exception => Propagates exception
        end
    end.
Proof.
  destruct acc as [[counts types] addr_types]. cbn [fst snd].
  unfold addr_step, completed_addr_step.
  destruct (types !! addr) as [t|]; [done|].
  destruct (_get_address_type getaddrinfo addr) as [t|exception] eqn:Ht;
    [|done].
  by rewrite (_get_address_type_returned _ _ Ht).
Qed.

Lemma completed_addr_step_types acc addr :
  (completed_addr_step (resolves_of getaddrinfo) acc addr).1.2
  = type_step (resolves_of getaddrinfo) acc.1.2 addr.
Proof.
  destruct acc as [[counts types] addr_types].
  unfold completed_addr_step, type_step. cbn [fst snd].
  by destruct (types !! addr).
Qed.

Lemma type_step_None types addr a :
  type_step (resolves_of getaddrinfo) types addr !! a = None →
  types !! a = None ∧ a ≠ addr.
Proof.
  unfold type_step. destruct (types !! addr) as [t|] eqn:Haddr.
  - intros Ha. split; [done|]. intros ->. congruence.
  - intros Ha. destruct (decide (addr = a)) as [->|Hne].
    + by rewrite lookup_insert_eq in Ha.
    + rewrite lookup_insert_ne in Ha by done. done.
Qed.

Lemma addr_loop_refines acc addr_list :
  (∀ a, a ∈ addr_list → acc.1.2 !! a = None →
        lookup_returns getaddrinfo a) →
  addr_loop getaddrinfo acc addr_list
  = Returns (foldl (completed_addr_step (resolves_of getaddrinfo)) acc addr_list).
Proof.
  revert acc. induction addr_list as [|addr rest IH]; intros acc Hall; [done|].
  cbn [addr_loop foldl]. rewrite addr_step_cases.
  assert (Hrest : addr_loop getaddrinfo
                    (completed_addr_step (resolves_of getaddrinfo) acc addr) rest
                  = Returns (foldl (completed_addr_step (resolves_of getaddrinfo))
                               (completed_addr_step (resolves_of getaddrinfo)
                                  acc addr) rest)).
  { apply IH. intros a Ha Hnone. rewrite completed_addr_step_types in Hnone.
    apply type_step_None in Hnone as [Hnone _].
    apply Hall; [by apply list_elem_of_further|done]. }
  destruct (acc.1.2 !! addr) as [t|] eqn:Haddr; [exact Hrest|].
  rewrite (proj1 (lookup_returns_Returns addr)); [exact Hrest|].
  apply Hall; [apply list_elem_of_here|done].
Qed.

Lemma addr_loop_returned acc addr_list acc' :
  addr_loop getaddrinfo acc addr_list = Returns acc' →
  ∀ a, a ∈ addr_list → acc.1.2 !! a = None → lookup_returns getaddrinfo a.
Proof.
  revert acc. induction addr_list as [|addr rest IH]; intros acc Hloop a Ha Hnone.
  { by apply elem_of_nil in Ha. }
  cbn [addr_loop] in Hloop. rewrite addr_step_cases in Hloop.
  assert (Hfirst : acc.1.2 !! addr = None → lookup_returns getaddrinfo addr).
  { intros Haddr. rewrite Haddr in Hloop.
    destruct (_get_address_type getaddrinfo addr) as [t|exception] eqn:Ht;
      [|done].
    intros exception. rewrite Ht. discriminate. }
  destruct (decide (a = addr)) as [->|Hne]; [by apply Hfirst|].
  apply elem_of_cons in Ha as [?|Ha]; [done|].
  assert (Hstep : addr_loop getaddrinfo
                    (completed_addr_step (resolves_of getaddrinfo) acc addr) rest
                  = Returns acc').
  { destruct (acc.1.2 !! addr) as [t|]; [done|].
    by destruct (_get_address_type getaddrinfo addr). }
  apply (IH _ Hstep a Ha). rewrite completed_addr_step_types.
  unfold type_step. destruct (acc.1.2 !! addr); [done|].
  by rewrite lookup_insert_ne.
Qed.

(** *** The node loop *)

Lemma node_step_refines transport st i node :
  (∀ a, a ∈ default [] (addrs node) → all_addrs_type st !! a = None →
        lookup_returns getaddrinfo a) →
  node_step getaddrinfo transport st i node
  = Returns (completed_node_step (resolves_of getaddrinfo) transport st i node).
Proof.
  intros Hall. unfold node_step. by rewrite addr_loop_refines.
Qed.

Lemma node_step_returned transport st i node st' :
  node_step getaddrinfo transport st i node = Returns st' →
  (∀ a, a ∈ default [] (addrs node) → all_addrs_type st !! a = None →
        lookup_returns getaddrinfo a).
Proof.
  unfold node_step. intros Hstep.
  destruct (addr_loop _ _ _) as [acc|exception] eqn:Hloop; [|done].
  apply (addr_loop_returned _ _ _ Hloop).
Qed.

Lemma completed_node_step_types transport st i node :
  all_addrs_type (completed_node_step (resolves_of getaddrinfo) transport st i node)
  = foldl (type_step (resolves_of getaddrinfo)) (all_addrs_type st)
      (default [] (addrs node)).
Proof. cbn [completed_node_step all_addrs_type]. apply addr_loop_types. Qed.

Lemma node_loop_refines transport i st node_list :
  (∀ a, a ∈ all_addrs node_list → all_addrs_type st !! a = None →
        lookup_returns getaddrinfo a) →
  node_loop getaddrinfo transport i st node_list
  = Returns (completed_node_loop (resolves_of getaddrinfo) transport i st
               node_list).
Proof.
  revert i st. induction node_list as [|node rest IH]; intros i st Hall; [done|].
  unfold all_addrs in Hall. rewrite bind_cons in Hall.
  cbn [node_loop completed_node_loop]. rewrite node_step_refines.
  - cbn. apply IH. intros a Ha Hnone. rewrite completed_node_step_types in Hnone.
    rewrite lookup_type_loop in Hnone.
    destruct (all_addrs_type st !! a) eqn:Hst; [done|].
    apply Hall; [|done]. apply elem_of_app. by right.
  - intros a Ha. apply Hall, elem_of_app. by left.
Qed.

Lemma node_loop_returned transport i st node_list st' :
  node_loop getaddrinfo transport i st node_list = Returns st' →
  ∀ a, a ∈ all_addrs node_list → all_addrs_type st !! a = None →
       lookup_returns getaddrinfo a.
Proof.
  revert i st. induction node_list as [|node rest IH]; intros i st Hloop a Ha Hnone.
  { by apply elem_of_nil in Ha. }
  unfold all_addrs in Ha. rewrite bind_cons in Ha.
  cbn [node_loop] in Hloop.
  destruct (node_step getaddrinfo transport st i node) as [st1|exception]
    eqn:Hstep; [|done].
  pose proof (node_step_returned _ _ _ _ _ Hstep) as Hnode.
  rewrite (node_step_refines _ _ _ _ Hnode) in Hstep. injection Hstep as <-.
  cbn in Hloop.
  destruct (decide (a ∈ default [] (addrs node))) as [Hin|Hnin];
    [by apply Hnode|].
  apply elem_of_app in Ha as [?|Ha]; [done|].
  apply (IH _ _ Hloop a Ha). rewrite completed_node_step_types, lookup_type_loop.
  rewrite Hnone. by rewrite decide_False.
Qed.

(** *** The call *)

(** Every lookup [create] makes for a node list returns or raises
    [socket.gaierror]. *)
Lemma create_run_refines cluster_name node_list transport force_unresolvable :
  (∀ a, a ∈ all_addrs node_list → lookup_returns getaddrinfo a) →
  create_run getaddrinfo cluster_name node_list transport force_unresolvable
  = Returns (completed_run (resolves_of getaddrinfo) cluster_name node_list
               transport force_unresolvable).
Proof.
  intros Hall. unfold create_run. rewrite node_loop_refines; [done|].
  intros a Ha _. by apply Hall.
Qed.

Lemma create_run_returned cluster_name node_list transport force_unresolvable
    result :
  create_run getaddrinfo cluster_name node_list transport force_unresolvable
  = Returns result →
  (∀ a, a ∈ all_addrs node_list → lookup_returns getaddrinfo a)
  ∧ result = completed_run (resolves_of getaddrinfo) cluster_name node_list
               transport force_unresolvable.
Proof.
  intros Hrun.
  assert (Hall : ∀ a, a ∈ all_addrs node_list → lookup_returns getaddrinfo a).
  { unfold create_run in Hrun.
    destruct (node_loop _ _ _ _ _) as [st|exception] eqn:Hloop; [|done].
    intros a Ha. by apply (node_loop_returned _ _ _ _ _ Hloop a Ha). }
  split; [done|]. rewrite create_run_refines in Hrun by done. congruence.
Qed.

Lemma create_refines cluster_name node_list transport force_unresolvable :
  (∀ a, a ∈ all_addrs node_list → lookup_returns getaddrinfo a) →
  create getaddrinfo cluster_name node_list transport force_unresolvable
  = Returns (completed_create (resolves_of getaddrinfo) cluster_name node_list
               transport force_unresolvable).
Proof. intros Hall. unfold create. by rewrite create_run_refines. Qed.

Lemma create_returned cluster_name node_list transport force_unresolvable
    returned :
  create getaddrinfo cluster_name node_list transport force_unresolvable
  = Returns returned →
  (∀ a, a ∈ all_addrs node_list → lookup_returns getaddrinfo a)
  ∧ returned = completed_create (resolves_of getaddrinfo) cluster_name
                 node_list transport force_unresolvable.
Proof.
  unfold create. intros Hcreate.
  destruct (create_run _ _ _ _ _) as [result|exception] eqn:Hrun; [|done].
  apply create_run_returned in Hrun as [Hall ->]. split; [done|].
  injection Hcreate as <-. done.
Qed.

Lemma create_run_create cluster_name node_list transport force_unresolvable
    returned built :
  create_run getaddrinfo cluster_name node_list transport force_unresolvable
  = Returns (returned, built) →
  create getaddrinfo cluster_name node_list transport force_unresolvable
  = Returns returned.
Proof. intros Hrun. unfold create. by rewrite Hrun. Qed.

(** [create] returns exactly when no lookup is ended by an exception. *)
Lemma create_returns_iff cluster_name node_list transport force_unresolvable :
  (∃ returned,
     create getaddrinfo cluster_name node_list transport force_unresolvable
     = Returns returned)
  ↔ ∀ a, a ∈ all_addrs node_list → lookup_returns getaddrinfo a.
Proof.
  split.
  - intros [returned Hcreate]. by apply create_returned in Hcreate as [? _].
  - intros Hall. eexists. by apply create_refines.
Qed.

Lemma classify_Returns address t :
  lookup_returns getaddrinfo address →
  classify (resolves_of getaddrinfo) address = t
  ↔ _get_address_type getaddrinfo address = Returns t.
Proof.
  intros Hreturns%lookup_returns_Returns. rewrite Hreturns. split; congruence.
Qed.

End create_refinement.

(** ** [create]: the claims about its reports *)

Section create_claims.
Context `{!Collaborators}.
Variable getaddrinfo : string → Lookup.
Import config_validators.

Lemma node_loop_returned_state cluster_name node_list transport st :
  node_loop getaddrinfo transport 1 (initial_state cluster_name transport)
    node_list = Returns st →
  st = completed_state (resolves_of getaddrinfo) cluster_name node_list
         transport.
Proof.
  intros Hloop. pose proof (node_loop_returned _ _ _ _ _ _ Hloop) as Hall.
  rewrite node_loop_refines in Hloop by done. by injection Hloop as <-.
Qed.

(** C1: the address-count-mismatch report is built and dropped. When
    every node has a present, non-empty and unique name, the transport is
    not udp or udpu, and two nodes differ in their number of addresses,
    every call of [create] that returns has built the
    node-address-count-mismatch report for the address counts of the
    nodes, but the report is not in the returned sequence: the returned
    sequence contains no report of that code. The call returns whenever
    no address lookup is ended by an exception. *)
Theorem create_drops_address_count_mismatch (cluster_name : string)
    (node_list : list Node) (transport : string) (force_unresolvable : bool)
    (node_a node_b : Node) :
  Forall (λ node, has_usable_name node = true) node_list →
  NoDup (name <$> node_list) →
  transport ∉ constants.TRANSPORTS_UDP →
  node_a ∈ node_list → node_b ∈ node_list →
  addr_count node_a ≠ addr_count node_b →
  (∀ returned built,
     create_run getaddrinfo cluster_name node_list transport force_unresolvable
     = Returns (returned, built) →
     create getaddrinfo cluster_name node_list transport force_unresolvable
     = Returns returned
     ∧ built
       = [reports.corosync_node_address_count_mismatch
            (node_addr_count node_list)]
     ∧ reports_of COROSYNC_NODE_ADDRESS_COUNT_MISMATCH returned = [])
  ∧ ((∀ a, a ∈ all_addrs node_list → lookup_returns getaddrinfo a) →
     ∃ returned built,
       create_run getaddrinfo cluster_name node_list transport
         force_unresolvable
       = Returns (returned, built)).
Proof.
  intros Hnames Hunique Htransport Ha Hb Hdiffer. split.
  - intros returned built Hrun. split; [by eapply create_run_create|].
    apply create_run_returned in Hrun as [_ Hrun].
    destruct (completed_run_drops_count_mismatch (resolves_of getaddrinfo)
                cluster_name node_list transport force_unresolvable
                node_a node_b Hnames Hunique Htransport Ha Hb Hdiffer)
      as [Hbuilt Hreturned].
    unfold completed_create in Hreturned. rewrite <- Hrun in Hbuilt, Hreturned.
    done.
  - intros Hall. eexists _, _. rewrite create_run_refines by done.
    by rewrite <- surjective_pairing.
Qed.

(** C4: duplicated node names. For the two-node example of the spec, both
    nodes named ["n1"] with one address each and transport ["knet"], the
    sequence [create] returns contains exactly one duplicate-node-name
    report, naming ["n1"], and no address-count-range report. In general,
    when two nodes of the node list carry the same name, the names are
    not usable at the test that guards the cross-node address-count
    check, so the check is skipped: no address-count-mismatch report is
    built, and none is returned. Each call returns whenever no address
    lookup is ended by an exception, as is the case for the literal
    addresses of the example. *)
Theorem create_duplicate_node_names (cluster_name : string)
    (node_list : list Node) (transport : string) (force_unresolvable : bool) :
  ( (∀ returned,
       create getaddrinfo "c1" duplicate_name_example "knet" false
       = Returns returned →
       reports_of COROSYNC_NODE_NAME_DUPLICATION returned
       = [reports.corosync_node_name_duplication {["n1"]}]
       ∧ reports_of COROSYNC_BAD_NODE_ADDRESSES_COUNT returned = [])
    ∧ ((∀ a, a ∈ all_addrs duplicate_name_example →
             lookup_returns getaddrinfo a) →
       ∃ returned,
         create getaddrinfo "c1" duplicate_name_example "knet" false
         = Returns returned) )
  ∧ ∀ i j node_i node_j n,
      i ≠ j →
      node_list !! i = Some node_i → node_list !! j = Some node_j →
      name node_i = Some n → name node_j = Some n →
      (∀ st,
         node_loop getaddrinfo transport 1
           (initial_state cluster_name transport) node_list
         = Returns st →
         names_usable st = false)
      ∧ (∀ returned built,
           create_run getaddrinfo cluster_name node_list transport
             force_unresolvable
           = Returns (returned, built) →
           create getaddrinfo cluster_name node_list transport
             force_unresolvable
           = Returns returned
           ∧ built = []
           ∧ reports_of COROSYNC_NODE_ADDRESS_COUNT_MISMATCH returned = [])
      ∧ ((∀ a, a ∈ all_addrs node_list → lookup_returns getaddrinfo a) →
         ∃ returned built,
           create_run getaddrinfo cluster_name node_list transport
             force_unresolvable
           = Returns (returned, built)).
Proof.
  split; [split|].
  - intros returned [_ ->]%create_returned.
    apply (completed_run_duplicate_node_names (resolves_of getaddrinfo)
             cluster_name node_list transport force_unresolvable).
  - intros Hall. eexists. by apply create_refines.
  - intros i j node_i node_j n Hij Hi Hj Hni Hnj.
    destruct (proj2 (completed_run_duplicate_node_names
                       (resolves_of getaddrinfo) cluster_name node_list
                       transport force_unresolvable)
                i j node_i node_j n Hij Hi Hj Hni Hnj)
      as (Husable & Hbuilt & Hreturned).
    split; [|split].
    + by intros st ->%node_loop_returned_state.
    + intros returned built Hrun. split; [by eapply create_run_create|].
      apply create_run_returned in Hrun as [_ Hrun].
      unfold completed_create in Hreturned.
      rewrite <- Hrun in Hbuilt, Hreturned. done.
    + intros Hall. eexists _, _. rewrite create_run_refines by done.
      by rewrite <- surjective_pairing.
Qed.

(** C5, as amended: the report of unresolvable addresses. A call of
    [create] returns exactly when no address lookup is ended by an
    exception other than [socket.gaierror]. When it returns and the node
    list holds at least one address that [_get_address_type] classifies
    as unresolvable, the returned sequence contains exactly one
    unresolvable-addresses report; it covers exactly the unresolvable
    addresses of the node list; it is an ERROR carrying
    FORCE_NODE_ADDRESSES_UNRESOLVABLE when [force_unresolvable] is false,
    and a WARNING without a force code when it is true. *)
Theorem create_unresolvable_addresses_report (cluster_name : string)
    (node_list : list Node) (transport : string) (force_unresolvable : bool)
    (address : string) :
  address ∈ all_addrs node_list →
  _get_address_type getaddrinfo address = Returns unresolvable →
  ((∃ returned,
      create getaddrinfo cluster_name node_list transport force_unresolvable
      = Returns returned)
   ↔ ∀ a, a ∈ all_addrs node_list → lookup_returns getaddrinfo a)
  ∧ ∀ returned,
      create getaddrinfo cluster_name node_list transport force_unresolvable
      = Returns returned →
      ∃ addresses : gset string,
        reports_of NODE_ADDRESSES_UNRESOLVABLE returned
        = [ mkReport (if force_unresolvable then WARNING else ERROR)
              (if force_unresolvable then None
               else Some FORCE_NODE_ADDRESSES_UNRESOLVABLE)
              (NodeAddressesUnresolvable addresses) ]
        ∧ ∀ a, a ∈ addresses
               ↔ a ∈ all_addrs node_list
                 ∧ _get_address_type getaddrinfo a = Returns unresolvable.
Proof.
  intros Hin Htype. split; [apply create_returns_iff|].
  intros returned [Hall ->]%create_returned.
  destruct (completed_unresolvable_addresses_report (resolves_of getaddrinfo)
              cluster_name node_list transport force_unresolvable address Hin)
    as (addresses & Hreport & Hmem).
  { apply classify_Returns; [by apply Hall|done]. }
  exists addresses. split; [done|]. intros a. rewrite Hmem. split.
  - intros [Ha Hclass]. split; [done|]. apply classify_Returns; [|done].
    by apply Hall.
  - intros [Ha Hclass]. split; [done|]. apply classify_Returns in Hclass; [done|].
    by apply Hall.
Qed.

Lemma addr_loop_agree (getaddrinfo' : string → Lookup) acc addr_list :
  (∀ a, a ∈ addr_list →
        _get_address_type getaddrinfo a = _get_address_type getaddrinfo' a) →
  addr_loop getaddrinfo acc addr_list = addr_loop getaddrinfo' acc addr_list.
Proof.
  revert acc. induction addr_list as [|addr rest IH]; intros acc Hagree; [done|].
  cbn [addr_loop].
  assert (Hstep : addr_step getaddrinfo acc addr
                  = addr_step getaddrinfo' acc addr).
  { unfold addr_step. destruct acc as [[counts types] addr_types].
    rewrite (Hagree addr); [done|]. apply list_elem_of_here. }
  rewrite Hstep.
  destruct (addr_step getaddrinfo' acc addr) as [acc'|exception]; [|done]. cbn.
  apply IH. intros a Ha. apply Hagree. by apply list_elem_of_further.
Qed.

Lemma node_loop_agree (getaddrinfo' : string → Lookup) transport i st
    node_list :
  (∀ a, a ∈ all_addrs node_list →
        _get_address_type getaddrinfo a = _get_address_type getaddrinfo' a) →
  node_loop getaddrinfo transport i st node_list
  = node_loop getaddrinfo' transport i st node_list.
Proof.
  revert i st. induction node_list as [|node rest IH]; intros i st Hagree;
    [done|].
  unfold all_addrs in Hagree. rewrite bind_cons in Hagree.
  cbn [node_loop].
  assert (Hstep : node_step getaddrinfo transport st i node
                  = node_step getaddrinfo' transport st i node).
  { unfold node_step. rewrite (addr_loop_agree getaddrinfo'); [done|].
    intros a Ha. apply Hagree, elem_of_app. by left. }
  rewrite Hstep.
  destruct (node_step getaddrinfo' transport st i node) as [st'|exception];
    [|done].
  cbn. apply IH. intros a Ha. apply Hagree, elem_of_app. by right.
Qed.

End create_claims.

Lemma _get_address_type_agree `{!Collaborators} (g1 g2 : string → Lookup) a :
  (is_ipv4_address a = false → is_ipv6_address a = false → g1 a = g2 a) →
  config_validators._get_address_type g1 a
  = config_validators._get_address_type g2 a.
Proof.
  intros Hagree. unfold config_validators._get_address_type.
  destruct (is_ipv4_address a); [done|].
  destruct (is_ipv6_address a); [done|].
  by rewrite Hagree.
Qed.

(** C9, as amended: two calls of [create] with identical arguments come
    to the same end, the same ordered report sequence or the same
    exception, provided the address lookup does the same at both calls
    (it returns, raises [socket.gaierror], or raises the same other
    exception) for every address of the node list that is neither an IPv4
    nor an IPv6 literal. Nothing else is carried from one call to the
    next. *)
Theorem create_repeated_call `{!Collaborators}
    (getaddrinfo1 getaddrinfo2 : string → Lookup)
    (cluster_name : string) (node_list : list Node) (transport : string)
    (force_unresolvable : bool) :
  (∀ a, a ∈ all_addrs node_list →
        is_ipv4_address a = false → is_ipv6_address a = false →
        getaddrinfo1 a = getaddrinfo2 a) →
  config_validators.create getaddrinfo1 cluster_name node_list transport
    force_unresolvable
  = config_validators.create getaddrinfo2 cluster_name node_list transport
      force_unresolvable.
Proof.
  intros Hagree. unfold config_validators.create, config_validators.create_run.
  rewrite (node_loop_agree getaddrinfo1 getaddrinfo2); [done|].
  intros a Ha. apply _get_address_type_agree. by apply Hagree.
Qed.

Lemma create_drops_address_count_mismatch_witness :
  ∃ returned,
    @config_validators.create sample_collaborators
      (λ _, OtherException "UnicodeError") "c1" count_mismatch_example "knet"
      false
    = Returns returned
    ∧ @config_validators.create_run sample_collaborators
        (λ _, OtherException "UnicodeError") "c1" count_mismatch_example
        "knet" false
      = Returns
          (returned,
           [reports.corosync_node_address_count_mismatch
              (config_validators.node_addr_count count_mismatch_example)])
    ∧ reports_of COROSYNC_NODE_ADDRESS_COUNT_MISMATCH returned = [].
Proof.
  destruct (@create_drops_address_count_mismatch sample_collaborators
              (λ _, OtherException "UnicodeError")
              "c1" count_mismatch_example "knet" false
              (mkNode (Some "n1") (Some ["10.0.0.1"]))
              (mkNode (Some "n2") (Some ["10.0.0.2"; "10.0.0.3"])))
    as [Hall Hreturns].
  - repeat constructor.
  - apply (bool_decide_unpack _). vm_compute. exact I.
  - apply (bool_decide_unpack _). vm_compute. exact I.
  - apply list_elem_of_here.
  - apply list_elem_of_further, list_elem_of_here.
  - vm_compute. lia.
  - destruct Hreturns as (returned & built & Hrun).
    + intros a Ha. apply lookup_returns_literal. revert a Ha.
      apply Forall_forall. by repeat constructor.
    + destruct (Hall returned built Hrun) as (Hcreate & Hbuilt & Hnone).
      exists returned. split; [exact Hcreate|]. split; [|exact Hnone].
      rewrite Hrun. by rewrite Hbuilt.
Defined.

Lemma create_duplicate_node_names_witness :
  ∃ returned,
    @config_validators.create sample_collaborators
      (λ _, OtherException "UnicodeError") "c1" duplicate_name_example "knet"
      false
    = Returns returned
    ∧ @config_validators.create_run sample_collaborators
        (λ _, OtherException "UnicodeError") "c1" duplicate_name_example
        "knet" false
      = Returns (returned, [])
    ∧ reports_of COROSYNC_NODE_NAME_DUPLICATION returned
      = [reports.corosync_node_name_duplication {["n1"]}]
    ∧ reports_of COROSYNC_BAD_NODE_ADDRESSES_COUNT returned = []
    ∧ reports_of COROSYNC_NODE_ADDRESS_COUNT_MISMATCH returned = [].
Proof.
  destruct (@create_duplicate_node_names sample_collaborators
              (λ _, OtherException "UnicodeError")
              "c1" duplicate_name_example "knet" false)
    as [[Hexample _] Hgeneral].
  destruct (Hgeneral 0 1 (mkNode (Some "n1") (Some ["10.0.0.1"]))
              (mkNode (Some "n1") (Some ["10.0.0.2"])) "n1")
    as (_ & Hall & Hreturns); [lia|reflexivity..|].
  destruct Hreturns as (returned & built & Hrun).
  - intros a Ha. apply lookup_returns_literal. revert a Ha.
    apply Forall_forall. by repeat constructor.
  - destruct (Hall returned built Hrun) as (Hcreate & Hbuilt & Hnone).
    destruct (Hexample returned Hcreate) as [Hdup Hbad].
    exists returned. split; [exact Hcreate|]. split; [|by auto].
    rewrite Hrun. by rewrite Hbuilt.
Defined.

Lemma create_unresolvable_addresses_report_witness :
  ∃ returned (addresses : gset string),
    @config_validators.create sample_collaborators sample_getaddrinfo "c1"
      unknown_host_example "knet" true
    = Returns returned
    ∧ reports_of NODE_ADDRESSES_UNRESOLVABLE returned
      = [ mkReport WARNING None (NodeAddressesUnresolvable addresses) ]
    ∧ ∀ a, a ∈ addresses
           ↔ a ∈ all_addrs unknown_host_example
             ∧ @config_validators._get_address_type sample_collaborators
                 sample_getaddrinfo a = Returns unresolvable.
Proof.
  destruct (@create_unresolvable_addresses_report sample_collaborators
              sample_getaddrinfo "c1" unknown_host_example "knet" true
              "no-such-host")
    as [Hreturns Hreport].
  - apply (bool_decide_unpack _). vm_compute. exact I.
  - vm_compute. reflexivity.
  - destruct (proj2 Hreturns) as [returned Hcreate].
    + intros a Ha exception. revert a Ha. apply Forall_forall.
      repeat constructor; by vm_compute.
    + destruct (Hreport returned Hcreate) as (addresses & Hone & Hmem).
      exists returned, addresses. split; [exact Hcreate|].
      split; [exact Hone|exact Hmem].
Defined.

(** C5, as stated, fails: the node list holds an unresolvable address,
    and the call returns no sequence at all, because the lookup of
    another address raises an exception that [_get_address_type] does not
    catch. *)
Lemma create_unresolvable_addresses_report_fails :
  "no-such-host" ∈ all_addrs unicode_error_example
  ∧ @config_validators._get_address_type sample_collaborators
      sample_getaddrinfo "no-such-host" = Returns unresolvable
  ∧ @config_validators.create sample_collaborators sample_getaddrinfo "c1"
      unicode_error_example "knet" false
    = Propagates "UnicodeError"
  ∧ ¬ ∃ returned,
        @config_validators.create sample_collaborators sample_getaddrinfo
          "c1" unicode_error_example "knet" false
        = Returns returned.
Proof.
  split; [|split; [|split]].
  - apply (bool_decide_unpack _). vm_compute. exact I.
  - by vm_compute.
  - by vm_compute.
  - intros [returned Hcreate]. by vm_compute in Hcreate.
Qed.

(** C9, as stated, fails: the same arguments give different report
    sequences when the name of a node address resolves at one call and
    not at the other. *)
Lemma create_repeated_call_differs :
  @config_validators.create sample_collaborators (λ _, Resolved) "c1"
    host_name_example "knet" false
  ≠ @config_validators.create sample_collaborators (λ _, Gaierror) "c1"
      host_name_example "knet" false.
Proof. vm_compute. discriminate. Qed.

Lemma create_repeated_call_witness :
  @config_validators.create sample_collaborators sample_getaddrinfo "c1"
    looked_up_example "knet" false
  = @config_validators.create sample_collaborators other_getaddrinfo "c1"
      looked_up_example "knet" false.
Proof.
  apply (@create_repeated_call sample_collaborators sample_getaddrinfo
           other_getaddrinfo "c1" looked_up_example "knet" false).
  assert (Hagree : Forall (λ a,
            @is_ipv4_address sample_collaborators a = false →
            @is_ipv6_address sample_collaborators a = false →
            sample_getaddrinfo a = other_getaddrinfo a)
            (all_addrs looked_up_example)).
  { repeat constructor; by vm_compute. }
  intros a Ha. by apply (proj1 (Forall_forall _ _) Hagree).
Defined.

(** ** [create]: further properties of the returned reports *)

Section create_more.
Context `{!Collaborators}.
Variable getaddrinfo : string → Lookup.
Import config_validators.

(** The types met on a link, in a call whose lookups return. *)
Lemma link_has_type_completed node_list link t :
  (∀ a, a ∈ all_addrs node_list → lookup_returns getaddrinfo a) →
  (∃ node, node ∈ node_list
           ∧ node_addr_types (resolves_of getaddrinfo) node !! link = Some t)
  ↔ link_has_type getaddrinfo node_list link t.
Proof.
  intros Hall. unfold link_has_type, node_addr_types. split.
  - intros (node & Hnode & Hlink). rewrite list_lookup_fmap in Hlink.
    destruct (default [] (addrs node) !! link) as [address|] eqn:Haddress;
      [|done].
    injection Hlink as Hclass. exists node, address. split; [done|].
    split; [done|]. apply classify_Returns; [|done]. apply Hall.
    unfold all_addrs. apply list_elem_of_bind. exists node. split; [|done].
    by eapply list_elem_of_lookup_2.
  - intros (node & address & Hnode & Haddress & Htype). exists node.
    split; [done|]. rewrite list_lookup_fmap, Haddress. cbn. f_equal.
    apply classify_Returns; [|done]. apply Hall.
    unfold all_addrs. apply list_elem_of_bind. exists node. split; [|done].
    by eapply list_elem_of_lookup_2.
Qed.

Lemma link_mixes_completed node_list link :
  (∀ a, a ∈ all_addrs node_list → lookup_returns getaddrinfo a) →
  link_mixes_ip_versions (resolves_of getaddrinfo) node_list link
  ↔ link_has_type getaddrinfo node_list link IPv4
    ∧ link_has_type getaddrinfo node_list link IPv6.
Proof.
  intros Hall. unfold link_mixes_ip_versions.
  by rewrite !(link_has_type_completed _ _ _ Hall).
Qed.

(** Duplicated addresses. When [create] returns, the returned sequence
    holds at most one address-duplication report; the report is there
    exactly when some address occurs more than once among the addresses
    of all nodes, be it in two nodes or twice in one node, and it names
    exactly those addresses. When all addresses are different there is
    no such report. *)
Theorem create_address_duplication_report (cluster_name : string)
    (node_list : list Node) (transport : string) (force_unresolvable : bool)
    (returned : list ReportItem) :
  create getaddrinfo cluster_name node_list transport force_unresolvable
  = Returns returned →
  ∃ duplicated : gset string,
    (∀ a, a ∈ duplicated ↔ 2 ≤ occurrences a (all_addrs node_list))
    ∧ reports_of COROSYNC_NODE_ADDRESS_DUPLICATION returned
      = (if decide (duplicated = ∅) then []
         else [reports.corosync_node_address_duplication duplicated])
    ∧ (NoDup (all_addrs node_list) → duplicated = ∅).
Proof.
  intros [_ ->]%create_returned. eexists.
  apply (completed_address_duplication_report (resolves_of getaddrinfo)
           cluster_name node_list transport force_unresolvable).
Qed.

(** Mixed IP versions. When [create] returns, a link is reported exactly
    when some node has an IPv4 address and some node an IPv6 address at
    that position of their address lists, by the types
    [_get_address_type] gives. The returned sequence holds one report
    with all such links, each once, or none when there is no such
    link. *)
Theorem create_ip_version_mismatch_report (cluster_name : string)
    (node_list : list Node) (transport : string) (force_unresolvable : bool)
    (returned : list ReportItem) :
  create getaddrinfo cluster_name node_list transport force_unresolvable
  = Returns returned →
  ∃ links : list nat,
    (∀ link, link ∈ links
             ↔ link_has_type getaddrinfo node_list link IPv4
               ∧ link_has_type getaddrinfo node_list link IPv6)
    ∧ NoDup links
    ∧ reports_of COROSYNC_IP_VERSION_MISMATCH_IN_LINKS returned
      = match links with
        | [] => []
        | _ => [reports.corosync_ip_version_mismatch_in_links links]
        end.
Proof.
  intros [Hall ->]%create_returned.
  destruct (completed_ip_version_mismatch_report (resolves_of getaddrinfo)
              cluster_name node_list transport force_unresolvable)
    as (Hmem & Hnodup & Hreport).
  eexists. split; [|split; [exact Hnodup|exact Hreport]].
  intros link. rewrite Hmem. by apply link_mixes_completed.
Qed.

(** Address counts. When [create] returns for a transport of the knet or
    udp family, it reports every node whose number of addresses is
    outside the bounds of the family, once, in the order of the node
    list, with the count, the bounds, the node's name and its 1-based
    position; for any other transport it reports no address count. *)
Theorem create_bad_address_count_reports (cluster_name : string)
    (node_list : list Node) (transport : string) (force_unresolvable : bool)
    (returned : list ReportItem) :
  create getaddrinfo cluster_name node_list transport force_unresolvable
  = Returns returned →
  reports_of COROSYNC_BAD_NODE_ADDRESSES_COUNT returned
  = match addr_count_bounds transport with
    | Some (lo, hi) =>
        (λ p : nat * Node,
           reports.corosync_bad_node_addresses_count (addr_count p.2) lo hi
             (name p.2) p.1)
        <$> filter (λ p : nat * Node, addr_count_out_of_bounds lo hi p.2)
              (enumerate_from_1 node_list)
    | None => []
    end.
Proof.
  intros [_ ->]%create_returned.
  apply completed_bad_address_count_reports.
Qed.

(** Severities. Of the reports [create] returns, only the report of
    unresolvable addresses can be overridden: it is an ERROR carrying
    the force code of unresolvable addresses, or a WARNING without a
    force code when the caller forces. Every other report is an ERROR
    without a force code. *)
Theorem create_report_severities (cluster_name : string)
    (node_list : list Node) (transport : string) (force_unresolvable : bool)
    (returned : list ReportItem) :
  create getaddrinfo cluster_name node_list transport force_unresolvable
  = Returns returned →
  Forall (λ r,
            if bool_decide (code r = NODE_ADDRESSES_UNRESOLVABLE)
            then if force_unresolvable
                 then severity r = WARNING ∧ forceable r = None
                 else severity r = ERROR
                      ∧ forceable r = Some FORCE_NODE_ADDRESSES_UNRESOLVABLE
            else plain_error r)
    returned.
Proof.
  intros [_ ->]%create_returned. apply completed_report_severities.
Qed.

(** The force flag. Forcing changes nothing but the report of
    unresolvable addresses: a call with [force_unresolvable] set comes to
    the end the call without comes to, the same exception or the same
    sequence with that one report turned into a WARNING without a force
    code. *)
Theorem create_force_unresolvable_effect (cluster_name : string)
    (node_list : list Node) (transport : string) :
  create getaddrinfo cluster_name node_list transport true
  = (λ returned : list ReportItem, with_unresolvable_forced <$> returned)
    <$> create getaddrinfo cluster_name node_list transport false.
Proof.
  unfold create, create_run.
  destruct (node_loop getaddrinfo transport 1
              (initial_state cluster_name transport) node_list)
    as [st|exception] eqn:Hloop; [|done].
  apply node_loop_returned_state in Hloop as ->. cbn. f_equal.
  apply (completed_force_unresolvable_effect (resolves_of getaddrinfo)
           cluster_name node_list transport).
Qed.

(** Accepted configurations. [create] returns no report at all exactly
    when the cluster name is not empty, the transport is a known one,
    every node has a non-empty name and a number of addresses within the
    bounds of the transport, no name is carried by two nodes, every
    address is given a type other than unresolvable, so that no lookup
    is ended by an exception, no address is used twice, and no link
    mixes IPv4 and IPv6; the force flag makes no difference to that. *)
Theorem create_accepts_iff (cluster_name : string) (node_list : list Node)
    (transport : string) (force_unresolvable : bool) :
  create getaddrinfo cluster_name node_list transport force_unresolvable
  = Returns []
  ↔ cluster_name ≠ ""
    ∧ transport ∈ constants.TRANSPORTS_ALL
    ∧ (∀ node, node ∈ node_list →
         has_usable_name node = true
         ∧ ∀ lo hi, addr_count_bounds transport = Some (lo, hi) →
             lo ≤ addr_count node ≤ hi)
    ∧ (∀ n, name_count n node_list ≤ 1)
    ∧ (∀ a, a ∈ all_addrs node_list →
         ∃ t, _get_address_type getaddrinfo a = Returns t ∧ t ≠ unresolvable)
    ∧ (∀ a, occurrences a (all_addrs node_list) ≤ 1)
    ∧ (∀ link, ¬ (link_has_type getaddrinfo node_list link IPv4
                  ∧ link_has_type getaddrinfo node_list link IPv6)).
Proof.
  split.
  - intros [Hall Hnil]%create_returned. symmetry in Hnil.
    apply completed_create_accepts_iff in Hnil
      as (Hname & Htransport & Hnodes & Hnames & Htypes & Haddrs & Hlinks).
    split; [done|]. split; [done|]. split; [done|]. split; [done|].
    split; [|split; [done|]].
    + intros a Ha. exists (classify (resolves_of getaddrinfo) a).
      split; [|by apply Htypes]. by apply lookup_returns_Returns, Hall.
    + intros link Hmix. apply (Hlinks link). by apply link_mixes_completed.
  - intros (Hname & Htransport & Hnodes & Hnames & Htypes & Haddrs & Hlinks).
    assert (Hall : ∀ a, a ∈ all_addrs node_list →
                        lookup_returns getaddrinfo a).
    { intros a Ha exception. destruct (Htypes a Ha) as (t & -> & _).
      discriminate. }
    rewrite create_refines by done. f_equal.
    apply completed_create_accepts_iff.
    split; [done|]. split; [done|]. split; [done|]. split; [done|].
    split; [|split; [done|]].
    + intros a Ha. destruct (Htypes a Ha) as (t & Ht & Hne).
      apply _get_address_type_returned in Ht. by rewrite <- Ht.
    + intros link Hmix. apply (Hlinks link). by apply link_mixes_completed.
Qed.

End create_more.

Lemma looked_up_example_returns :
  ∃ returned,
    @config_validators.create sample_collaborators sample_getaddrinfo "c1"
      looked_up_example "udp" false
    = Returns returned.
Proof. eexists. vm_compute. reflexivity. Defined.

Lemma create_address_duplication_report_witness :
  ∃ (returned : list ReportItem) (duplicated : gset string),
    @config_validators.create sample_collaborators sample_getaddrinfo "c1"
      looked_up_example "udp" false
    = Returns returned
    ∧ (∀ a, a ∈ duplicated ↔ 2 ≤ occurrences a (all_addrs looked_up_example))
    ∧ reports_of COROSYNC_NODE_ADDRESS_DUPLICATION returned
      = (if decide (duplicated = ∅) then []
         else [reports.corosync_node_address_duplication duplicated])
    ∧ (NoDup (all_addrs looked_up_example) → duplicated = ∅).
Proof.
  destruct looked_up_example_returns as [returned Hcreate].
  destruct (@create_address_duplication_report sample_collaborators
              sample_getaddrinfo "c1" looked_up_example "udp" false returned
              Hcreate) as (duplicated & Hmem & Hreport & Hnodup).
  exists returned, duplicated. split; [exact Hcreate|].
  split; [exact Hmem|]. split; [exact Hreport|exact Hnodup].
Defined.

Lemma create_ip_version_mismatch_report_witness :
  ∃ (returned : list ReportItem) (links : list nat),
    @config_validators.create sample_collaborators sample_getaddrinfo "c1"
      looked_up_example "udp" false
    = Returns returned
    ∧ (∀ link, link ∈ links
               ↔ @link_has_type sample_collaborators sample_getaddrinfo
                   looked_up_example link IPv4
                 ∧ @link_has_type sample_collaborators sample_getaddrinfo
                     looked_up_example link IPv6)
    ∧ NoDup links
    ∧ reports_of COROSYNC_IP_VERSION_MISMATCH_IN_LINKS returned
      = match links with
        | [] => []
        | _ => [reports.corosync_ip_version_mismatch_in_links links]
        end.
Proof.
  destruct looked_up_example_returns as [returned Hcreate].
  destruct (@create_ip_version_mismatch_report sample_collaborators
              sample_getaddrinfo "c1" looked_up_example "udp" false returned
              Hcreate) as (links & Hmem & Hnodup & Hreport).
  exists returned, links. split; [exact Hcreate|].
  split; [exact Hmem|]. split; [exact Hnodup|exact Hreport].
Defined.

Lemma create_bad_address_count_reports_witness :
  ∃ returned : list ReportItem,
    @config_validators.create sample_collaborators sample_getaddrinfo "c1"
      looked_up_example "udp" false
    = Returns returned
    ∧ reports_of COROSYNC_BAD_NODE_ADDRESSES_COUNT returned
      = [ reports.corosync_bad_node_addresses_count 2 1 1 (Some "n1") 1;
          reports.corosync_bad_node_addresses_count 2 1 1 (Some "n2") 2;
          reports.corosync_bad_node_addresses_count 0 1 1 (Some "n3") 3 ].
Proof.
  destruct looked_up_example_returns as [returned Hcreate].
  exists returned. split; [exact Hcreate|].
  rewrite (@create_bad_address_count_reports sample_collaborators
             sample_getaddrinfo "c1" looked_up_example "udp" false returned
             Hcreate).
  reflexivity.
Defined.

Lemma create_report_severities_witness :
  ∃ returned : list ReportItem,
    @config_validators.create sample_collaborators sample_getaddrinfo "c1"
      unknown_host_example "knet" false
    = Returns returned
    ∧ Forall (λ r,
                if bool_decide (code r = NODE_ADDRESSES_UNRESOLVABLE)
                then severity r = ERROR
                     ∧ forceable r = Some FORCE_NODE_ADDRESSES_UNRESOLVABLE
                else plain_error r)
        returned.
Proof.
  assert (Hreturns : ∃ returned,
            @config_validators.create sample_collaborators sample_getaddrinfo
              "c1" unknown_host_example "knet" false
            = Returns returned) by (eexists; vm_compute; reflexivity).
  destruct Hreturns as [returned Hcreate].
  exists returned. split; [exact Hcreate|].
  exact (@create_report_severities sample_collaborators sample_getaddrinfo
           "c1" unknown_host_example "knet" false returned Hcreate).
Defined.

Lemma create_accepts_iff_witness :
  @config_validators.create sample_collaborators sample_getaddrinfo "cluster"
    accepted_host_example "knet" false = Returns [].
Proof.
  apply (@create_accepts_iff sample_collaborators).
  split; [done|]. split; [code_absent|]. split; [|split; [|split; [|split]]].
  - intros node Hin. split.
    + revert node Hin. apply Forall_forall. by repeat constructor.
    + intros lo hi [= <- <-]. revert node Hin. apply Forall_forall.
      repeat constructor; vm_compute; lia.
  - intros n. unfold name_count, accepted_host_example.
    rewrite !filter_cons, filter_nil. cbn [name].
    repeat case_decide; simplify_eq; cbn; lia.
  - assert (Htypes : Forall (λ a,
              ∃ t, @config_validators._get_address_type sample_collaborators
                     sample_getaddrinfo a = Returns t ∧ t ≠ unresolvable)
              (all_addrs accepted_host_example)).
    { repeat constructor; eexists; (split; [vm_compute; reflexivity|done]). }
    intros a Ha. by apply (proj1 (Forall_forall _ _) Htypes).
  - intros a. apply occurrences_NoDup. apply (bool_decide_unpack _).
    vm_compute. exact I.
  - intros link [(n4 & a4 & Hn4 & Ha4 & H4) (n6 & a6 & Hn6 & Ha6 & H6)].
    apply list_elem_of_In in Hn4, Hn6.
    destruct Hn4 as [<-|[<-|[]]], Hn6 as [<-|[<-|[]]];
      destruct link as [|[|link]]; cbn in Ha4, Ha6; simplify_eq;
      vm_compute in H4, H6; discriminate.
Defined.

(** ** [check_is_without_duplication]: duplicates by resource sets *)

Lemma filter_ext_elem_of {A} (P1 P2 : A → Prop) `{!∀ x, Decision (P1 x)}
    `{!∀ x, Decision (P2 x)} (l : list A) :
  (∀ x, x ∈ l → P1 x ↔ P2 x) → filter P1 l = filter P2 l.
Proof.
  induction l as [|x l IH]; intros Hext; [done|].
  rewrite !filter_cons, IH by (intros y Hy; by apply Hext, list_elem_of_further).
  pose proof (Hext x (list_elem_of_here _ _)) as Hx.
  destruct (decide (P1 x)), (decide (P2 x)); tauto.
Qed.

Section duplication_by_sets.
Context `{!ResourceSets}.
Import constraint.

(** The code reads the resource sets anywhere below a constraint; where
    they are its children, that is the constraint's ordered sequence of
    ordered resource-id sets. *)
Lemma get_id_set_list_ordered_id_sets (c : Element) :
  resource_sets_are_children c → get_id_set_list c = ordered_id_sets c.
Proof.
  intros Hflat. unfold get_id_set_list, ordered_id_sets.
  by rewrite findall_children.
Qed.

Lemma have_duplicit_resource_sets_ordered_id_sets (e1 e2 : Element) :
  resource_sets_are_children e1 → resource_sets_are_children e2 →
  have_duplicit_resource_sets e1 e2 = true
  ↔ ordered_id_sets e1 = ordered_id_sets e2.
Proof.
  intros H1 H2. unfold have_duplicit_resource_sets.
  rewrite bool_decide_eq_true.
  by rewrite !get_id_set_list_ordered_id_sets.
Qed.

Lemma duplicit_element_list_ordered_id_sets (constraint_section e : Element) :
  (∀ d, d ∈ e :: findall constraint_section (tag e) →
        resource_sets_are_children d) →
  duplicit_element_list constraint_section e have_duplicit_resource_sets
  = filter (λ d, oid d ≠ oid e ∧ ordered_id_sets d = ordered_id_sets e)
      (findall constraint_section (tag e)).
Proof.
  intros Hflat. unfold duplicit_element_list.
  apply filter_ext_elem_of. intros d Hd.
  assert (He : resource_sets_are_children e)
    by apply Hflat, list_elem_of_here.
  assert (Hd' : resource_sets_are_children d)
    by by apply Hflat, list_elem_of_further.
  rewrite (have_duplicit_resource_sets_ordered_id_sets e d He Hd'). split.
  - intros [Hoid Hsets]. split; [|done]. intros Heq. by apply Hoid.
  - intros [Hoid Hsets]. split; [|done]. intros Heq. by apply Hoid.
Qed.

(** C3, as amended: duplicate constraints. For constraints whose resource
    sets are their child elements, [check_is_without_duplication] with
    [have_duplicit_resource_sets] compares the element with every
    element of its tag below the constraint section, at any depth. The
    conflicting elements are those, other than the element itself, whose
    ordered sequence of ordered resource-id sets equals the element's.
    The check returns exactly when there is none; otherwise it fails with
    the duplicate-constraints report of the element's tag, which lists
    the exported form of every conflicting element, in document order.
    When no element of the tag lies deeper than the children of the
    section, the conflicting elements are the conflicting siblings.
    Two constraints are duplicates exactly when their sequences are
    equal: the set A, B is a duplicate of the set A, B, but not of B, A,
    the set A, C is a duplicate of neither, and two sequences that agree
    on their first set and differ on a later one are no duplicates. *)
Theorem check_is_without_duplication_cases (constraint_section e : Element)
    (export_element : Element → Plain) :
  (∀ d, d ∈ e :: findall constraint_section (tag e) →
        resource_sets_are_children d) →
  let conflicting :=
    filter (λ d, oid d ≠ oid e ∧ ordered_id_sets d = ordered_id_sets e)
      (findall constraint_section (tag e)) in
  (check_is_without_duplication constraint_section e
     have_duplicit_resource_sets export_element = Returned ()
   ↔ conflicting = [])
  ∧ (conflicting ≠ [] →
     check_is_without_duplication constraint_section e
       have_duplicit_resource_sets export_element
     = Raised (LibraryError
                 (reports.duplicit_constraints_exist (tag e)
                    (export_element <$> conflicting))))
  ∧ ((∀ c, c ∈ children constraint_section → findall c (tag e) = []) →
     conflicting
     = filter (λ d, ordered_id_sets d = ordered_id_sets e)
         (siblings_of_tag constraint_section e))
  ∧ (∀ e1 e2,
       resource_sets_are_children e1 → resource_sets_are_children e2 →
       (have_duplicit_resource_sets e1 e2 = true
        ↔ ordered_id_sets e1 = ordered_id_sets e2)
       ∧ (ordered_id_sets e1 = [["A"; "B"]] →
          ordered_id_sets e2 = [["A"; "B"]] →
          have_duplicit_resource_sets e1 e2 = true)
       ∧ (ordered_id_sets e1 = [["A"; "B"]] →
          ordered_id_sets e2 = [["B"; "A"]] →
          have_duplicit_resource_sets e1 e2 = false
          ∧ have_duplicit_resource_sets e2 e1 = false)
       ∧ (ordered_id_sets e1 = [["A"; "C"]] →
          ordered_id_sets e2 = [["A"; "B"]]
          ∨ ordered_id_sets e2 = [["B"; "A"]] →
          have_duplicit_resource_sets e1 e2 = false
          ∧ have_duplicit_resource_sets e2 e1 = false)
       ∧ (∀ first later1 later2,
            ordered_id_sets e1 = first :: later1 →
            ordered_id_sets e2 = first :: later2 →
            later1 ≠ later2 →
            have_duplicit_resource_sets e1 e2 = false)).
Proof.
  intros Hflat. cbv zeta.
  rewrite <- (duplicit_element_list_ordered_id_sets _ _ Hflat).
  split; [|split; [|split]].
  - unfold check_is_without_duplication.
    by destruct (duplicit_element_list _ _ _).
  - intros Hconflict. unfold check_is_without_duplication.
    by destruct (duplicit_element_list _ _ _).
  - intros Hnested. rewrite (duplicit_element_list_ordered_id_sets _ _ Hflat).
    rewrite findall_children by done. unfold siblings_of_tag.
    rewrite !list_filter_filter. apply list_filter_iff. intros d. tauto.
  - intros e1 e2 H1 H2.
    pose proof (have_duplicit_resource_sets_ordered_id_sets e1 e2 H1 H2)
      as H12.
    pose proof (have_duplicit_resource_sets_ordered_id_sets e2 e1 H2 H1)
      as H21.
    assert (Hfalse : ∀ a b : Element,
              (have_duplicit_resource_sets a b = true
               ↔ ordered_id_sets a = ordered_id_sets b) →
              ordered_id_sets a ≠ ordered_id_sets b →
              have_duplicit_resource_sets a b = false).
    { intros a b Hiff Hne.
      destruct (have_duplicit_resource_sets a b) eqn:Hab; [|done].
      by destruct Hne, Hiff as [-> _]. }
    split; [done|]. split; [|split; [|split; [|]]].
    + intros Ha Hb. apply H12. congruence.
    + intros Ha Hb. split; apply Hfalse; try done; rewrite Ha, Hb; done.
    + intros Ha [Hb|Hb]; split; apply Hfalse; try done; rewrite Ha, Hb; done.
    + intros first later1 later2 Ha Hb Hne. apply Hfalse; [done|].
      rewrite Ha, Hb. congruence.
Qed.

End duplication_by_sets.

Lemma two_set_constraints_flat (d : Element) :
  d ∈ children two_set_constraints_example → resource_sets_are_children d.
Proof.
  revert d. apply Forall_forall.
  repeat constructor; intros child Hchild; revert child Hchild;
    apply Forall_forall; by repeat constructor.
Qed.

Lemma check_is_without_duplication_cases_witness :
  @constraint.check_is_without_duplication two_set_constraints_example
    (colocation_with_sets 1 "c1" [["A"; "B"]; ["C"]])
    (@constraint.have_duplicit_resource_sets sample_resource_sets) sample_export
  = Raised (LibraryError
              (reports.duplicit_constraints_exist "rsc_colocation"
                 [sample_export
                    (colocation_with_sets 5 "c5" [["A"; "B"]; ["C"]])])).
Proof.
  destruct (@check_is_without_duplication_cases sample_resource_sets
              two_set_constraints_example
              (colocation_with_sets 1 "c1" [["A"; "B"]; ["C"]])
              sample_export) as (_ & Hfails & _).
  - intros d [->|Hd]%elem_of_cons.
    + apply two_set_constraints_flat, list_elem_of_here.
    + apply two_set_constraints_flat. revert d Hd. apply Forall_forall.
      vm_compute. repeat constructor; apply (bool_decide_unpack _);
        vm_compute; exact I.
  - rewrite Hfails; [reflexivity|]. by vm_compute.
Defined.

(** C3, as stated, fails: the constraint with the set A, B has no sibling
    of its tag, so no sibling has an equal sequence of resource-id sets,
    and the check fails all the same, on the constraint with the same set
    that lies one level deeper in the section. *)
Lemma check_is_without_duplication_flags_nested :
  siblings_of_tag nested_constraints_example
    (colocation_with_sets 1 "c1" [["A"; "B"]]) = []
  ∧ @constraint.check_is_without_duplication nested_constraints_example
      (colocation_with_sets 1 "c1" [["A"; "B"]])
      (@constraint.have_duplicit_resource_sets sample_resource_sets)
      sample_export
    = Raised (LibraryError
                (reports.duplicit_constraints_exist "rsc_colocation"
                   [sample_export
                      (colocation_with_sets 2 "c2" [["A"; "B"]])])).
Proof. split; by vm_compute. Qed.

(** Constraints with two resource sets each: equal sequences are flagged,
    and a sequence that differs in its second set, in the order of its
    sets or in their number is not. *)
Example check_is_without_duplication_two_sets :
  @constraint.check_is_without_duplication two_set_constraints_example
    (colocation_with_sets 2 "c2" [["A"; "B"]; ["D"]])
    (@constraint.have_duplicit_resource_sets sample_resource_sets) sample_export
  = Returned ()
  ∧ @constraint.check_is_without_duplication two_set_constraints_example
      (colocation_with_sets 3 "c3" [["C"]; ["A"; "B"]])
      (@constraint.have_duplicit_resource_sets sample_resource_sets)
      sample_export
    = Returned ()
  ∧ @constraint.check_is_without_duplication two_set_constraints_example
      (colocation_with_sets 4 "c4" [["A"; "B"]])
      (@constraint.have_duplicit_resource_sets sample_resource_sets)
      sample_export
    = Returned ()
  ∧ @constraint.get_id_set_list sample_resource_sets
      (colocation_with_sets 1 "c1" [["A"; "B"]; ["C"]])
    = [["A"; "B"]; ["C"]]
  ∧ @ordered_id_sets sample_resource_sets
      (colocation_with_sets 1 "c1" [["A"; "B"]; ["C"]])
    = [["A"; "B"]; ["C"]].
Proof. repeat split; by vm_compute. Qed.

(** ** [create]: the exception of a lookup *)

Section create_exception.
Context `{!Collaborators}.
Variable getaddrinfo : string → Lookup.
Import config_validators.

Lemma addr_loop_app acc l1 l2 :
  addr_loop getaddrinfo acc (l1 ++ l2)
  = acc' ← addr_loop getaddrinfo acc l1; addr_loop getaddrinfo acc' l2.
Proof.
  revert acc. induction l1 as [|addr l1 IH]; intros acc; [done|].
  cbn [app addr_loop].
  destruct (addr_step getaddrinfo acc addr) as [acc1|exception]; [|done].
  cbn. apply IH.
Qed.

Lemma not_lookup_returns address exception :
  _get_address_type getaddrinfo address = Propagates exception →
  ¬ lookup_returns getaddrinfo address.
Proof. intros Hraises Hreturns. by apply (Hreturns exception). Qed.

Lemma addr_loop_propagates acc before address after exception :
  (∀ a, a ∈ before → lookup_returns getaddrinfo a) →
  acc.1.2 !! address = None →
  _get_address_type getaddrinfo address = Propagates exception →
  addr_loop getaddrinfo acc (before ++ address :: after)
  = Propagates exception.
Proof.
  intros Hbefore Hnone Hraises.
  rewrite addr_loop_app, addr_loop_refines by auto. cbn.
  rewrite addr_step_cases.
  destruct acc as [[counts types] addr_types]. cbn [fst snd] in Hnone.
  rewrite addr_loop_types, lookup_type_loop, Hnone.
  rewrite decide_False.
  - by rewrite Hraises.
  - intros Hin. exact (not_lookup_returns _ _ Hraises (Hbefore _ Hin)).
Qed.

Lemma node_loop_propagates transport i st node_list before address after
    exception :
  all_addrs node_list = before ++ address :: after →
  (∀ a, a ∈ before → lookup_returns getaddrinfo a) →
  all_addrs_type st !! address = None →
  _get_address_type getaddrinfo address = Propagates exception →
  node_loop getaddrinfo transport i st node_list = Propagates exception.
Proof.
  intros Hsplit Hbefore Hnone Hraises.
  revert i st before Hsplit Hbefore Hnone.
  induction node_list as [|node rest IH]; intros i st before Hsplit Hbefore Hnone.
  { by destruct before. }
  unfold all_addrs in Hsplit. rewrite bind_cons in Hsplit.
  fold (all_addrs rest) in Hsplit. cbn [node_loop].
  apply app_eq_inv in Hsplit as [(k & Hnode & Hrest)|(k & Hnode & Hrest)].
  - destruct k as [|a k].
    + rewrite app_nil_r in Hnode. cbn in Hrest.
      assert (Hreturn : ∀ a, a ∈ default [] (addrs node) →
                all_addrs_type st !! a = None → lookup_returns getaddrinfo a).
      { intros a Ha _. rewrite Hnode in Ha. exact (Hbefore a Ha). }
      rewrite (node_step_refines _ _ _ _ _ Hreturn). cbn.
      apply (IH _ _ []); [done| |].
      * by intros a ?%elem_of_nil.
      * rewrite completed_node_step_types, lookup_type_loop, Hnone.
        rewrite decide_False; [done|]. rewrite Hnode. intros Hin.
        exact (not_lookup_returns _ _ Hraises (Hbefore _ Hin)).
    + injection Hrest as <- Hafter. unfold node_step.
      rewrite Hnode.
      by rewrite (addr_loop_propagates _ before address k exception).
  - assert (Hreturn : ∀ a, a ∈ default [] (addrs node) →
              all_addrs_type st !! a = None → lookup_returns getaddrinfo a).
    { intros a Ha _. apply (Hbefore a). rewrite Hnode. apply elem_of_app.
      by left. }
    rewrite (node_step_refines _ _ _ _ _ Hreturn). cbn.
    apply (IH _ _ k); [done| |].
    + intros a Ha. apply (Hbefore a). rewrite Hnode. apply elem_of_app.
      by right.
    + rewrite completed_node_step_types, lookup_type_loop, Hnone.
      rewrite decide_False; [done|]. intros Hin.
      apply (not_lookup_returns _ _ Hraises), (Hbefore address). rewrite Hnode.
      apply elem_of_app. by left.
Qed.

(** The exception of a lookup ends the call. When the lookup of an
    address of the node list raises an exception other than
    [socket.gaierror], and no lookup of an address before it does,
    [create] is ended by that exception, whatever else the arguments
    hold: it returns no report, not even the reports of the nodes it has
    already checked. *)
Theorem create_propagates_lookup_exception (cluster_name : string)
    (node_list : list Node) (transport : string) (force_unresolvable : bool)
    (before : list string) (address : string) (after : list string)
    (exception : string) :
  all_addrs node_list = before ++ address :: after →
  (∀ a, a ∈ before → lookup_returns getaddrinfo a) →
  _get_address_type getaddrinfo address = Propagates exception →
  create getaddrinfo cluster_name node_list transport force_unresolvable
  = Propagates exception.
Proof.
  intros Hsplit Hbefore Hraises. unfold create, create_run.
  by rewrite (node_loop_propagates _ _ _ _ before address after exception).
Qed.

End create_exception.

Lemma create_propagates_lookup_exception_witness :
  @config_validators.create sample_collaborators sample_getaddrinfo ""
    unicode_error_example "no-such-transport" true
  = Propagates "UnicodeError".
Proof.
  apply (@create_propagates_lookup_exception sample_collaborators
           sample_getaddrinfo "" unicode_error_example "no-such-transport"
           true ["no-such-host"] "node2..example.org" []).
  - reflexivity.
  - intros a ->%list_elem_of_singleton exception. by vm_compute.
  - by vm_compute.
Defined.
